(** * Conditional samplers of the tree-structured recurrent SLDS

    A shallow embedding of [trslds/conditionals.py]: the Gibbs
    conditionals (emission parameters, hyperplanes, leaf dynamics, the
    discrete path sampler) and the Polya-Gamma augmented Kalman
    filter / backward sampler, followed by the properties stated for
    them.

    Conventions of the embedding.
    - A float64 is an exact real ([R]); NumPy arrays are row-major lists
      ([vec], [matrix]); a 3-D array indexed [A[:, :, k]] is the list of
      its slices along the last axis.  A [D x 1] column array is a [vec].
    - A tree-path entry is a node number or NaN: [option Z], NaN being
      [None].
    - Python exceptions are values of [exn]; a function that can raise
      returns a [result].
    - [numpy.linalg] and the random generators are interfaces ([LinAlg],
      [Rng]); the functions of [trslds.utils], which this file only
      calls, are an interface too ([Utils]).
    - Operands of arithmetic are assumed to have conforming shapes (NumPy
      would raise [ValueError] or broadcast otherwise); indexing out of
      range raises [IndexError] as in Python. *)

From Stdlib Require Import Reals List ZArith Lia Lra Bool Arith.
Import ListNotations.
Local Open Scope R_scope.

(** ** Exceptions *)

Inductive exn : Type :=
| LinAlgError
| IndexError
| ValueError
| TypeError
| AttributeError.

Inductive result (A : Type) : Type :=
| Ok (a : A)
| Raise (e : exn).

Arguments Ok {A} a.
Arguments Raise {A} e.

Definition bind {A B : Type} (c : result A) (k : A -> result B) : result B :=
  match c with
  | Ok a => k a
  | Raise e => Raise e
  end.

Declare Scope result_scope.
Delimit Scope result_scope with result.
Notation "x <- c ;; k" := (bind c (fun x => k))
  (at level 61, c at next level, right associativity) : result_scope.
Notation "' p <- c ;; k" := (bind c (fun x => let 'p := x in k))
  (at level 61, p pattern, c at next level, right associativity) : result_scope.
Local Open Scope result_scope.

(** [for x in xs: s = body(x, s)], stopping at the first exception. *)
Fixpoint for_each {A S : Type} (xs : list A) (body : A -> S -> result S)
    (s : S) : result S :=
  match xs with
  | [] => Ok s
  | x :: xs' => s' <- body x s ;; for_each xs' body s'
  end.

(** [range(n)] and [range(n - 1, -1, -1)]. *)
Definition range (n : nat) : list nat := seq 0 n.
Definition range_down (n : nat) : list nat := rev (seq 0 n).

(** ** Lists as NumPy arrays *)

Abbreviation vec := (list R) (only parsing).
Abbreviation matrix := (list (list R)) (only parsing).

(** [l[i]] for a loop index [i >= 0]. *)
Definition get {A : Type} (l : list A) (i : nat) : result A :=
  match nth_error l i with
  | Some a => Ok a
  | None => Raise IndexError
  end.

(** [l[i]] for a Python integer: a negative index counts from the end. *)
Definition np_index {A : Type} (l : list A) (i : Z) : result A :=
  let n := Z.of_nat (length l) in
  if (0 <=? i)%Z then get l (Z.to_nat i)
  else if (- n <=? i)%Z then get l (Z.to_nat (n + i))
  else Raise IndexError.

(** The list [l] with position [i] replaced (unchanged out of range). *)
Fixpoint upd {A : Type} (l : list A) (i : nat) (a : A) : list A :=
  match l, i with
  | [], _ => []
  | _ :: l', O => a :: l'
  | x :: l', S i' => x :: upd l' i' a
  end.

(** [l[i] = a]. *)
Definition set_item {A : Type} (l : list A) (i : nat) (a : A) : result (list A) :=
  if (i <? length l)%nat then Ok (upd l i a) else Raise IndexError.

Fixpoint zip_with {A B C : Type} (f : A -> B -> C) (l : list A) (m : list B)
    : list C :=
  match l, m with
  | a :: l', b :: m' => f a b :: zip_with f l' m'
  | _, _ => []
  end.

(** Python's [l[:-n]] and [l[-n:]] for [n >= 0]; note [-0 = 0], so
    [l[:-0]] is empty and [l[-0:]] is all of [l]. *)
Definition slice_to_neg {A : Type} (n : nat) (l : list A) : list A :=
  match n with
  | O => []
  | _ => firstn (length l - n) l
  end.

Definition slice_from_neg {A : Type} (n : nat) (l : list A) : list A :=
  match n with
  | O => l
  | _ => skipn (length l - n) l
  end.

Definition nrows (M : matrix) : nat := length M.
(** [M[0, :].size] (0 for an array without rows). *)
Definition width {A : Type} (M : list (list A)) : nat := length (hd [] M).
Definition ncols (M : matrix) : nat := width M.

Definition entry (M : matrix) (i j : nat) : R := nth j (nth i M []) 0.

(** [shape m n M]: [M] is an [m x n] array. *)
Definition shape {A : Type} (m n : nat) (M : list (list A)) : Prop :=
  length M = m /\ Forall (fun r => length r = n) M.

(** [M[:, j]] for a loop index, over any entry type ([d] fills a row
    that is too short, which a rectangular array never has). *)
Definition col_of {A : Type} (d : A) (M : list (list A)) (j : nat)
    : result (list A) :=
  if (j <? width M)%nat then Ok (map (fun r => nth j r d) M)
  else Raise IndexError.

(** [M[:, j] = v]; [v] must have one entry per row. *)
Definition set_col_of {A : Type} (M : list (list A)) (j : nat) (v : list A)
    : result (list (list A)) :=
  if (j <? width M)%nat then
    if (length v =? length M)%nat
    then Ok (zip_with (fun r x => upd r j x) M v)
    else Raise ValueError
  else Raise IndexError.

Definition col (M : matrix) (j : nat) : result vec := col_of 0 M j.
Definition set_col (M : matrix) (j : nat) (v : vec) : result matrix :=
  set_col_of M j v.

(** [M[:, j]] for a Python integer [j]. *)
Definition col_at {A : Type} (d : A) (M : list (list A)) (j : Z)
    : result (list A) :=
  let n := Z.of_nat (width M) in
  if (0 <=? j)%Z then col_of d M (Z.to_nat j)
  else if (- n <=? j)%Z then col_of d M (Z.to_nat (n + j))
  else Raise IndexError.

(** [M[:, -1]]. *)
Definition last_col (M : matrix) : result vec :=
  match ncols M with
  | O => Raise IndexError
  | S j => col M j
  end.

(** [M[i, j]] for loop indices. *)
Definition get2 {A : Type} (M : list (list A)) (i j : nat) : result A :=
  r <- get M i ;; get r j.

(** [M[:, 1:]], [M[:, :-1]], [M[:, :-n]], [M[:, -n:]], [M[:-1, :]]. *)
Definition drop_first_col (M : matrix) : matrix := map (skipn 1) M.
Definition drop_last_col (M : matrix) : matrix := map (@removelast R) M.
Definition cols_to_neg (n : nat) (M : matrix) : matrix := map (slice_to_neg n) M.
Definition cols_from_neg (n : nat) (M : matrix) : matrix := map (slice_from_neg n) M.
Definition drop_last_row (M : matrix) : matrix := removelast M.

(** Elementwise arithmetic. *)
Definition vadd (u v : vec) : vec := zip_with Rplus u v.
Definition vsub (u v : vec) : vec := zip_with Rminus u v.
Definition vscale (c : R) (v : vec) : vec := map (Rmult c) v.
Definition mat_add (A B : matrix) : matrix := zip_with vadd A B.
Definition mat_sub (A B : matrix) : matrix := zip_with vsub A B.
Definition mat_scale (c : R) (A : matrix) : matrix := map (vscale c) A.

Definition rsum (v : vec) : R := fold_right Rplus 0 v.
Definition dot (u v : vec) : R := rsum (zip_with Rmult u v).

(** [M.T], [A @ v], [A @ B], [np.eye(n)], [np.diag] (both directions)
    and the outer product [u[:, na] @ v[na, :]]. *)
Definition transpose (M : matrix) : matrix :=
  map (fun j => map (fun r => nth j r 0) M) (seq 0 (ncols M)).
Definition mat_vec (A : matrix) (v : vec) : vec := map (fun r => dot r v) A.
Definition mat_mul (A B : matrix) : matrix :=
  map (fun r => map (fun c => dot r c) (transpose B)) A.
Definition eye (n : nat) : matrix :=
  map (fun i => map (fun j => if (i =? j)%nat then 1 else 0) (seq 0 n)) (seq 0 n).
Definition diag (v : vec) : matrix :=
  map (fun i => map (fun j => if (i =? j)%nat then nth i v 0 else 0)
                 (seq 0 (length v))) (seq 0 (length v)).
Definition diag_of (M : matrix) : vec :=
  map (fun i => entry M i i) (seq 0 (Nat.min (nrows M) (ncols M))).
Definition outer (u v : vec) : matrix := map (fun a => map (Rmult a) v) u.

(** [np.hstack] of 2-D arrays (columns side by side) and of 1-D arrays. *)
Definition hstack (Ms : list matrix) : result matrix :=
  match Ms with
  | [] => Raise ValueError
  | M :: Ms' => Ok (fold_left (zip_with (@app R)) Ms' M)
  end.

Definition hstack1 {A : Type} (vs : list (list A)) : result (list A) :=
  match vs with
  | [] => Raise ValueError
  | _ => Ok (concat vs)
  end.

(** Boolean-mask indexing [l[mask]]; the mask must be as long as the axis. *)
Fixpoint select {A : Type} (mask : list bool) (l : list A) : list A :=
  match mask, l with
  | b :: mask', a :: l' => if b then a :: select mask' l' else select mask' l'
  | _, _ => []
  end.

(** [M[mask, :]] and [M[:, mask]]. *)
Definition mask_rows (mask : list bool) (M : matrix) : result matrix :=
  if (length mask =? nrows M)%nat then Ok (select mask M) else Raise IndexError.
Definition mask_cols (mask : list bool) (M : matrix) : result matrix :=
  if (length mask =? ncols M)%nat then Ok (map (select mask) M)
  else Raise IndexError.

(** Column sums and column maxima, [np.sum(M, 0)] and [np.max(M, 0)]
    (the latter raises on an array without rows). *)
Definition col_sums (M : matrix) : vec :=
  map (fun j => rsum (map (fun r => nth j r 0) M)) (seq 0 (ncols M)).

Definition rmax_list (x : R) (xs : vec) : R := fold_left Rmax xs x.

Definition col_maxs (M : matrix) : result vec :=
  match M with
  | [] => Raise ValueError
  | r :: M' =>
      Ok (map (fun j => rmax_list (nth j r 0) (map (fun r' => nth j r' 0) M'))
              (seq 0 (length r)))
  end.

(** The symmetrise-and-jitter step [(M + M.T) / 2 + 1e-8 * iden]. *)
Definition jitter : R := 1e-8.
Definition sym_jitter (n : nat) (M : matrix) : matrix :=
  mat_add (mat_scale (/ 2) (mat_add M (transpose M))) (mat_scale jitter (eye n)).

(** Further array helpers used by the samplers. *)

(** [M * s[na, :]]: column [t] of [M] scaled by [s[t]]. *)
Definition scale_cols (M : matrix) (s : vec) : matrix :=
  map (fun r => zip_with Rmult r s) M.

(** [M + c[:, na]]: [c[i]] added along row [i]. *)
Definition add_to_rows (M : matrix) (c : vec) : matrix :=
  zip_with (fun r x => map (fun y => y + x) r) M c.

(** [np.einsum('ij,ik->jk', M.T, M.T)], the sum over the columns of [M]
    of their outer products: entry [(j, k)] is [sum_t M[j,t] * M[k,t]]. *)
Definition gram (M : matrix) : matrix :=
  map (fun rj => map (fun rk => dot rj rk) M) M.

(** [np.sum(M, axis=1)]. *)
Definition row_sums (M : matrix) : vec := map rsum M.

(** [np.vstack((M, np.ones((1, n))))]. *)
Definition vstack_ones (M : matrix) (n : nat) : matrix := M ++ [repeat 1 n].

(** [v[:, na]] as a 2-D array and [M.ravel()] / [M.flatten()]. *)
Definition col_mat (v : vec) : matrix := map (fun x => [x]) v.
Definition ravel (M : matrix) : vec := concat M.

(** [M.flatten(order='F')] and [v.reshape((m, n), order='F')]. *)
Definition flatten_F (M : matrix) : vec := concat (transpose M).
Definition reshape_F (m n : nat) (v : vec) : matrix :=
  map (fun i => map (fun j => nth (j * m + i) v 0) (seq 0 n)) (seq 0 m).

(** [C[:, :-1] = C_temp]: every column but the last is overwritten. *)
Definition assign_but_last (C C_temp : matrix) : matrix :=
  zip_with (fun r rt => rt ++ skipn (length r - 1) r) C C_temp.

(** [row[:-1] += v]. *)
Definition iadd_but_last (row v : vec) : vec :=
  zip_with Rplus (removelast row) v ++ skipn (length row - 1) row.

(** [np.power(x, -0.5)] on a positive float (NumPy gives [inf] at 0,
    which has no counterpart here). *)
Definition power_neg_half (x : R) : R := Rpower x (- 0.5).


(** ** Interfaces of the libraries the module calls *)

(** [numpy.linalg]: each raises [LinAlgError] as NumPy does. *)
Record LinAlg : Type := {
  inv : matrix -> result matrix;
  solve : matrix -> matrix -> result matrix;
  cholesky : matrix -> result matrix;
  det : matrix -> R
}.

(** [numpy.random] over its global generator state [St], and the
    Polya-Gamma batch sampler of [pypolyagamma], which is a function of
    the seeds it is given. *)
Record Rng (St : Type) : Type := {
  multivariate_normal : vec -> matrix -> St -> result (vec * St);
  normal : nat -> nat -> St -> matrix * St;
  multinomial : vec -> St -> result (list Z * St);
  randint : Z -> nat -> St -> list Z * St;
  pgdrawvpar : list Z -> vec -> vec -> vec
}.

Arguments multivariate_normal {St} _ _ _ _.
Arguments normal {St} _ _ _ _.
Arguments multinomial {St} _ _ _.
Arguments randint {St} _ _ _ _.
Arguments pgdrawvpar {St} _ _ _ _.

(** A tree path: node numbers, NaN below the leaf. *)
Abbreviation pentry := (option Z) (only parsing).
Abbreviation pathmat := (list (list (option Z))) (only parsing).

(** [trslds.utils], as far as this module calls it: the MNIW sampler and
    its sufficient statistics, the vectorised tree log-probability and
    the Gaussian log-density. *)
Record Utils (St : Type) : Type := {
  sample_mniw : R -> matrix -> matrix -> matrix -> St ->
                result ((matrix * matrix) * St);
  compute_ss_mniw : matrix -> matrix -> R -> matrix -> matrix -> matrix ->
                    result (matrix * matrix * matrix * R);
  compute_leaf_log_prob_vectorized :
    list matrix -> matrix -> nat -> nat -> pathmat -> result matrix;
  log_mvn : matrix -> matrix -> matrix -> R -> vec
}.

Arguments sample_mniw {St} _ _ _ _ _ _.
Arguments compute_ss_mniw {St} _ _ _ _ _ _ _.
Arguments compute_leaf_log_prob_vectorized {St} _ _ _ _ _ _.
Arguments log_mvn {St} _ _ _ _ _.

(** [np.zeros((m, n))], [v @ M] for a 1-D [v], and [M / s[na, :]]. *)
Definition zeros (m n : nat) : matrix := repeat (repeat 0 n) m.
Definition vec_mat (v : vec) (M : matrix) : vec := mat_vec (transpose M) v.
Definition div_cols (M : matrix) (s : vec) : matrix :=
  map (fun r => zip_with Rdiv r s) M.

(** [np.where(choice[0, :] == 1)[0][0]]: the first position holding 1. *)
Fixpoint first_one (choice : list Z) : result nat :=
  match choice with
  | [] => Raise IndexError
  | c :: choice' =>
      if (c =? 1)%Z then Ok O else k <- first_one choice' ;; Ok (S k)
  end.

(** ** The conditional samplers *)

Section Conditionals.

Variable la : LinAlg.
Variable St : Type.
Variable rng : Rng St.
Variable utils : Utils St.

(** [pg_spike_train(X, C, Omega, D_out, nthreads, N)], with [nthreads]
    already resolved to a number. *)
Definition pg_spike_train (X : list matrix) (C : matrix) (Omega : list matrix)
    (D_out nthreads : nat) (N : R) (st : St) : result (list matrix * St) :=
  for_each (range (length X))
    (fun idx '(Omega, st) =>
       Xi <- get X idx ;;
       row0 <- get Xi 0 ;;
       let T := length (skipn 1 row0) in
       let b := map (Rmult N) (repeat 1 (T * D_out)) in
       bias <- last_col C ;;
       let V := add_to_rows (mat_mul (drop_last_col C) (drop_first_col Xi)) bias in
       let '(seeds, st') := randint rng (2 ^ 16) nthreads st in
       let out := pgdrawvpar rng seeds b (flatten_F V) in
       Omega' <- set_item Omega idx (reshape_F D_out T out) ;;
       Ok (Omega', st'))
    (Omega, st).

(** The block both emission samplers run under [if normalize:]. *)
Definition normalize_columns (C : matrix) : matrix :=
  let C_temp := drop_last_col C in
  let L := diag_of (mat_mul (transpose C_temp) C_temp) in
  let L := diag (map power_neg_half L) in
  let C_temp := mat_mul C_temp L in
  assign_but_last C C_temp.

Definition emission_parameters (obsv states : list matrix)
    (mask : list (list bool)) (nu : R) (Lambda M V : matrix)
    (normalize : bool) (st : St) : result ((matrix * matrix) * St) :=
  Y <- hstack obsv ;;
  let Y := transpose Y in
  X <- hstack (map drop_first_col states) ;;
  row0 <- get X 0 ;;
  let X := transpose (vstack_ones X (length row0)) in
  boolean_mask <- hstack1 mask ;;
  Y <- mask_rows boolean_mask Y ;;
  X <- mask_rows boolean_mask X ;;
  '(M_posterior, V_posterior, IW_matrix, df_posterior) <-
    compute_ss_mniw utils X Y nu Lambda M V ;;
  '((C, Sy), st') <-
    sample_mniw utils df_posterior IW_matrix M_posterior V_posterior st ;;
  if normalize then Ok ((normalize_columns C, Sy), st')
  else Ok ((C, Sy), st').

Definition emission_parameters_spike_train (spikes states Omega : list matrix)
    (mask : list (list bool)) (mu : vec) (Sigma : matrix)
    (normalize : bool) (N : R) (st : St) : result (matrix * St) :=
  X <- hstack (map drop_first_col states) ;;
  row0 <- get X 0 ;;
  let X := vstack_ones X (length row0) in
  Y <- hstack spikes ;;
  W <- hstack Omega ;;
  boolean_mask <- hstack1 mask ;;
  X <- mask_cols boolean_mask X ;;
  Y <- mask_cols boolean_mask Y ;;
  W <- mask_cols boolean_mask W ;;
  _ <- col Y 0 ;;
  let dim_y := nrows Y in
  _ <- col X 0 ;;
  let dim := nrows (drop_last_row X) in
  let C := zeros dim_y (dim + 1) in
  '(C, st) <-
    for_each (range dim_y)
      (fun neuron '(C, st) =>
         Lambda_post <- inv la Sigma ;;
         let temp_mu := vec_mat mu Lambda_post in
         Wn <- get W neuron ;;
         let xw_tilde := scale_cols X (map sqrt Wn) in
         let Lambda_post := mat_add Lambda_post (gram xw_tilde) in
         Yn <- get Y neuron ;;
         let temp_mu :=
           vadd temp_mu (row_sums (scale_cols X (map (fun y => y - N / 2) Yn))) in
         Sigma_post <- inv la Lambda_post ;;
         let mu_post := vec_mat temp_mu Sigma_post in
         '(c, st') <- multivariate_normal rng mu_post Sigma_post st ;;
         C' <- set_item C neuron c ;;
         Ok (C', st'))
      (C, st) ;;
  if normalize then Ok (normalize_columns C, st) else Ok (C, st).

Definition hyper_planes (w : vec) (x : matrix) (z : list Z) (prior_mu : vec)
    (prior_precision : matrix) (draw_prior : bool) (st : St)
    : result (vec * St) :=
  if draw_prior then multivariate_normal rng prior_mu prior_precision st
  else
    let J := mat_vec prior_precision prior_mu in
    let xw_tilde := scale_cols x (map sqrt w) in
    let precision := gram xw_tilde in
    let k := map (fun zt => IZR (zt mod 2) - 0.5) z in
    let J := vadd J (row_sums (scale_cols x k)) in
    posterior_cov <- inv la (mat_add precision prior_precision) ;;
    let posterior_mu := mat_vec posterior_cov J in
    multivariate_normal rng posterior_mu posterior_cov st.

Definition leaf_dynamics (Y X : matrix) (nu : R) (Lambda M V : matrix)
    (draw_prior : bool) (st : St) : result ((matrix * matrix) * St) :=
  if draw_prior then sample_mniw utils nu Lambda M V st
  else
    '(M_posterior, V_posterior, IW_matrix, df_posterior) <-
      compute_ss_mniw utils (transpose X) (transpose Y) nu Lambda M V ;;
    sample_mniw utils df_posterior IW_matrix M_posterior V_posterior st.

(** Lines 270-276 of [discrete_latent_recurrent_only]: the tree
    log-probability of every leaf, with the transition log-likelihood of
    leaf [k] added in place to [log_p[k, :-1]]. *)
Definition leaf_log_prob (leaf_path : pathmat) (K : nat) (Xi : matrix)
    (U : result matrix) (A Qinv : list matrix) (Qlogdet : vec)
    (Rs : list matrix) (depth D_input : nat) : result matrix :=
  log_p <- compute_leaf_log_prob_vectorized utils Rs Xi K depth leaf_path ;;
  let temp := drop_first_col Xi in
  for_each (range K)
    (fun k log_p =>
       Ak <- get A k ;;
       Ui <- U ;;
       let mu_temp :=
         mat_add (mat_mul (cols_to_neg D_input Ak) (drop_last_col Xi))
                 (mat_mul (cols_from_neg D_input Ak) (drop_last_col Ui)) in
       row <- get log_p k ;;
       Qinv_k <- get Qinv k ;;
       Qlogdet_k <- get Qlogdet k ;;
       set_item log_p k
         (iadd_but_last row (log_mvn utils temp mu_temp Qinv_k Qlogdet_k)))
    log_p.

(** Lines 278-279: [post_unnorm = exp(log_p - max(log_p, 0))] and
    [post_p = post_unnorm / sum(post_unnorm, 0)]. *)
Definition post_unnorm_of (log_p : matrix) : result matrix :=
  m <- col_maxs log_p ;;
  Ok (map (fun r => map exp (vsub r m)) log_p).

Definition post_p_of (log_p : matrix) : result matrix :=
  post_unnorm <- post_unnorm_of log_p ;;
  Ok (div_cols post_unnorm (col_sums post_unnorm)).

(** Lines 280-283: one multinomial draw per time step, written to
    [paths[idx][:, t]] and [Z[idx][t]]. *)
Definition sample_leaf_at (leaf_path : pathmat) (post_p : matrix) (idx t : nat)
    (s : list (list Z) * list pathmat * St)
    : result (list (list Z) * list pathmat * St) :=
  let '(Zs, paths, st) := s in
  p <- col post_p t ;;
  '(choice, st') <- multinomial rng p st ;;
  k <- first_one choice ;;
  lp <- col_of None leaf_path k ;;
  path_i <- get paths idx ;;
  path_i' <- set_col_of path_i t lp ;;
  paths' <- set_item paths idx path_i' ;;
  k' <- first_one choice ;;
  Z_i <- get Zs idx ;;
  Z_i' <- set_item Z_i t (Z.of_nat k') ;;
  Zs' <- set_item Zs idx Z_i' ;;
  Ok (Zs', paths', st').

(** [discrete_latent_recurrent_only(Z, paths, leaf_path, K, X, U, A, Q,
    R, depth, D_input)]; the arguments [Z] and [R] are [Zs] and [Rs] here. *)
Definition discrete_latent_recurrent_only (Zs : list (list Z))
    (paths : list pathmat) (leaf_path : pathmat) (K : nat)
    (X U A Q Rs : list matrix) (depth D_input : nat) (st : St)
    : result (list (list Z) * list pathmat * St) :=
  '(Qinv, Qlogdet) <-
    for_each (range K)
      (fun k '(Qinv, Qlogdet) =>
         Qk <- get Q k ;;
         Qk_inv <- inv la Qk ;;
         Qinv' <- set_item Qinv k Qk_inv ;;
         Qk <- get Q k ;;
         Qlogdet' <- set_item Qlogdet k (ln (det la Qk)) ;;
         Ok (Qinv', Qlogdet'))
      (Q, repeat 1 K) ;;
  for_each (range (length X))
    (fun idx s =>
       Xi <- get X idx ;;
       log_p <- leaf_log_prob leaf_path K Xi (get U idx) A Qinv Qlogdet
                  Rs depth D_input ;;
       post_p <- post_p_of log_p ;;
       row0 <- get Xi 0 ;;
       for_each (range (length row0)) (sample_leaf_at leaf_path post_p idx) s)
    (Zs, paths, st).

(** ** The Polya-Gamma augmented Kalman filter *)

(** The arrays [pg_kalman] mutates in place ([X], [P], [alphas],
    [Lambdas]) and its local [S], which the Bernoulli branch rebinds. *)
Record kstate : Type := {
  kX : matrix;
  kP : list matrix;
  kalphas : matrix;
  kLambdas : list matrix;
  kS : matrix
}.

(** [0.5 * (fin % 2 == 1) - 0.5 * (fin % 2 == 0)]. *)
Definition branch_sign (fin : Z) : R :=
  0.5 * (if (fin mod 2 =? 1)%Z then 1 else 0)
  - 0.5 * (if (fin mod 2 =? 0)%Z then 1 else 0).

(** [acc += x] for an accumulator initialised to the Python integer 0,
    which is [None] here: [0 + x] is [x]. *)
Definition acc_add {A : Type} (add : A -> A -> A) (acc : option A) (x : A)
    : option A :=
  match acc with
  | None => Some x
  | Some a => Some (add a x)
  end.

(** One iteration of [for d in range(depth - 1)] (lines 332-339). *)
Definition tree_level (paths : result pathmat) (omega : result matrix)
    (Rs : list matrix) (t d : nat) (acc : option matrix * option vec)
    : result (option matrix * option vec) :=
  let '(J, temp_mu) := acc in
  ps <- paths ;;
  loc <- get2 ps d t ;;
  fin <- get2 ps (d + 1) t ;;
  match fin with
  | None => Ok (J, temp_mu)
  | Some fin =>
      let k := branch_sign fin in
      Rd <- get Rs d ;;
      match loc with
      | None => Raise ValueError
      | Some loc =>
          Rcol <- col_at 0 Rd (loc - 1) ;;
          let tempR := removelast Rcol in
          om <- omega ;;
          w <- get2 om d t ;;
          let J := acc_add mat_add J (mat_scale w (outer tempR tempR)) in
          let temp_mu := acc_add vadd temp_mu (vscale (k - w * last Rcol 0) tempR) in
          Ok (J, temp_mu)
      end
  end.

(** Lines 329-339: the accumulated precision [J] and information vector
    [temp_mu] of the Polya-Gamma potentials along the path at time [t]. *)
Definition tree_potentials (paths : result pathmat) (omega : result matrix)
    (Rs : list matrix) (depth t : nat) : result (option matrix * option vec) :=
  for_each (range (depth - 1)) (tree_level paths omega Rs t) (None, None).

(** Lines 324-343: the prior mean [alpha] and covariance [Lambda] at
    time [t]. *)
Definition tree_prior (X : matrix) (P : list matrix) (paths : result pathmat)
    (omega : result matrix) (Rs : list matrix) (depth t : nat)
    : result (vec * matrix) :=
  if (depth =? 1)%nat then
    x <- col X t ;;
    Pt <- get P t ;;
    Ok (x, Pt)
  else
    '(J, temp_mu) <- tree_potentials paths omega Rs depth t ;;
    Pt <- get P t ;;
    Pinv <- inv la Pt ;;
    Lambda <- inv la (match J with None => Pinv | Some J => mat_add Pinv J end) ;;
    x <- col X t ;;
    match temp_mu with
    | None => Raise AttributeError
    | Some temp_mu => Ok (mat_vec Lambda (vadd (mat_vec Pinv x) temp_mu), Lambda)
    end.

(** Lines 352-357: the observation and its noise covariance. *)
Definition observation (Y : result matrix) (omegay : result matrix)
    (bern : bool) (N : R) (t : nat) (Sy : matrix) : result (matrix * vec) :=
  if bern then
    Yi <- Y ;;
    y <- col Yi t ;;
    let kt := map (fun v => v - N / 2) y in
    oy <- omegay ;;
    w <- col oy t ;;
    Ok (diag (map (fun v => 1 / v) w), zip_with Rdiv kt w)
  else
    Yi <- Y ;;
    y <- col Yi t ;;
    Ok (Sy, y).

(** Lines 350-351: the prediction through the dynamics [Ak] and noise
    [Q] of the active leaf. *)
Definition predict (D_bias : nat) (Ak Q : matrix) (alpha : vec)
    (Lambda : matrix) (ut : vec) : vec * matrix :=
  let A_x := cols_to_neg D_bias Ak in
  (vadd (mat_vec A_x alpha) (mat_vec (cols_from_neg D_bias Ak) ut),
   mat_add (mat_mul (mat_mul A_x Lambda) (transpose A_x)) Q).

(** Lines 360-364: the Kalman gain, the corrected mean and [P_temp]. *)
Definition correct (D_in : nat) (C Sy : matrix) (yt x_prior : vec)
    (P_prior : matrix) : result (vec * matrix) :=
  let C_x := drop_last_col C in
  W <- solve la (mat_add (mat_mul (mat_mul C_x P_prior) (transpose C_x)) Sy) C_x ;;
  let K := mat_mul P_prior (transpose W) in
  bias <- last_col C ;;
  Ok (vadd x_prior (mat_vec K (vsub (vsub yt (mat_vec C_x x_prior)) bias)),
      mat_mul (mat_sub (eye D_in) (mat_mul K C_x)) P_prior).

(** The body of the forward loop (lines 324-366).  The per-trajectory
    arrays come as results so that, in the batched variant, an
    [IndexError] of [U[idx]], [paths[idx]]... surfaces where the array
    is first used. *)
Definition forward_step (D_in D_bias : nat) (U : result matrix)
    (As Qs : list matrix) (C : matrix) (Y : result matrix)
    (paths : result pathmat) (Zs : result (list Z)) (omega : result matrix)
    (Rs : list matrix) (depth : nat) (omegay : result matrix) (bern : bool)
    (N : R) (t : nat) (s : kstate) : result kstate :=
  '(alpha, Lambda) <- tree_prior (kX s) (kP s) paths omega Rs depth t ;;
  alphas <- set_col (kalphas s) t alpha ;;
  Lambdas <- set_item (kLambdas s) t Lambda ;;
  Zi <- Zs ;;
  Zt <- get Zi t ;;
  Q <- np_index Qs Zt ;;
  Ak <- np_index As Zt ;;
  Ui <- U ;;
  ut <- col Ui t ;;
  let '(x_prior, P_prior) := predict D_bias Ak Q alpha Lambda ut in
  '(Sy, yt) <- observation Y omegay bern N t (kS s) ;;
  '(x_new, P_temp) <- correct D_in C Sy yt x_prior P_prior ;;
  X' <- set_col (kX s) (t + 1) x_new ;;
  P' <- set_item (kP s) (t + 1) (sym_jitter D_in P_temp) ;;
  Ok {| kX := X'; kP := P'; kalphas := alphas; kLambdas := Lambdas; kS := Sy |}.

(** Lines 317-320: [Qinvs[:, :, k] = temp.T @ temp] with
    [temp = inv(cholesky(Qs[:, :, k]))]. *)
Definition precompute_Qinvs (D_in : nat) (Qs : list matrix)
    : result (list matrix) :=
  for_each (range (length Qs))
    (fun k Qinvs =>
       Qk <- get Qs k ;;
       L <- cholesky la Qk ;;
       temp <- inv la L ;;
       set_item Qinvs k (mat_mul (transpose temp) temp))
    (repeat (zeros D_in D_in) (length Qs)).

(** ["Filter forward"]: [for t in range(X[0, :].size - 1)]. *)
Definition filter_forward (D_in D_bias : nat) (U : result matrix)
    (As Qs : list matrix) (C : matrix) (Y : result matrix)
    (paths : result pathmat) (Zs : result (list Z)) (omega : result matrix)
    (Rs : list matrix) (depth : nat) (omegay : result matrix) (bern : bool)
    (N : R) (s : kstate) : result kstate :=
  row0 <- get (kX s) 0 ;;
  for_each (range (length row0 - 1))
    (forward_step D_in D_bias U As Qs C Y paths Zs omega Rs depth omegay bern N)
    s.

(** Lines 369-370: the draw of the last state. *)
Definition sample_last (eps : matrix) (s : kstate) : result kstate :=
  x_last <- last_col (kX s) ;;
  row0 <- get (kX s) 0 ;;
  P_last <- get (kP s) (length row0 - 1) ;;
  L <- cholesky la P_last ;;
  e <- last_col eps ;;
  X' <- set_col (kX s) (length row0 - 1) (vadd x_last (mat_vec L e)) ;;
  Ok {| kX := X'; kP := kP s; kalphas := kalphas s; kLambdas := kLambdas s;
        kS := kS s |}.

(** The smoothing covariance of line 384 and its symmetrised, jittered
    form of line 389. *)
Definition smoothing_cov (Lambda A_tot Q : matrix) : result matrix :=
  W <- solve la (mat_add Q (mat_mul (mat_mul A_tot Lambda) (transpose A_tot)))
                (mat_mul A_tot Lambda) ;;
  Ok (mat_sub Lambda (mat_mul (mat_mul Lambda (transpose A_tot)) W)).

Definition ensure_psd (D_in : nat) (Pn : matrix) : matrix :=
  mat_add (mat_scale 0.5 (mat_add Pn (transpose Pn)))
          (mat_scale jitter (eye D_in)).

(** Lines 376-389 of the backward loop: the smoothing mean [mu_n] and
    the symmetrised, jittered smoothing covariance [Pn]. *)
Definition backward_moments (D_in D_bias : nat) (U : result matrix)
    (As Qs Qinvs : list matrix) (Zs : result (list Z)) (t : nat) (s : kstate)
    : result (vec * matrix) :=
  alpha <- col (kalphas s) t ;;
  Lambda <- get (kLambdas s) t ;;
  Zi <- Zs ;;
  Zt <- get Zi t ;;
  Ak <- np_index As Zt ;;
  let A_tot := cols_to_neg D_bias Ak in
  let B_tot := cols_from_neg D_bias Ak in
  Q <- np_index Qs Zt ;;
  Qinv <- np_index Qinvs Zt ;;
  Pn <- smoothing_cov Lambda A_tot Q ;;
  sa <- solve la Lambda (col_mat alpha) ;;
  x_next <- col (kX s) (t + 1) ;;
  Ui <- U ;;
  ut <- col Ui t ;;
  let mu_n :=
    mat_vec Pn (vadd (ravel sa)
                     (mat_vec (mat_mul (transpose A_tot) Qinv)
                              (vsub x_next (mat_vec B_tot ut)))) in
  Ok (mu_n, ensure_psd D_in Pn).

(** The body of the backward loop (lines 376-392). *)
Definition backward_step (D_in D_bias : nat) (U : result matrix)
    (As Qs Qinvs : list matrix) (Zs : result (list Z)) (eps : matrix)
    (t : nat) (s : kstate) : result kstate :=
  '(mu_n, Pn) <- backward_moments D_in D_bias U As Qs Qinvs Zs t s ;;
  L <- cholesky la Pn ;;
  e <- col eps t ;;
  X' <- set_col (kX s) t (vadd mu_n (mat_vec L e)) ;;
  Ok {| kX := X'; kP := kP s; kalphas := kalphas s; kLambdas := kLambdas s;
        kS := kS s |}.

(** ["Sample backwards"] (lines 369-392). *)
Definition sample_backward (D_in D_bias : nat) (U : result matrix)
    (As Qs Qinvs : list matrix) (Zs : result (list Z)) (s : kstate) (st : St)
    : result (kstate * St) :=
  let '(eps, st') := normal rng (nrows (kX s)) (ncols (kX s)) st in
  s1 <- sample_last eps s ;;
  s2 <- for_each (range_down (ncols (kX s) - 1))
          (backward_step D_in D_bias U As Qs Qinvs Zs eps) s1 ;;
  Ok (s2, st').

(** [pg_kalman]: the result holds the returned [X] (in [kX]) with the
    final contents of the buffers mutated in place, and [marker]. *)
Definition pg_kalman (D_in D_bias : nat) (X U : matrix) (P : list matrix)
    (As Qs : list matrix) (C Sy Y : matrix) (paths : pathmat) (Zs : list Z)
    (omega alphas : matrix) (Lambdas : list matrix) (Rs : list matrix)
    (depth : nat) (omegay : result matrix) (bern : bool) (N : R) (marker : Z)
    (st : St) : result (kstate * Z * St) :=
  Qinvs <- precompute_Qinvs D_in Qs ;;
  s1 <- filter_forward D_in D_bias (Ok U) As Qs C (Ok Y) (Ok paths) (Ok Zs)
          (Ok omega) Rs depth omegay bern N
          {| kX := X; kP := P; kalphas := alphas; kLambdas := Lambdas; kS := Sy |} ;;
  '(s2, st') <- sample_backward D_in D_bias (Ok U) As Qs Qinvs (Ok Zs) s1 st ;;
  Ok (s2, marker, st').

(** [pg_kalman_batch]: the same two passes for every trajectory in turn,
    over the shared buffers [P], [alphas], [Lambdas]; [kX] of the running
    state is the trajectory being processed. *)
Definition pg_kalman_batch (D_in D_bias : nat) (X U : list matrix)
    (P : list matrix) (As Qs : list matrix) (C Sy : matrix) (Y : list matrix)
    (paths : list pathmat) (Zs : list (list Z)) (omega : list matrix)
    (alphas : matrix) (Lambdas : list matrix) (Rs : list matrix) (depth : nat)
    (omegay : list matrix) (bern : bool) (N : R) (st : St)
    : result (list matrix * kstate * St) :=
  Qinvs <- precompute_Qinvs D_in Qs ;;
  for_each (range (length X))
    (fun idx '(X, s, st) =>
       Xi <- get X idx ;;
       s1 <- filter_forward D_in D_bias (get U idx) As Qs C (get Y idx)
               (get paths idx) (get Zs idx) (get omega idx) Rs depth
               (get omegay idx) bern N
               {| kX := Xi; kP := kP s; kalphas := kalphas s;
                  kLambdas := kLambdas s; kS := kS s |} ;;
       '(s2, st') <- sample_backward D_in D_bias (get U idx) As Qs Qinvs
                       (get Zs idx) s1 st ;;
       X' <- set_item X idx (kX s2) ;;
       Ok (X', s2, st'))
    (X, {| kX := []; kP := P; kalphas := alphas; kLambdas := Lambdas; kS := Sy |},
     st).

End Conditionals.

Arguments pg_spike_train {St} rng X C Omega D_out nthreads N st.
Arguments emission_parameters {St} utils obsv states mask nu Lambda M V
  normalize st.
Arguments emission_parameters_spike_train la {St} rng spikes states Omega mask
  mu Sigma normalize N st.
Arguments hyper_planes la {St} rng w x z prior_mu prior_precision draw_prior st.
Arguments leaf_dynamics {St} utils Y X nu Lambda M V draw_prior st.
Arguments leaf_log_prob {St} utils leaf_path K Xi U A Qinv Qlogdet Rs depth
  D_input.
Arguments sample_leaf_at {St} rng leaf_path post_p idx t s.
Arguments discrete_latent_recurrent_only la {St} rng utils Zs paths leaf_path K
  X U A Q Rs depth D_input st.
Arguments sample_backward la {St} rng D_in D_bias U As Qs Qinvs Zs s st.
Arguments pg_kalman la {St} rng D_in D_bias X U P As Qs C Sy Y paths Zs omega
  alphas Lambdas Rs depth omegay bern N marker st.
Arguments pg_kalman_batch la {St} rng D_in D_bias X U P As Qs C Sy Y paths Zs
  omega alphas Lambdas Rs depth omegay bern N st.

(** ** The tree Polya-Gamma sampler and the internal dynamics *)

(** [np.kron(A, B)]: the block array whose block [(i, j)] is
    [A[i, j] * B]. *)
Definition kron (A B : matrix) : matrix :=
  concat (map (fun ra =>
                 map (fun rb => concat (map (fun a => map (Rmult a) rb) ra)) B)
              A).

(** [M.shape == M'.shape] for two 2-D arrays with at least one row. *)
Definition same_shape (M M' : matrix) : bool :=
  (nrows M =? nrows M')%nat && (ncols M =? ncols M')%nat.

(** [v.reshape((m, n), order='F')], which needs [m * n] entries. *)
Definition reshape_F_checked (m n : nat) (v : vec) : result matrix :=
  if (length v =? m * n)%nat then Ok (reshape_F m n v) else Raise ValueError.

(** The outcome of a function that opens with an [assert]: the
    [AssertionError], or what its body does. *)
Inductive asserted (A : Type) : Type :=
| AssertionError
| Passed (r : result A).

Arguments AssertionError {A}.
Arguments Passed {A} r.

Section TreeSamplers.

Variable la : LinAlg.
Variable St : Type.
Variable rng : Rng St.

(** Lines 42-43 of [pg_tree_posterior]: the value assigned to [v[d, t]],
    the hyperplane of the node traversed at level [d] evaluated at the
    state of time [t].  [path_i] is [path[idx]], whose [IndexError]
    surfaces here, where it is first used. *)
Definition tree_logit (path_i : result pathmat) (Xi : matrix)
    (Rs : list matrix) (d t : nat) : result R :=
  p <- path_i ;;
  node <- get2 p d t ;;
  match node with
  | None => Raise ValueError
  | Some n =>
      let index := (n - 1)%Z in
      Rd <- get Rs d ;;
      Rcol <- col_at 0 Rd index ;;
      x <- col Xi t ;;
      Ok (dot (removelast Rcol) x + last Rcol 0)
  end.

(** Lines 37-43: the array [v], filled level by level and time step by
    time step. *)
Definition tree_logits (path_i : result pathmat) (Xi : matrix)
    (Rs : list matrix) (depth T : nat) : result matrix :=
  for_each (range (depth - 1))
    (fun d v =>
       for_each (range T)
         (fun t v =>
            x <- tree_logit path_i Xi Rs d t ;;
            row <- get v d ;;
            row' <- set_item row t x ;;
            set_item v d row')
         v)
    (repeat (repeat 1 T) (depth - 1)).

(** [pg_tree_posterior(states, omega, R, path, depth, nthreads)], with
    [nthreads] already resolved to a number; the argument [R] is [Rs]
    here.  With [depth = 0] the array sizes are negative and [np.ones]
    raises. *)
Definition pg_tree_posterior (states omega Rs : list matrix)
    (path : list pathmat) (depth nthreads : nat) (st : St)
    : result (list matrix * St) :=
  for_each (range (length states))
    (fun idx '(omega, st) =>
       Xi <- get states idx ;;
       row0 <- get Xi 0 ;;
       let T := length row0 in
       if (depth =? 0)%nat then Raise ValueError
       else
         let b := repeat 1 (T * (depth - 1)) in
         v <- tree_logits (get path idx) Xi Rs depth T ;;
         let '(seeds, st') := randint rng (2 ^ 16) nthreads st in
         let out := pgdrawvpar rng seeds b (flatten_F v) in
         omega' <- set_item omega idx (reshape_F (depth - 1) T out) ;;
         Ok (omega', st'))
    (omega, st).

(** [_internal_dynamics(Mprior, Vparent, Achild, Vchild, N)]. *)
Definition _internal_dynamics (Mprior Vparent Achild Vchild : matrix) (N : R)
    (st : St) : asserted (matrix * St) :=
  if same_shape Mprior Achild then
    Passed
      (c0 <- col Achild 0 ;;
       precision_parent <- inv la (kron Vparent (eye (length c0))) ;;
       c0 <- col Achild 0 ;;
       precision_child <- inv la (kron Vchild (eye (length c0))) ;;
       posterior_sigma <-
         inv la (mat_add precision_parent (mat_scale N precision_child)) ;;
       let posterior_mu :=
         mat_vec posterior_sigma
           (vadd (mat_vec precision_parent (flatten_F Mprior))
                 (mat_vec precision_child (flatten_F Achild))) in
       '(sample, st') <-
         multivariate_normal rng posterior_mu posterior_sigma st ;;
       A <- reshape_F_checked (nrows Achild) (ncols Achild) sample ;;
       Ok (A, st'))
  else AssertionError.

End TreeSamplers.

Arguments tree_logits path_i Xi Rs depth T : simpl never.
Arguments pg_tree_posterior {St} rng states omega Rs path depth nthreads st.
Arguments _internal_dynamics la {St} rng Mprior Vparent Achild Vchild N st.

(** ** Reference instances of the interfaces

    Exact-arithmetic linear algebra (inverse by cofactors, Cholesky by
    rows), a generator whose state is the list of variates still to be
    handed out, and a small deterministic [Utils]: they serve to run the
    functions above on concrete arrays. *)

(** The [m x n] array with entry [f i j]. *)
Definition tabulate (m n : nat) (f : nat -> nat -> R) : matrix :=
  map (fun i => map (fun j => f i j) (seq 0 n)) (seq 0 m).

Fixpoint remove_at {A : Type} (j : nat) (l : list A) : list A :=
  match l, j with
  | [], _ => []
  | _ :: l', O => l'
  | x :: l', S j' => x :: remove_at j' l'
  end.

Definition sign (k : nat) : R := if Nat.even k then 1 else -1.

(** Laplace expansion along the first row. *)
Fixpoint det_rec (n : nat) (M : matrix) : R :=
  match n with
  | O => 1
  | S n' =>
      match M with
      | [] => 1
      | r :: M' =>
          rsum (map (fun j => sign j * nth j r 0
                              * det_rec n' (map (remove_at j) M'))
                    (seq 0 (S n')))
      end
  end.

Definition exact_det (M : matrix) : R := det_rec (length M) M.

Definition cofactor (M : matrix) (i j : nat) : R :=
  sign (i + j) * exact_det (map (remove_at j) (remove_at i M)).

Definition exact_inv (M : matrix) : result matrix :=
  if Req_dec_T (exact_det M) 0 then Raise LinAlgError
  else Ok (mat_scale (/ exact_det M)
             (tabulate (length M) (length M) (fun i j => cofactor M j i))).

Definition exact_solve (A B : matrix) : result matrix :=
  Ai <- exact_inv A ;; Ok (mat_mul Ai B).

(** Row [i] of the Cholesky factor below the diagonal, from the rows
    [Ls] already computed and row [a] of the matrix. *)
Fixpoint chol_row_entries (Ls : matrix) (a : vec) (j : nat) (acc : vec) : vec :=
  match Ls with
  | [] => acc
  | Lj :: Ls' =>
      chol_row_entries Ls' a (S j)
        (acc ++ [(nth j a 0 - dot acc Lj) / nth j Lj 0])
  end.

Fixpoint chol_rows (n : nat) (rows_left Ls : matrix) : result matrix :=
  match rows_left with
  | [] => Ok Ls
  | a :: rest =>
      let i := length Ls in
      let acc := chol_row_entries Ls a 0 [] in
      let d := nth i a 0 - dot acc acc in
      if Rlt_dec 0 d
      then chol_rows n rest (Ls ++ [acc ++ sqrt d :: repeat 0 (n - i - 1)])
      else Raise LinAlgError
  end.

Definition exact_cholesky (A : matrix) : result matrix :=
  chol_rows (length A) A [].

Definition exact_la : LinAlg :=
  {| inv := exact_inv; solve := exact_solve; cholesky := exact_cholesky;
     det := exact_det |}.

(** The generator replays a tape: the standard normal variates and the
    multinomial outcomes still to be handed out.  A multivariate normal
    draw is [mu + L z] for the Cholesky factor [L] of the covariance and
    the next variates [z]; a multinomial draw of one trial is the
    indicator vector of the next outcome. *)
Record tape : Type := { normals : list R; picks : list nat }.

Definition one_hot (n k : nat) : list Z :=
  map (fun i => if (i =? k)%nat then 1%Z else 0%Z) (seq 0 n).

Definition stream_rng : Rng tape :=
  {| multivariate_normal := fun mu cov st =>
       L <- exact_cholesky cov ;;
       Ok (vadd mu (mat_vec L (firstn (length mu) (normals st))),
           {| normals := skipn (length mu) (normals st); picks := picks st |});
     normal := fun m n st =>
       (tabulate m n (fun i j => nth (i * n + j) (normals st) 0),
        {| normals := skipn (m * n) (normals st); picks := picks st |});
     multinomial := fun p st =>
       Ok (one_hot (length p) (hd 0%nat (picks st)),
           {| normals := normals st; picks := tl (picks st) |});
     randint := fun _ n st => (repeat 0%Z n, st);
     pgdrawvpar := fun _ b _ => map (fun x => x / 4) b |}.

(** The Gaussian log-density of every column of [x] about the matching
    column of [mu], up to its constant. *)
Definition demo_log_mvn (x mu Qinv : matrix) (Qlogdet : R) : vec :=
  map (fun j =>
         let d := map (fun r => nth j r 0) (mat_sub x mu) in
         - 0.5 * dot d (mat_vec Qinv d) - 0.5 * Qlogdet)
      (seq 0 (ncols x)).

Definition demo_utils : Utils tape :=
  {| sample_mniw := fun nu Lambda M V st => Ok ((M, Lambda), st);
     compute_ss_mniw := fun X Y nu Lambda M V =>
       Ok (M, V, Lambda, nu + INR (length X));
     compute_leaf_log_prob_vectorized := fun Rs X K depth leaf_path =>
       Ok (zeros K (ncols X));
     log_mvn := demo_log_mvn |}.

(** ** Notions used by the statements *)

(** [sum_upto n f] is [f 0 + ... + f (n - 1)]. *)
Definition sum_upto (n : nat) (f : nat -> R) : R := rsum (map f (seq 0 n)).

(** Column [j] of an array, as [col] returns it. *)
Definition column (M : matrix) (j : nat) : vec := map (fun r => nth j r 0) M.

(** Two trajectories of the same shape that may differ only in their
    initial state, column 0. *)
Definition same_after_initial (A B : matrix) : Prop :=
  Forall2 (fun r r' => length r = length r' /\ skipn 1 r = skipn 1 r') A B.

(** The transition log-likelihood of leaf [k] along a trajectory: the
    vector that lines 275-276 add to [log_p[k, :-1]]. *)
Definition transition_log_lik {St : Type} (utils : Utils St) (Xi Ui : matrix)
    (A Qinv : list matrix) (Qlogdet : vec) (D_input k : nat) : vec :=
  let Ak := nth k A [] in
  log_mvn utils (drop_first_col Xi)
    (mat_add (mat_mul (cols_to_neg D_input Ak) (drop_last_col Xi))
             (mat_mul (cols_from_neg D_input Ak) (drop_last_col Ui)))
    (nth k Qinv []) (nth k Qlogdet 0).

(** Symmetry, the quadratic form [x^T M x], positive (semi-)definiteness
    and positivity of the real eigenvalues of an [n x n] array. *)
Definition symmetric (M : matrix) : Prop := transpose M = M.
Definition quad_form (M : matrix) (x : vec) : R := dot x (mat_vec M x).
Definition nonzero (x : vec) : Prop := exists i, nth i x 0 <> 0.
Definition pos_semidef (n : nat) (M : matrix) : Prop :=
  forall x, length x = n -> 0 <= quad_form M x.
Definition pos_def (n : nat) (M : matrix) : Prop :=
  forall x, length x = n -> nonzero x -> 0 < quad_form M x.
Definition positive_eigenvalues (n : nat) (M : matrix) : Prop :=
  forall (lam : R) (x : vec),
    length x = n -> nonzero x -> mat_vec M x = vscale lam x -> 0 < lam.


(** An array all of whose rows have one length. *)
Definition rectangular {A : Type} (M : list (list A)) : Prop :=
  exists m n, shape m n M.

(** The sampled path and the sampled leaf agree at time [t] of trajectory
    [idx]: [Z[idx][t]] is a leaf number [k] and [paths[idx][:, t]] is
    column [k] of [leaf_path]. *)
Definition path_matches_leaf (leaf_path : pathmat) (Zs : list (list Z))
    (paths : list pathmat) (idx t : nat) : Prop :=
  exists (k : nat) (c : list (option Z)),
    get2 Zs idx t = Ok (Z.of_nat k)
    /\ bind (get paths idx) (fun P => col_of None P t) = Ok c
    /\ col_of None leaf_path k = Ok c.

(** Decoding a path column: the first leaf whose column of [leaf_path]
    is that column. *)
Definition path_entry_eqb (a b : option Z) : bool :=
  match a, b with
  | Some x, Some y => (x =? y)%Z
  | None, None => true
  | _, _ => false
  end.

Fixpoint path_eqb (c c' : list (option Z)) : bool :=
  match c, c' with
  | [], [] => true
  | a :: c1, b :: c1' => path_entry_eqb a b && path_eqb c1 c1'
  | _, _ => false
  end.

Fixpoint decode_from (leaf_path : pathmat) (c : list (option Z)) (k n : nat)
    : option nat :=
  match n with
  | O => None
  | S n' =>
      match col_of None leaf_path k with
      | Ok c' => if path_eqb c c' then Some k
                 else decode_from leaf_path c (S k) n'
      | Raise _ => None
      end
  end.

Definition decode_path (leaf_path : pathmat) (c : list (option Z)) : option nat :=
  decode_from leaf_path c 0 (width leaf_path).

(** ** Concrete arrays *)

(** A two-dimensional hyperplane prior with precision [4 I]. *)
Definition mu0 : vec := [0; 0].
Definition precision4 : matrix := [[4; 0]; [0; 4]].
Definition covariance4 : matrix := [[/ 4; 0]; [0; / 4]].

(** A generator tape holding the standard normal variates 1, 1, and the
    empty tape. *)
Definition noise11 : tape := {| normals := [1; 1]; picks := [] |}.
Definition no_noise : tape := {| normals := []; picks := [] |}.

(** A tree of depth 2 with two leaves, [leaf_path] holding one column per
    leaf; one scalar trajectory of two time steps with a scalar input;
    identity dynamics and unit noise in both leaves; a tape whose next
    multinomial outcomes are leaf 1, then leaf 0. *)
Definition leaf_path2 : pathmat :=
  [[Some 1%Z; Some 1%Z]; [Some 1%Z; Some 2%Z]].
Definition no_paths : list pathmat := [[[None; None]; [None; None]]].
Definition X1 : list matrix := [[[1; 2]]].
Definition U1 : list matrix := [[[0; 0]]].
Definition A2 : list matrix := [[[1; 0]]; [[1; 0]]].
Definition Q2 : list matrix := [[[1]]; [[1]]].
Definition picks10 : tape := {| normals := []; picks := [1; 0]%nat |}.

(** One time step of a path through a tree of maximum depth 3 that
    reaches its leaf at level 1, with Polya-Gamma variates and
    hyperplanes for both internal levels. *)
Definition short_path : pathmat := [[Some 1%Z]; [Some 2%Z]; [None]].
Definition omega3 : matrix := [[1]; [5]].
Definition Rs3 : list matrix := [[[1]; [0]]; [[2; 3]; [1; 1]]].

(** An emission matrix for two outputs and one latent dimension (the
    last column is the bias), two observations of those outputs and
    their mask. *)
Definition C34 : matrix := [[3; 1]; [4; 1]].

(** A scalar model over two time steps: one latent dimension, one input
    and one output; unit dynamics and unit dynamics noise; emission
    [y = x + v] with noise variance 2; initial mean 0 and variance 1. *)
Definition s0 : kstate :=
  {| kX := [[0; 0]]; kP := [[[1]]; [[1]]]; kalphas := [[0; 0]];
     kLambdas := [[[1]]; [[1]]]; kS := [[2]] |}.
Definition U0 : matrix := [[0; 0]].
Definition Y1 : matrix := [[1; 1]].
Definition As1 : list matrix := [[[1; 0]]].
Definition Qs1 : list matrix := [[[1]]].
Definition C1 : matrix := [[1; 0]].
Definition Qs_two : list matrix := [[[2]]].

(** The same model under a tree of depth 2: the path goes from the root,
    node 1, to node 2 at both time steps; the root's hyperplane has
    normal 1 and bias 0, and the Polya-Gamma variates are 1. *)
Definition paths2 : pathmat := [[Some 1%Z; Some 1%Z]; [Some 2%Z; Some 2%Z]].
Definition omega1 : matrix := [[1; 1]].
Definition Rs1 : list matrix := [[[1]; [0]]].

(** The states of the scalar model after its first forward step, without
    the tree and under the tree of depth 2. *)
Definition s1_plain : kstate :=
  {| kX := [[0; / 2]]; kP := [[[1]]; [[1 + jitter]]]; kalphas := [[0; 0]];
     kLambdas := [[[1]]; [[1]]]; kS := [[2]] |}.
Definition s1_tree : kstate :=
  {| kX := [[0; 2 / 7]]; kP := [[[1]]; [[6 / 7 + jitter]]];
     kalphas := [[- / 4; 0]]; kLambdas := [[[/ 2]]; [[1]]]; kS := [[2]] |}.

(** Two one-dimensional trajectories of three time steps that differ in
    their initial state only. *)
Definition states_a : list matrix := [[[1; 2; 3]]].
Definition states_b : list matrix := [[[7; 2; 3]]].

(** ** Notions used by the further properties *)

(** What the caller sees of the arrays [pg_kalman] mutates: [X], [P],
    [alphas] and [Lambdas] (the local [S] is not visible). *)
Definition buffers (s : kstate) : matrix * list matrix * matrix * list matrix :=
  (kX s, kP s, kalphas s, kLambdas s).

(** Two runs end alike as far as [f] shows: both raise the same
    exception, or both return and [f] agrees on what they return. *)
Definition same_outcome {A B : Type} (f : A -> B) (r r' : result A) : Prop :=
  match r, r' with
  | Ok a, Ok a' => f a = f a'
  | Raise e, Raise e' => e = e'
  | _, _ => False
  end.

(** * Properties *)

(** ** The result monad and loops *)

Lemma bind_ok {A B : Type} (c : result A) (k : A -> result B) (b : B) :
  bind c k = Ok b -> exists a, c = Ok a /\ k a = Ok b.
Proof.
  destruct c as [a|e]; simpl; intros H; [eauto | discriminate].
Qed.

Lemma for_each_app {A S : Type} (l1 l2 : list A) (body : A -> S -> result S)
    (s : S) :
  for_each (l1 ++ l2) body s
  = bind (for_each l1 body s) (fun s' => for_each l2 body s').
Proof.
  revert s; induction l1 as [|x l1 IH]; intros s; simpl; [reflexivity|].
  destruct (body x s) as [s'|e]; simpl; [apply IH | reflexivity].
Qed.

Lemma for_each_ext {A S : Type} (xs : list A) (f g : A -> S -> result S)
    (s : S) :
  (forall x s', In x xs -> f x s' = g x s') ->
  for_each xs f s = for_each xs g s.
Proof.
  revert s; induction xs as [|x xs IH]; intros s H; simpl; [reflexivity|].
  rewrite (H x s (or_introl eq_refl)).
  destruct (g x s); simpl; [apply IH; intros; apply H; now right | reflexivity].
Qed.

(** A property kept by every iteration holds when the loop returns. *)
Lemma for_each_invariant {A S : Type} (I : S -> Prop) (xs : list A)
    (body : A -> S -> result S) (s s' : S) :
  (forall x a b, In x xs -> I a -> body x a = Ok b -> I b) ->
  I s -> for_each xs body s = Ok s' -> I s'.
Proof.
  revert s; induction xs as [|x xs IH]; intros s Hstep Hs Hrun; simpl in Hrun.
  - now inversion Hrun; subst.
  - apply bind_ok in Hrun as (a & Ha & Hrun).
    apply (IH a); auto.
    + intros y u v Hy; apply Hstep; now right.
    + apply (Hstep x s a); auto; now left.
Qed.

(** The first failing iteration decides the outcome of the loop. *)
Lemma for_each_raise {A S : Type} (l1 l2 : list A) (x : A)
    (body : A -> S -> result S) (s s1 : S) (e : exn) :
  for_each l1 body s = Ok s1 -> body x s1 = Raise e ->
  for_each (l1 ++ x :: l2) body s = Raise e.
Proof.
  intros H1 H2. rewrite for_each_app, H1. simpl. now rewrite H2.
Qed.

(** ** Lists *)

Lemma length_zip_with {A B C : Type} (f : A -> B -> C) (l : list A)
    (m : list B) :
  length (zip_with f l m) = Nat.min (length l) (length m).
Proof.
  revert m; induction l as [|a l IH]; intros [|b m]; simpl; auto.
Qed.

Lemma nth_zip_with {A B C : Type} (f : A -> B -> C) (l : list A) (m : list B)
    (i : nat) (da : A) (db : B) (dc : C) :
  (i < length l)%nat -> (i < length m)%nat ->
  nth i (zip_with f l m) dc = f (nth i l da) (nth i m db).
Proof.
  revert m i; induction l as [|a l IH]; intros [|b m] [|i]; simpl;
    intros H1 H2; try lia; auto.
  apply IH; lia.
Qed.

Lemma zip_with_map_seq {A B C : Type} (f : A -> B -> C) (a : nat -> A)
    (b : nat -> B) (s n m : nat) :
  zip_with f (map a (seq s n)) (map b (seq s m))
  = map (fun k => f (a k) (b k)) (seq s (Nat.min n m)).
Proof.
  revert s m; induction n as [|n IH]; intros s [|m]; simpl; auto.
  now rewrite IH.
Qed.

Lemma nth_map_seq {A : Type} (f : nat -> A) (n i : nat) (d : A) :
  (i < n)%nat -> nth i (map f (seq 0 n)) d = f i.
Proof.
  intros H. rewrite (nth_indep _ d (f 0%nat)) by now rewrite length_map, length_seq.
  rewrite (map_nth f (seq 0 n) 0%nat i), seq_nth; auto.
Qed.

Lemma nth_map_in {A B : Type} (f : A -> B) (l : list A) (k : nat) (d : B)
    (d' : A) :
  (k < length l)%nat -> nth k (map f l) d = f (nth k l d').
Proof.
  intros H. rewrite (nth_indep _ d (f d')) by now rewrite length_map.
  apply map_nth.
Qed.

Lemma map_seq_ext {A : Type} (f g : nat -> A) (s n : nat) :
  (forall i, (s <= i < s + n)%nat -> f i = g i) ->
  map f (seq s n) = map g (seq s n).
Proof.
  intros H. apply map_ext_in. intros i Hi. apply in_seq in Hi. now apply H.
Qed.

Lemma map_nth_seq {A : Type} (l : list A) (d : A) :
  map (fun i => nth i l d) (seq 0 (length l)) = l.
Proof.
  induction l as [|a l IH]; simpl; [reflexivity|].
  f_equal. rewrite <- seq_shift, map_map. exact IH.
Qed.

Lemma length_upd {A : Type} (l : list A) (i : nat) (a : A) :
  length (upd l i a) = length l.
Proof.
  revert i; induction l as [|x l IH]; intros [|i]; simpl; auto.
Qed.

Lemma nth_upd_same {A : Type} (l : list A) (i : nat) (a d : A) :
  (i < length l)%nat -> nth i (upd l i a) d = a.
Proof.
  revert i; induction l as [|x l IH]; intros [|i]; simpl; intros H;
    try lia; auto.
  apply IH; lia.
Qed.

Lemma nth_upd_other {A : Type} (l : list A) (i j : nat) (a d : A) :
  i <> j -> nth j (upd l i a) d = nth j l d.
Proof.
  revert i j; induction l as [|x l IH]; intros [|i] [|j]; simpl; intros H;
    try congruence; auto.
Qed.

Lemma get_ok {A : Type} (l : list A) (i : nat) (a : A) :
  get l i = Ok a -> (i < length l)%nat /\ forall d, nth i l d = a.
Proof.
  unfold get. destruct (nth_error l i) as [x|] eqn:E; intros H; inversion H; subst.
  split; [apply nth_error_Some; congruence | intros d; now apply nth_error_nth].
Qed.

Lemma get_lt {A : Type} (l : list A) (i : nat) (d : A) :
  (i < length l)%nat -> get l i = Ok (nth i l d).
Proof.
  intros H. unfold get. now rewrite (nth_error_nth' l d H).
Qed.

Lemma set_item_ok {A : Type} (l l' : list A) (i : nat) (a : A) :
  set_item l i a = Ok l' -> (i < length l)%nat /\ l' = upd l i a.
Proof.
  unfold set_item. destruct (i <? length l)%nat eqn:E; intros H; inversion H.
  split; [now apply Nat.ltb_lt | reflexivity].
Qed.

Lemma set_item_lt {A : Type} (l : list A) (i : nat) (a : A) :
  (i < length l)%nat -> set_item l i a = Ok (upd l i a).
Proof.
  intros H. unfold set_item. apply Nat.ltb_lt in H. now rewrite H.
Qed.

(** ** Evaluating the reference linear algebra *)

Lemma exact_inv_precision4 : exact_inv precision4 = Ok covariance4.
Proof.
  unfold exact_inv, precision4, covariance4.
  destruct (Req_dec_T _ 0) as [e|ne].
  - exfalso. revert e. unfold exact_det. simpl. unfold sign; simpl. lra.
  - f_equal. unfold tabulate, cofactor, mat_scale, vscale, exact_det.
    simpl. unfold sign; simpl. repeat (f_equal; try (field; lra)).
Qed.

Lemma exact_inv_1 : exact_inv [[1]] = Ok [[1]].
Proof.
  unfold exact_inv.
  destruct (Req_dec_T _ 0) as [e|ne].
  - exfalso. revert e. unfold exact_det. simpl. unfold sign; simpl. lra.
  - f_equal. unfold tabulate, cofactor, mat_scale, vscale, exact_det.
    simpl. unfold sign; simpl. repeat (f_equal; try (field; lra)).
Qed.

Lemma sqrt_4 : sqrt 4 = 2.
Proof.
  replace 4 with (2 * 2) by lra. apply sqrt_square. lra.
Qed.

Lemma sqrt_quarter : sqrt (/ 4) = / 2.
Proof.
  replace (/ 4) with (/ 2 * / 2) by lra. apply sqrt_square. lra.
Qed.

(** The Cholesky factor of a positive multiple of the 2 x 2 identity. *)
Lemma exact_cholesky_scalar2 (a : R) :
  0 < a -> exact_cholesky [[a; 0]; [0; a]] = Ok [[sqrt a; 0]; [0; sqrt a]].
Proof.
  intros Ha. unfold exact_cholesky. simpl. unfold dot; simpl.
  destruct (Rlt_dec 0 (a - 0)) as [h|h]; [|exfalso; lra].
  simpl. unfold dot; simpl.
  assert (Hs : sqrt (a - 0) <> 0).
  { apply Rgt_not_eq, sqrt_lt_R0. lra. }
  assert (Hz : (0 - 0) / sqrt (a - 0) = 0) by (field; exact Hs).
  destruct (Rlt_dec _ _) as [h'|h'].
  - simpl. rewrite Hz. replace (a - 0) with a by lra.
    replace (a - (0 * 0 + 0)) with a by lra. reflexivity.
  - exfalso; apply h'. rewrite Hz. lra.
Qed.

(** ** Prior draws of the hyperplane and leaf-dynamics samplers *)

(** With [draw_prior] set, both samplers hand their prior arguments
    straight to the generator and ignore the data. *)
Lemma hyper_planes_draw_prior (la : LinAlg) (St : Type) (rng : Rng St)
    (w : vec) (x : matrix) (z : list Z) (prior_mu : vec)
    (prior_precision : matrix) (st : St) :
  hyper_planes la rng w x z prior_mu prior_precision true st
  = multivariate_normal rng prior_mu prior_precision st.
Proof. reflexivity. Qed.

Lemma leaf_dynamics_draw_prior (St : Type) (utils : Utils St) (Y X : matrix)
    (nu : R) (Lambda M V : matrix) (st : St) :
  leaf_dynamics utils Y X nu Lambda M V true st
  = sample_mniw utils nu Lambda M V st.
Proof. reflexivity. Qed.

(** C1: [leaf_dynamics] with [draw_prior] draws from the MNIW prior
    [(nu, Lambda, M, V)] whatever the data, but [hyper_planes] with
    [draw_prior] passes [prior_precision] to the generator as the
    covariance.  With prior precision [4 I], mean 0 and the standard
    normal variates 1, 1, it returns [(2, 2)], a draw of covariance
    [4 I]; the prior, of covariance [I / 4], gives [(1/2, 1/2)] on the
    same variates, and so does the data branch of [hyper_planes] when no
    observation is assigned. *)
Theorem C1_hyper_planes_prior_draw_takes_precision_as_covariance :
  (forall (St : Type) (utils : Utils St) Y X nu Lambda M V st,
      leaf_dynamics utils Y X nu Lambda M V true st
      = sample_mniw utils nu Lambda M V st)
  /\ (forall w x z,
        hyper_planes exact_la stream_rng w x z mu0 precision4 true noise11
        = Ok ([2; 2], no_noise))
  /\ inv exact_la precision4 = Ok covariance4
  /\ multivariate_normal stream_rng mu0 covariance4 noise11
     = Ok ([/ 2; / 2], no_noise)
  /\ hyper_planes exact_la stream_rng [] [[]; []] [] mu0 precision4 false noise11
     = Ok ([/ 2; / 2], no_noise).
Proof.
  split; [intros; apply leaf_dynamics_draw_prior|].
  split; [|split; [|split]].
  - intros w x z. rewrite hyper_planes_draw_prior. simpl.
    unfold precision4. rewrite exact_cholesky_scalar2 by lra. simpl.
    rewrite sqrt_4. unfold vadd, dot, mu0; simpl.
    repeat (f_equal; try lra).
  - exact exact_inv_precision4.
  - simpl. unfold covariance4. rewrite exact_cholesky_scalar2 by lra. simpl.
    rewrite sqrt_quarter. unfold vadd, dot, mu0; simpl.
    repeat (f_equal; try lra).
  - unfold hyper_planes. simpl.
    replace (mat_add (gram [[]; []]) precision4) with precision4.
    2:{ unfold gram, mat_add, vadd, precision4, dot; simpl.
        repeat (f_equal; try lra). }
    rewrite exact_inv_precision4. simpl.
    unfold covariance4. rewrite exact_cholesky_scalar2 by lra. simpl.
    rewrite sqrt_quarter. unfold vadd, dot, mu0, row_sums; simpl.
    repeat (f_equal; try lra).
Qed.

(** ** The initial state and the emission samplers *)

Lemma Forall2_get {A B : Type} (P : A -> B -> Prop) (l : list A) (l' : list B)
    (i : nat) :
  Forall2 P l l' ->
  match get l i, get l' i with
  | Ok a, Ok b => P a b
  | Raise e, Raise e' => e = e'
  | _, _ => False
  end.
Proof.
  intros H; revert i; induction H as [|a b l l' Hab H IH]; intros [|i];
    unfold get; simpl; auto.
  apply IH.
Qed.

Lemma same_after_initial_drop (A B : matrix) :
  same_after_initial A B -> drop_first_col A = drop_first_col B.
Proof.
  unfold same_after_initial, drop_first_col.
  induction 1 as [|r r' A B [_ Hr] _ IH]; [reflexivity|].
  rewrite !map_cons. now rewrite Hr, IH.
Qed.

Lemma same_after_initial_drop_all (states states' : list matrix) :
  Forall2 same_after_initial states states' ->
  map drop_first_col states = map drop_first_col states'.
Proof.
  induction 1 as [|A B l l' HAB _ IH]; simpl; [reflexivity|].
  now rewrite (same_after_initial_drop A B HAB), IH.
Qed.

(** C10: the emission samplers and the emission Polya-Gamma draw read the
    latent trajectories only through [states[idx][:, 1:]]: two lists of
    trajectories that differ at most in the initial state (time index 0)
    of each trajectory give the same result, for the same observations,
    masks, parameters and generator state. *)
Theorem C10_initial_state_excluded_from_emission :
  forall (la : LinAlg) (St : Type) (rng : Rng St) (utils : Utils St)
         (states states' : list matrix),
    Forall2 same_after_initial states states' ->
    (forall obsv mask nu Lambda M V normalize st,
        emission_parameters utils obsv states mask nu Lambda M V normalize st
        = emission_parameters utils obsv states' mask nu Lambda M V normalize st)
    /\ (forall spikes Omega mask mu Sigma normalize N st,
          emission_parameters_spike_train la rng spikes states Omega mask mu
            Sigma normalize N st
          = emission_parameters_spike_train la rng spikes states' Omega mask mu
              Sigma normalize N st)
    /\ (forall C Omega D_out nthreads N st,
          pg_spike_train rng states C Omega D_out nthreads N st
          = pg_spike_train rng states' C Omega D_out nthreads N st).
Proof.
  intros la St rng utils states states' H.
  pose proof (same_after_initial_drop_all _ _ H) as Hd.
  split; [|split].
  - intros. unfold emission_parameters. now rewrite Hd.
  - intros. unfold emission_parameters_spike_train. now rewrite Hd.
  - intros. unfold pg_spike_train.
    rewrite <- (Forall2_length H).
    apply for_each_ext. intros idx [Om s] _.
    pose proof (Forall2_get _ _ _ idx H) as Hg.
    destruct (get states idx) as [Xi|e], (get states' idx) as [Xi'|e'];
      simpl; try contradiction; [|now subst].
    rewrite (same_after_initial_drop _ _ Hg).
    pose proof (Forall2_get _ _ _ 0%nat Hg) as H0.
    destruct (get Xi 0) as [r|e], (get Xi' 0) as [r'|e'];
      try contradiction; [|subst; reflexivity].
    destruct H0 as [_ H0]. simpl in H0 |- *. now rewrite H0.
Qed.

Lemma C10_initial_state_excluded_witness :
  Forall2 same_after_initial states_a states_b
  /\ forall C Omega D_out nthreads N st,
       pg_spike_train stream_rng states_a C Omega D_out nthreads N st
       = pg_spike_train stream_rng states_b C Omega D_out nthreads N st.
Proof.
  assert (H : Forall2 same_after_initial states_a states_b).
  { repeat constructor. }
  split; [exact H|].
  apply (C10_initial_state_excluded_from_emission
           exact_la tape stream_rng demo_utils states_a states_b H).
Defined.

(** ** Sums *)


Lemma rsum_map_mult (c : R) (v : vec) :
  rsum (map (Rmult c) v) = c * rsum v.
Proof.
  induction v as [|a v IH]; simpl; [lra|]. rewrite IH. lra.
Qed.



(** ** Normalisation of the leaf probabilities *)




(** ** The transition term of the leaf log-probabilities *)

(** A loop over [range(K)] whose iteration [k] rewrites element [k] of a
    list from its current value. *)
Lemma for_each_update_rows {A : Type} (F : nat -> A -> A)
    (body : nat -> list A -> result (list A)) (d : A) (K : nat) (s : list A) :
  (K <= length s)%nat ->
  (forall k s', (k < K)%nat -> length s' = length s ->
                body k s' = Ok (upd s' k (F k (nth k s' d)))) ->
  exists s',
    for_each (seq 0 K) body s = Ok s'
    /\ length s' = length s
    /\ (forall k, (k < K)%nat -> nth k s' d = F k (nth k s d))
    /\ (forall k, (K <= k)%nat -> nth k s' d = nth k s d).
Proof.
  induction K as [|K IH]; intros HK Hbody.
  - exists s. simpl. repeat split; auto. intros k Hk; lia.
  - destruct IH as (s1 & Hrun & Hlen & Hdone & Hrest); [lia | |].
    { intros k s' Hk Hs'. apply Hbody; auto. }
    exists (upd s1 K (F K (nth K s1 d))).
    rewrite seq_S, for_each_app, Hrun. cbn [bind for_each Nat.add].
    rewrite (Hbody K s1) by (auto; lia). cbn [bind].
    split; [reflexivity|]. split; [now rewrite length_upd|]. split.
    + intros k Hk. destruct (Nat.eq_dec k K) as [->|Hne].
      * rewrite nth_upd_same by lia. now rewrite Hrest by lia.
      * rewrite nth_upd_other by auto. apply Hdone. lia.
    + intros k Hk. rewrite nth_upd_other by lia. apply Hrest. lia.
Qed.

Lemma length_removelast_R (l : list R) :
  length (removelast l) = (length l - 1)%nat.
Proof.
  destruct l as [|a l]; [reflexivity|].
  rewrite (app_removelast_last a (l := a :: l)) at 2 by discriminate.
  rewrite length_app. simpl. lia.
Qed.

Lemma nth_removelast (l : list R) (t : nat) :
  (t < length l - 1)%nat -> nth t (removelast l) 0 = nth t l 0.
Proof.
  intros H. destruct l as [|a l]; [simpl in H; lia|].
  rewrite (app_removelast_last a (l := a :: l)) at 2 by discriminate.
  rewrite app_nth1; [reflexivity|]. rewrite length_removelast_R. exact H.
Qed.

Lemma iadd_but_last_spec (T : nat) (row v : vec) :
  (1 <= T)%nat -> length row = T -> length v = (T - 1)%nat ->
  length (iadd_but_last row v) = T
  /\ nth (T - 1) (iadd_but_last row v) 0 = nth (T - 1) row 0
  /\ forall t, (t < T - 1)%nat ->
       nth t (iadd_but_last row v) 0 = nth t row 0 + nth t v 0.
Proof.
  intros HT Hrow Hv. unfold iadd_but_last.
  assert (Hz : length (zip_with Rplus (removelast row) v) = (T - 1)%nat).
  { rewrite length_zip_with, length_removelast_R. lia. }
  split; [|split].
  - rewrite length_app, Hz, length_skipn. lia.
  - rewrite app_nth2 by lia. rewrite Hz, Nat.sub_diag, Hrow.
    rewrite nth_skipn. f_equal. lia.
  - intros t Ht. rewrite app_nth1 by lia.
    rewrite (nth_zip_with Rplus _ _ t 0 0 0)
      by (rewrite ?length_removelast_R; lia).
    rewrite nth_removelast by lia. reflexivity.
Qed.

(** C5: for a trajectory of [T >= 1] time steps whose tree
    log-probabilities form a [K x T] array, [log_p[k, t]] after lines
    270-276 is the tree term plus the transition log-likelihood of leaf
    [k] for [t < T - 1], and the tree term alone at the final time step
    [T - 1]. *)
Theorem C5_transition_term_skips_final_step :
  forall (St : Type) (utils : Utils St) (leaf_path : pathmat) (K T : nat)
         (Xi Ui : matrix) (A Qinv : list matrix) (Qlogdet : vec)
         (Rs : list matrix) (depth D_input : nat) (tree : matrix),
    compute_leaf_log_prob_vectorized utils Rs Xi K depth leaf_path = Ok tree ->
    shape K T tree -> (1 <= T)%nat ->
    (K <= length A)%nat -> (K <= length Qinv)%nat ->
    (K <= length Qlogdet)%nat ->
    (forall k, (k < K)%nat ->
       length (transition_log_lik utils Xi Ui A Qinv Qlogdet D_input k)
       = (T - 1)%nat) ->
    exists log_p,
      leaf_log_prob utils leaf_path K Xi (Ok Ui) A Qinv Qlogdet Rs depth D_input
      = Ok log_p
      /\ shape K T log_p
      /\ forall k, (k < K)%nat ->
           entry log_p k (T - 1) = entry tree k (T - 1)
           /\ forall t, (t < T - 1)%nat ->
                entry log_p k t
                = entry tree k t
                  + nth t (transition_log_lik utils Xi Ui A Qinv Qlogdet
                             D_input k) 0.
Proof.
  intros St utils leaf_path K T Xi Ui A Qinv Qlogdet Rs depth D_input tree
    Htree [Hlen Hrows] HT HA HQi HQl Hlm.
  unfold leaf_log_prob. rewrite Htree. cbn [bind]. unfold range.
  set (F := fun k row =>
              iadd_but_last row
                (transition_log_lik utils Xi Ui A Qinv Qlogdet D_input k)).
  destruct (for_each_update_rows F
              (fun k log_p =>
                 Ak <- get A k ;;
                 Ui0 <- Ok Ui ;;
                 row <- get log_p k ;;
                 Qinv_k <- get Qinv k ;;
                 Qlogdet_k <- get Qlogdet k ;;
                 set_item log_p k
                   (iadd_but_last row
                      (log_mvn utils (drop_first_col Xi)
                         (mat_add
                            (mat_mul (cols_to_neg D_input Ak) (drop_last_col Xi))
                            (mat_mul (cols_from_neg D_input Ak)
                               (drop_last_col Ui0)))
                         Qinv_k Qlogdet_k)))
              [] K tree) as (log_p & Hrun & Hl & Hdone & _).
  { lia. }
  { intros k s' Hk Hs'.
    rewrite (get_lt A k []) by lia. cbn [bind].
    rewrite (get_lt s' k []) by lia. cbn [bind].
    rewrite (get_lt Qinv k []) by lia. cbn [bind].
    rewrite (get_lt Qlogdet k 0) by lia. cbn [bind].
    rewrite set_item_lt by lia. reflexivity. }
  exists log_p. split; [exact Hrun|].
  assert (Hrow : forall k, (k < K)%nat -> length (nth k tree []) = T).
  { intros k Hk. rewrite Forall_forall in Hrows. apply Hrows, nth_In. lia. }
  split.
  - split; [lia|]. apply Forall_forall. intros r Hr.
    destruct (In_nth _ _ [] Hr) as (k & Hk & <-).
    rewrite Hdone by lia. unfold F.
    apply (iadd_but_last_spec T); auto; [apply Hrow | apply Hlm]; lia.
  - intros k Hk. unfold entry. rewrite (Hdone k Hk). unfold F.
    destruct (iadd_but_last_spec T (nth k tree [])
                (transition_log_lik utils Xi Ui A Qinv Qlogdet D_input k))
      as (_ & Hlast & Hinit); auto.
Qed.

Lemma C5_transition_term_skips_final_step_witness :
  exists log_p,
    leaf_log_prob demo_utils leaf_path2 2 [[1; 2]] (Ok [[0; 0]]) A2
      [[[1]]; [[1]]] [0; 0] [] 2 1 = Ok log_p
    /\ shape 2 2 log_p
    /\ forall k, (k < 2)%nat ->
         entry log_p k (2 - 1) = entry (zeros 2 2) k (2 - 1)
         /\ forall t, (t < 2 - 1)%nat ->
              entry log_p k t
              = entry (zeros 2 2) k t
                + nth t (transition_log_lik demo_utils [[1; 2]] [[0; 0]] A2
                           [[[1]]; [[1]]] [0; 0] 1 k) 0.
Proof.
  apply (C5_transition_term_skips_final_step tape demo_utils leaf_path2 2 2
           [[1; 2]] [[0; 0]] A2 [[[1]]; [[1]]] [0; 0] [] 2 1 (zeros 2 2)).
  - reflexivity.
  - split; [reflexivity | repeat constructor].
  - lia.
  - simpl; lia.
  - simpl; lia.
  - simpl; lia.
  - intros k Hk. reflexivity.
Defined.

(** ** Path and leaf after the discrete sampler *)

Lemma get_upd_same {A : Type} (l : list A) (i : nat) (a : A) :
  (i < length l)%nat -> get (upd l i a) i = Ok a.
Proof.
  intros H. rewrite (get_lt _ _ a) by now rewrite length_upd.
  now rewrite nth_upd_same.
Qed.

Lemma get_upd_other {A : Type} (l : list A) (i j : nat) (a : A) :
  i <> j -> get (upd l i a) j = get l j.
Proof.
  revert i j; induction l as [|x l IH]; intros [|i] [|j] H; simpl;
    try congruence; auto.
  unfold get in *. simpl. apply IH. congruence.
Qed.

(** A loop whose iteration [x] establishes [Q x] and keeps every other
    [Q y], under an invariant [J]. *)
Lemma for_each_establish {A S : Type} (J : S -> Prop) (Q : A -> S -> Prop)
    (xs : list A) (body : A -> S -> result S) (s s' : S) :
  NoDup xs ->
  (forall x a b, In x xs -> J a -> body x a = Ok b ->
                 J b /\ Q x b /\ forall y, y <> x -> Q y a -> Q y b) ->
  J s -> for_each xs body s = Ok s' ->
  J s' /\ (forall x, In x xs -> Q x s')
  /\ (forall y, ~ In y xs -> Q y s -> Q y s').
Proof.
  revert s; induction xs as [|x xs IH]; intros s Hnd Hstep HJ Hrun.
  - simpl in Hrun. inversion Hrun; subst. repeat split; auto.
    intros x [].
  - simpl in Hrun. apply bind_ok in Hrun as (a & Ha & Hrun).
    inversion Hnd as [|? ? Hx Hnd']; subst.
    destruct (Hstep x s a (or_introl eq_refl) HJ Ha) as (HJa & HQx & Hkeep).
    destruct (IH a Hnd') as (HJ' & Hin & Hout); auto.
    { intros y u v Hy. apply Hstep. now right. }
    split; [exact HJ'|]. split.
    + intros y [<-|Hy]; [apply Hout; auto | apply Hin; auto].
    + intros y Hy HQ. apply Hout; [intros Hc; apply Hy; now right|].
      apply Hkeep; auto. intros ->. apply Hy. now left.
Qed.

Lemma width_set_col {A : Type} (M : list (list A)) (v : list A) (t : nat) :
  length v = length M ->
  width (zip_with (fun r x => upd r t x) M v) = width M.
Proof.
  unfold width. destruct M as [|r M], v as [|x v]; simpl; intros H;
    try discriminate; auto.
  apply length_upd.
Qed.

Lemma column_set_col_same {A : Type} (M : list (list A)) (v : list A)
    (t n : nat) (d : A) :
  length v = length M -> Forall (fun r => length r = n) M -> (t < n)%nat ->
  map (fun r => nth t r d) (zip_with (fun r x => upd r t x) M v) = v.
Proof.
  revert v; induction M as [|r M IH]; intros [|x v] Hl Hrows Ht; simpl in *;
    try discriminate; auto.
  inversion Hrows; subst. f_equal.
  - apply nth_upd_same. lia.
  - apply IH; auto.
Qed.

Lemma column_set_col_other {A : Type} (M : list (list A)) (v : list A)
    (t t' : nat) (d : A) :
  length v = length M -> t <> t' ->
  map (fun r => nth t' r d) (zip_with (fun r x => upd r t x) M v)
  = map (fun r => nth t' r d) M.
Proof.
  revert v; induction M as [|r M IH]; intros [|x v] Hl Hne; simpl in *;
    try discriminate; auto.
  f_equal; [now apply nth_upd_other | apply IH; auto].
Qed.

Lemma rectangular_set_col {A : Type} (M : list (list A)) (v : list A) (t : nat) :
  length v = length M -> rectangular M ->
  rectangular (zip_with (fun r x => upd r t x) M v).
Proof.
  intros Hl (m & n & Hm & Hrows). exists m, n. split.
  - rewrite length_zip_with. lia.
  - clear Hm. revert v Hl; induction M as [|r M IH]; intros [|x v] Hl;
      simpl in *; try discriminate; constructor.
    + inversion Hrows; subst. apply length_upd.
    + inversion Hrows; subst. apply IH; auto.
Qed.

Lemma set_col_of_ok {A : Type} (M M' : list (list A)) (t : nat) (v : list A) :
  set_col_of M t v = Ok M' ->
  (t < width M)%nat /\ length v = length M
  /\ M' = zip_with (fun r x => upd r t x) M v.
Proof.
  unfold set_col_of.
  destruct (t <? width M)%nat eqn:E1; [|discriminate].
  destruct (length v =? length M)%nat eqn:E2; [|discriminate].
  intros H; inversion H.
  apply Nat.ltb_lt in E1. apply Nat.eqb_eq in E2. auto.
Qed.

Lemma rectangular_width {A : Type} (M : list (list A)) :
  rectangular M -> Forall (fun r => length r = width M) M.
Proof.
  intros (m & n & _ & Hrows). unfold width.
  destruct M as [|r M]; [constructor|]. simpl.
  inversion Hrows; subst. exact Hrows.
Qed.

Lemma Forall_upd {A : Type} (P : A -> Prop) (l : list A) (i : nat) (a : A) :
  Forall P l -> P a -> Forall P (upd l i a).
Proof.
  revert i; induction l as [|x l IH]; intros [|i] Hl Ha; simpl; auto;
    inversion Hl; subst; constructor; auto.
Qed.

Lemma col_of_set_col_other {A : Type} (d : A) (M : list (list A)) (v : list A)
    (t t' : nat) :
  length v = length M -> t <> t' ->
  col_of d (zip_with (fun r x => upd r t x) M v) t' = col_of d M t'.
Proof.
  intros Hl Hne. unfold col_of.
  rewrite width_set_col by exact Hl.
  now rewrite column_set_col_other.
Qed.

(** One draw (lines 281-283) makes path and leaf agree at its own time
    step and leaves every other time step and trajectory as it was. *)
Lemma sample_leaf_at_step (St : Type) (rng : Rng St) (leaf_path : pathmat)
    (post_p : matrix) (idx t : nat) (Zs Zs' : list (list Z))
    (paths paths' : list pathmat) (st st' : St) :
  sample_leaf_at rng leaf_path post_p idx t (Zs, paths, st)
  = Ok (Zs', paths', st') ->
  (Forall rectangular paths ->
   Forall rectangular paths' /\ path_matches_leaf leaf_path Zs' paths' idx t)
  /\ forall idx' t', idx' <> idx \/ t' <> t ->
       path_matches_leaf leaf_path Zs paths idx' t' ->
       path_matches_leaf leaf_path Zs' paths' idx' t'.
Proof.
  intros H. unfold sample_leaf_at in H.
  apply bind_ok in H as (p & Hp & H).
  apply bind_ok in H as ([choice st1] & Hdraw & H).
  apply bind_ok in H as (k & Hk & H).
  apply bind_ok in H as (lp & Hlp & H).
  apply bind_ok in H as (path_i & Hpi & H).
  apply bind_ok in H as (path_i' & Hset & H).
  apply bind_ok in H as (paths1 & Hps & H).
  apply bind_ok in H as (k' & Hk' & H).
  apply bind_ok in H as (Z_i & HZi & H).
  apply bind_ok in H as (Z_i' & HZset & H).
  apply bind_ok in H as (Zs1 & HZs & H).
  inversion H; subst Zs1 paths1 st1; clear H.
  rewrite Hk in Hk'. inversion Hk'; subst k'; clear Hk'.
  apply set_col_of_ok in Hset as (Htw & Hlen & ->).
  apply set_item_ok in Hps as (Hidx & ->).
  apply set_item_ok in HZset as (HtZ & ->).
  apply set_item_ok in HZs as (HidxZ & ->).
  split; [intros Hrect; split|].
  - apply Forall_upd; [exact Hrect|]. apply rectangular_set_col; auto.
    apply get_ok in Hpi as (Hi & Hn). rewrite Forall_forall in Hrect.
    apply Hrect. rewrite <- (Hn []). now apply nth_In.
  - assert (Hri : rectangular path_i).
    { apply get_ok in Hpi as (Hi & Hn). rewrite Forall_forall in Hrect.
      apply Hrect. rewrite <- (Hn []). now apply nth_In. }
    exists k, lp. split; [|split].
    + unfold get2. rewrite get_upd_same by exact HidxZ. cbn [bind].
      now apply get_upd_same.
    + rewrite get_upd_same by exact Hidx. cbn [bind]. unfold col_of.
      rewrite width_set_col by exact Hlen.
      apply Nat.ltb_lt in Htw. rewrite Htw. f_equal.
      apply (column_set_col_same _ _ _ (width path_i)); auto.
      * now apply rectangular_width.
      * now apply Nat.ltb_lt.
    + exact Hlp.
  - intros idx' t' Hne (k0 & c0 & HZ0 & HP0 & HL0).
    exists k0, c0. split; [|split]; [| |exact HL0].
    + unfold get2 in *. destruct (Nat.eq_dec idx' idx) as [->|Hi].
      * rewrite get_upd_same by exact HidxZ. cbn [bind].
        rewrite HZi in HZ0. cbn [bind] in HZ0.
        rewrite get_upd_other by (destruct Hne; congruence). exact HZ0.
      * now rewrite get_upd_other by congruence.
    + destruct (Nat.eq_dec idx' idx) as [->|Hi].
      * rewrite get_upd_same by exact Hidx. cbn [bind].
        rewrite Hpi in HP0. cbn [bind] in HP0.
        rewrite col_of_set_col_other; auto. destruct Hne; congruence.
      * now rewrite get_upd_other by congruence.
Qed.

Lemma path_eqb_eq (c c' : list (option Z)) : path_eqb c c' = true <-> c = c'.
Proof.
  revert c'; induction c as [|a c IH]; intros [|b c']; simpl; split;
    try congruence; try discriminate.
  - intros H. apply andb_true_iff in H as [Hab Hc].
    apply IH in Hc. subst c'. f_equal.
    destruct a as [x|], b as [y|]; simpl in Hab; try discriminate; auto.
    apply Z.eqb_eq in Hab. now subst.
  - intros H. inversion H; subst. apply andb_true_iff. split.
    + destruct b as [y|]; simpl; auto. apply Z.eqb_refl.
    + now apply IH.
Qed.

Lemma col_of_lt {A : Type} (d : A) (M : list (list A)) (j : nat)
    (c : list A) :
  col_of d M j = Ok c -> (j < width M)%nat.
Proof.
  unfold col_of. destruct (j <? width M)%nat eqn:E; [|discriminate].
  intros _. now apply Nat.ltb_lt.
Qed.

Lemma decode_from_finds (leaf_path : pathmat) (c : list (option Z))
    (n k0 k : nat) :
  (forall k1 k2 c', col_of None leaf_path k1 = Ok c' ->
                    col_of None leaf_path k2 = Ok c' -> k1 = k2) ->
  (k0 <= k < k0 + n)%nat -> col_of None leaf_path k = Ok c ->
  decode_from leaf_path c k0 n = Some k.
Proof.
  intros Hinj. revert k0; induction n as [|n IH]; intros k0 Hk Hc; [lia|].
  simpl. destruct (Nat.eq_dec k0 k) as [->|Hne].
  - rewrite Hc. now rewrite (proj2 (path_eqb_eq c c) eq_refl).
  - assert (Hlt : (k0 < width leaf_path)%nat).
    { apply col_of_lt in Hc. lia. }
    unfold col_of at 1. apply Nat.ltb_lt in Hlt. rewrite Hlt.
    destruct (path_eqb c _) eqn:E.
    + apply path_eqb_eq in E. exfalso. apply Hne.
      apply (Hinj k0 k c); auto.
      unfold col_of. now rewrite Hlt, E.
    + apply IH; auto. lia.
Qed.

(** C3: when [discrete_latent_recurrent_only] returns, then for every
    trajectory [idx] and every time step [t] of it, [Z[idx][t]] is a leaf
    number [k] and [paths[idx][:, t]] is column [k] of [leaf_path]; when
    the columns of [leaf_path] are pairwise distinct, decoding that path
    column gives back [k].  The path arrays passed in are rectangular. *)
Theorem C3_path_and_leaf_agree :
  forall (la : LinAlg) (St : Type) (rng : Rng St) (utils : Utils St)
         (Zs : list (list Z)) (paths : list pathmat) (leaf_path : pathmat)
         (K : nat) (X U A Q Rs : list matrix) (depth D_input : nat) (st : St)
         (Zs' : list (list Z)) (paths' : list pathmat) (st' : St),
    Forall rectangular paths ->
    discrete_latent_recurrent_only la rng utils Zs paths leaf_path K X U A Q
      Rs depth D_input st = Ok (Zs', paths', st') ->
    forall idx t,
      (idx < length X)%nat -> (t < ncols (nth idx X []))%nat ->
      exists (k : nat) (c : list (option Z)),
        get2 Zs' idx t = Ok (Z.of_nat k)
        /\ bind (get paths' idx) (fun P => col_of None P t) = Ok c
        /\ col_of None leaf_path k = Ok c
        /\ ((forall k1 k2 c', col_of None leaf_path k1 = Ok c' ->
                              col_of None leaf_path k2 = Ok c' -> k1 = k2) ->
            decode_path leaf_path c = Some k).
Proof.
  intros la St rng utils Zs paths leaf_path K X U A Q Rs depth D_input st
    Zs' paths' st' Hrect Hrun idx t Hidx Ht.
  unfold discrete_latent_recurrent_only in Hrun.
  apply bind_ok in Hrun as ([Qinv Qlogdet] & _ & Hrun).
  set (J := fun s : list (list Z) * list pathmat * St =>
              Forall rectangular (snd (fst s))).
  set (Qt := fun (i t' : nat) (s : list (list Z) * list pathmat * St) =>
               path_matches_leaf leaf_path (fst (fst s)) (snd (fst s)) i t').
  set (Qm := fun (i : nat) (s : list (list Z) * list pathmat * St) =>
               forall t', (t' < ncols (nth i X []))%nat -> Qt i t' s).
  assert (Hall : Qm idx (Zs', paths', st')).
  { match type of Hrun with
    | for_each ?xs ?body ?s = Ok ?s' =>
        destruct (for_each_establish J Qm xs body s s') as (_ & Hin & _)
    end; [apply seq_NoDup | | exact Hrect | exact Hrun | ].
    2:{ apply Hin. apply in_seq. lia. }
    clear Hrun. intros i a b _ HJa Hbody.
    apply bind_ok in Hbody as (Xi & HXi & Hbody).
    apply bind_ok in Hbody as (log_p & _ & Hbody).
    apply bind_ok in Hbody as (post_p & _ & Hbody).
    apply bind_ok in Hbody as (row0 & Hrow0 & Hbody).
    assert (Hcols : ncols (nth i X []) = length row0).
    { apply get_ok in HXi as (_ & HXi). rewrite (HXi []).
      apply get_ok in Hrow0 as (_ & Hrow0). specialize (Hrow0 []).
      unfold ncols, width. destruct Xi; simpl in *; now subst. }
    destruct (for_each_establish J (Qt i) (range (length row0))
                (sample_leaf_at rng leaf_path post_p i) a b (seq_NoDup _ _))
      as (HJb & Hin & _); [ | exact HJa | exact Hbody | ].
    { intros t0 [[Z0 P0] s0] [[Z1 P1] s1] _ HJ0 Hstep.
      destruct (sample_leaf_at_step St rng leaf_path post_p i t0 Z0 Z1 P0 P1
                  s0 s1 Hstep) as (H1 & H2).
      destruct (H1 HJ0) as (H3 & H4).
      split; [exact H3|]. split; [exact H4|].
      intros y Hy. apply H2. now right. }
    split; [exact HJb|]. split.
    - intros t' Ht'. apply Hin. apply in_seq. lia.
    - intros y Hy HQy t' Ht'.
      apply (for_each_invariant (Qt y t') (range (length row0))
               (sample_leaf_at rng leaf_path post_p i) a b);
        [ | apply HQy, Ht' | exact Hbody].
      intros t0 [[Z0 P0] s0] [[Z1 P1] s1] _ Hm Hstep.
      destruct (sample_leaf_at_step St rng leaf_path post_p i t0 Z0 Z1 P0 P1
                  s0 s1 Hstep) as (_ & H2).
      apply H2; auto. }
  destruct (Hall t Ht) as (k & c & HZ & HP & HL).
  exists k, c. repeat split; auto.
  intros Hinj. unfold decode_path.
  apply decode_from_finds; auto.
  apply col_of_lt in HL. lia.
Qed.

Lemma C3_path_and_leaf_agree_witness :
  exists (k : nat) (c : list (option Z)),
    get2 [[1; 0]%Z] 0 0 = Ok (Z.of_nat k)
    /\ bind (get [[[Some 1%Z; Some 1%Z]; [Some 2%Z; Some 1%Z]]] 0)
            (fun P => col_of None P 0) = Ok c
    /\ col_of None leaf_path2 k = Ok c
    /\ ((forall k1 k2 c', col_of None leaf_path2 k1 = Ok c' ->
                          col_of None leaf_path2 k2 = Ok c' -> k1 = k2) ->
        decode_path leaf_path2 c = Some k).
Proof.
  apply (C3_path_and_leaf_agree exact_la tape stream_rng demo_utils
           [[0; 0]%Z] no_paths leaf_path2 2 X1 U1 A2 Q2 [] 2 1 picks10
           [[1; 0]%Z] [[[Some 1%Z; Some 1%Z]; [Some 2%Z; Some 1%Z]]] no_noise).
  - repeat constructor. exists 2%nat, 2%nat. split; [reflexivity|].
    repeat constructor.
  - unfold discrete_latent_recurrent_only.
    cbn -[exact_inv exact_det ln exp].
    rewrite exact_inv_1. cbn -[exact_inv exact_det ln exp].
    reflexivity.
  - unfold X1; simpl; lia.
  - unfold X1, ncols, width; simpl; lia.
Defined.

(** ** Tree levels below the leaf *)

Lemma for_each_skip {A S : Type} (xs : list A) (body : A -> S -> result S)
    (s : S) :
  (forall x a, In x xs -> body x a = Ok a) -> for_each xs body s = Ok s.
Proof.
  induction xs as [|x xs IH]; intros H; simpl; [reflexivity|].
  rewrite (H x s (or_introl eq_refl)). simpl.
  apply IH. intros y a Hy. apply H. now right.
Qed.

(** A level whose next entry of the path is NaN leaves [J] and [temp_mu]
    as they are. *)
Lemma tree_level_below_leaf (ps : pathmat) (omega : result matrix)
    (Rs : list matrix) (t d : nat) (loc : option Z)
    (acc : option matrix * option vec) :
  get2 ps d t = Ok loc -> get2 ps (d + 1) t = Ok None ->
  tree_level (Ok ps) omega Rs t d acc = Ok acc.
Proof.
  intros Hloc Hfin. unfold tree_level. destruct acc as [J temp_mu].
  cbn [bind]. rewrite Hloc. cbn [bind]. rewrite Hfin. reflexivity.
Qed.

(** A NaN at the current level followed by a node number is a malformed
    path: [int(loc - 1)] raises. *)
Lemma tree_level_nan_loc (ps : pathmat) (omega : result matrix)
    (Rs : list matrix) (t d : nat) (fin : Z) (Rd : matrix)
    (acc : option matrix * option vec) :
  get2 ps d t = Ok None -> get2 ps (d + 1) t = Ok (Some fin) ->
  get Rs d = Ok Rd ->
  tree_level (Ok ps) omega Rs t d acc = Raise ValueError.
Proof.
  intros Hloc Hfin HR. unfold tree_level. destruct acc as [J temp_mu].
  cbn [bind]. rewrite Hloc. cbn [bind]. rewrite Hfin. cbn [bind].
  rewrite HR. reflexivity.
Qed.

Lemma tree_level_agree (ps : pathmat) (omega omega' : result matrix)
    (Rs Rs' : list matrix) (t d : nat) (acc : option matrix * option vec) :
  get Rs' d = get Rs d ->
  bind omega' (fun om => get2 om d t) = bind omega (fun om => get2 om d t) ->
  tree_level (Ok ps) omega' Rs' t d acc = tree_level (Ok ps) omega Rs t d acc.
Proof.
  intros HR Hom. unfold tree_level. destruct acc as [J temp_mu].
  cbn [bind]. destruct (get2 ps d t) as [loc|e]; [|reflexivity]. cbn [bind].
  destruct (get2 ps (d + 1) t) as [[fin|]|e]; try reflexivity. cbn [bind].
  rewrite HR. destruct (get Rs d) as [Rd|e]; [|reflexivity]. cbn [bind].
  destruct loc as [loc|]; [|reflexivity].
  destruct (col_at 0 Rd (loc - 1)) as [Rcol|e]; [|reflexivity]. cbn [bind].
  destruct omega as [om|e], omega' as [om'|e']; cbn [bind] in *.
  - now rewrite Hom.
  - destruct (get2 om d t); [discriminate|]. cbn [bind]. congruence.
  - destruct (get2 om' d t); [discriminate|]. cbn [bind]. congruence.
  - congruence.
Qed.

Lemma tree_potentials_truncate (ps : pathmat) (omega : result matrix)
    (Rs : list matrix) (depth t m : nat) :
  (1 <= m <= depth)%nat ->
  (forall d, (d < m)%nat -> exists n, get2 ps d t = Ok (Some n)) ->
  (forall d, (m <= d < depth)%nat -> get2 ps d t = Ok None) ->
  tree_potentials (Ok ps) omega Rs depth t
  = tree_potentials (Ok ps) omega Rs m t.
Proof.
  intros Hm Hsome Hnan. unfold tree_potentials, range.
  replace (depth - 1)%nat with ((m - 1) + (depth - m))%nat by lia.
  rewrite seq_app, for_each_app.
  destruct (for_each (seq 0 (m - 1)) _ _) as [acc|e]; [|reflexivity].
  cbn [bind]. apply for_each_skip. intros d a Hd. apply in_seq in Hd.
  destruct (Nat.eq_dec d (m - 1)) as [->|Hne].
  - destruct (Hsome (m - 1)%nat) as (n & Hn); [lia|].
    apply (tree_level_below_leaf _ _ _ _ _ (Some n)); auto.
    apply Hnan. lia.
  - apply (tree_level_below_leaf _ _ _ _ _ None); apply Hnan; lia.
Qed.

(** C9: at a time step whose path holds node numbers at levels
    [0 .. m - 1] and NaN from level [m] on, the forward pass accumulates
    [J] and [temp_mu] over the internal nodes of levels [0 .. m - 2]
    only: the result is that of a tree of depth [m]; every level from
    [m - 1] on returns the accumulators unchanged; and neither the
    accumulators nor [alpha], [Lambda] depend on what [omega] and the
    hyperplanes hold at those levels.  A NaN is read by the [isnan] test
    alone: where a NaN precedes a node number, the level raises
    [ValueError] instead of computing with it.  ([pg_kalman] and
    [pg_kalman_batch] run the same loop, the latter on [paths[idx]].) *)
Theorem C9_levels_below_leaf_contribute_nothing :
  forall (la : LinAlg) (ps : pathmat) (omega : result matrix)
         (Rs : list matrix) (depth t m : nat),
    (1 <= m <= depth)%nat ->
    (forall d, (d < m)%nat -> exists n, get2 ps d t = Ok (Some n)) ->
    (forall d, (m <= d < depth)%nat -> get2 ps d t = Ok None) ->
    tree_potentials (Ok ps) omega Rs depth t
    = tree_potentials (Ok ps) omega Rs m t
    /\ (forall d acc, (m - 1 <= d < depth - 1)%nat ->
          tree_level (Ok ps) omega Rs t d acc = Ok acc)
    /\ (forall omega' Rs',
          (forall d, (d < m - 1)%nat -> get Rs' d = get Rs d) ->
          (forall d, (d < m - 1)%nat ->
             bind omega' (fun om => get2 om d t)
             = bind omega (fun om => get2 om d t)) ->
          tree_potentials (Ok ps) omega' Rs' depth t
          = tree_potentials (Ok ps) omega Rs depth t
          /\ forall X P,
               tree_prior la X P (Ok ps) omega' Rs' depth t
               = tree_prior la X P (Ok ps) omega Rs depth t)
    /\ (forall ps' d fin Rd acc,
          get2 ps' d t = Ok None -> get2 ps' (d + 1) t = Ok (Some fin) ->
          get Rs d = Ok Rd ->
          tree_level (Ok ps') omega Rs t d acc = Raise ValueError).
Proof.
  intros la ps omega Rs depth t m Hm Hsome Hnan.
  split; [now apply tree_potentials_truncate|]. split; [|split].
  - intros d acc Hd. destruct (Nat.eq_dec d (m - 1)) as [->|Hne].
    + destruct (Hsome (m - 1)%nat) as (n & Hn); [lia|].
      apply (tree_level_below_leaf _ _ _ _ _ (Some n)); auto.
      apply Hnan. lia.
    + apply (tree_level_below_leaf _ _ _ _ _ None); apply Hnan; lia.
  - intros omega' Rs' HR Hom.
    assert (Heq : tree_potentials (Ok ps) omega' Rs' depth t
                  = tree_potentials (Ok ps) omega Rs depth t).
    { rewrite (tree_potentials_truncate ps omega' Rs' depth t m) by auto.
      rewrite (tree_potentials_truncate ps omega Rs depth t m) by auto.
      unfold tree_potentials, range. apply for_each_ext.
      intros d acc Hd. apply in_seq in Hd.
      apply tree_level_agree; [apply HR | apply Hom]; lia. }
    split; [exact Heq|].
    intros X P. unfold tree_prior. now rewrite Heq.
  - intros ps' d fin Rd acc H1 H2 H3.
    now apply (tree_level_nan_loc ps' omega Rs t d fin Rd).
Qed.

Lemma C9_levels_below_leaf_witness :
  tree_potentials (Ok short_path) (Ok omega3) Rs3 3 0
  = tree_potentials (Ok short_path) (Ok omega3) Rs3 2 0
  /\ forall d acc, (2 - 1 <= d < 3 - 1)%nat ->
       tree_level (Ok short_path) (Ok omega3) Rs3 0 d acc = Ok acc.
Proof.
  destruct (C9_levels_below_leaf_contribute_nothing exact_la short_path
              (Ok omega3) Rs3 3 0 2) as (H1 & H2 & _).
  - lia.
  - intros d Hd. destruct d as [|[|d]]; [exists 1%Z | exists 2%Z | lia];
      reflexivity.
  - intros d Hd. replace d with 2%nat by lia. reflexivity.
  - split; [exact H1 | exact H2].
Defined.

(** ** Cholesky failures in [pg_kalman] *)

Lemma precompute_Qinvs_prefix (la : LinAlg) (Qs : list matrix) (k : nat)
    (Qinvs : list matrix) :
  (k <= length Qs)%nat -> length Qinvs = length Qs ->
  (forall j, (j < k)%nat ->
     exists L Li, cholesky la (nth j Qs []) = Ok L /\ inv la L = Ok Li) ->
  exists Qinvs',
    for_each (seq 0 k)
      (fun k Qinvs =>
         Qk <- get Qs k ;;
         L <- cholesky la Qk ;;
         temp <- inv la L ;;
         set_item Qinvs k (mat_mul (transpose temp) temp))
      Qinvs = Ok Qinvs'
    /\ length Qinvs' = length Qs.
Proof.
  induction k as [|k IH]; intros Hk Hlen Hok.
  - exists Qinvs. split; [reflexivity | exact Hlen].
  - destruct IH as (Q1 & Hrun & Hl1); [lia | exact Hlen | |].
    { intros j Hj. apply Hok. lia. }
    destruct (Hok k) as (L & Li & HL & HLi); [lia|].
    rewrite seq_S, for_each_app, Hrun. cbn [bind for_each Nat.add].
    rewrite (get_lt Qs k []) by lia. cbn [bind].
    rewrite HL. cbn [bind]. rewrite HLi. cbn [bind].
    rewrite set_item_lt by lia. cbn [bind].
    eexists; split; [reflexivity|]. now rewrite length_upd.
Qed.

(** The first leaf noise covariance whose factorisation fails stops the
    precomputation with that error. *)
Lemma precompute_Qinvs_raise (la : LinAlg) (D_in : nat) (Qs : list matrix)
    (k : nat) (Qk : matrix) (e : exn) :
  nth_error Qs k = Some Qk ->
  (forall j, (j < k)%nat ->
     exists L Li, cholesky la (nth j Qs []) = Ok L /\ inv la L = Ok Li) ->
  cholesky la Qk = Raise e ->
  precompute_Qinvs la D_in Qs = Raise e.
Proof.
  intros Hk Hok Hfail.
  assert (Hlt : (k < length Qs)%nat) by (apply nth_error_Some; congruence).
  unfold precompute_Qinvs, range.
  replace (length Qs) with (k + S (length Qs - k - 1))%nat at 1 by lia.
  rewrite seq_app. cbn [seq Nat.add].
  destruct (precompute_Qinvs_prefix la Qs k
              (repeat (zeros D_in D_in) (length Qs))) as (Q1 & Hrun & _);
    [lia | apply repeat_length | exact Hok |].
  apply (for_each_raise _ _ _ _ _ Q1); [exact Hrun|].
  unfold get. rewrite Hk. cbn [bind]. now rewrite Hfail.
Qed.

(** C8: [pg_kalman] returns the exception of a failed Cholesky
    factorisation, whatever it is, at each of the three places where it
    factors a matrix: (a) the first leaf noise covariance [Qs[:, :, k]]
    that fails, (b) the final filtered covariance, once the forward pass
    has run, (c) the smoothing covariance [Pn] of a backward step, once
    the steps before it have run.  In none of them is the result [Ok]. *)
Theorem C8_cholesky_failure_propagates :
  forall (la : LinAlg) (St : Type) (rng : Rng St) (D_in D_bias : nat)
         (X U : matrix) (P As Qs : list matrix) (C Sy Y : matrix)
         (paths : pathmat) (Zs : list Z) (omega alphas : matrix)
         (Lambdas Rs : list matrix) (depth : nat) (omegay : result matrix)
         (bern : bool) (N : R) (marker : Z) (st : St) (e : exn),
    (forall k Qk,
        nth_error Qs k = Some Qk ->
        (forall j, (j < k)%nat ->
           exists L Li, cholesky la (nth j Qs []) = Ok L /\ inv la L = Ok Li) ->
        cholesky la Qk = Raise e ->
        pg_kalman la rng D_in D_bias X U P As Qs C Sy Y paths Zs omega alphas
          Lambdas Rs depth omegay bern N marker st = Raise e)
    /\ (forall Qinvs s1 x_last row0 P_last,
          precompute_Qinvs la D_in Qs = Ok Qinvs ->
          filter_forward la D_in D_bias (Ok U) As Qs C (Ok Y) (Ok paths)
            (Ok Zs) (Ok omega) Rs depth omegay bern N
            {| kX := X; kP := P; kalphas := alphas; kLambdas := Lambdas;
               kS := Sy |} = Ok s1 ->
          last_col (kX s1) = Ok x_last ->
          get (kX s1) 0 = Ok row0 ->
          get (kP s1) (length row0 - 1) = Ok P_last ->
          cholesky la P_last = Raise e ->
          pg_kalman la rng D_in D_bias X U P As Qs C Sy Y paths Zs omega
            alphas Lambdas Rs depth omegay bern N marker st = Raise e)
    /\ (forall Qinvs s1 s2 t l1 l2 s_t mu_n Pn,
          precompute_Qinvs la D_in Qs = Ok Qinvs ->
          filter_forward la D_in D_bias (Ok U) As Qs C (Ok Y) (Ok paths)
            (Ok Zs) (Ok omega) Rs depth omegay bern N
            {| kX := X; kP := P; kalphas := alphas; kLambdas := Lambdas;
               kS := Sy |} = Ok s1 ->
          let eps := fst (normal rng (nrows (kX s1)) (ncols (kX s1)) st) in
          sample_last la eps s1 = Ok s2 ->
          range_down (ncols (kX s1) - 1) = l1 ++ t :: l2 ->
          for_each l1
            (backward_step la D_in D_bias (Ok U) As Qs Qinvs (Ok Zs) eps) s2
          = Ok s_t ->
          backward_moments la D_in D_bias (Ok U) As Qs Qinvs (Ok Zs) t s_t
          = Ok (mu_n, Pn) ->
          cholesky la Pn = Raise e ->
          pg_kalman la rng D_in D_bias X U P As Qs C Sy Y paths Zs omega
            alphas Lambdas Rs depth omegay bern N marker st = Raise e).
Proof.
  intros. split; [|split].
  - intros k Qk Hk Hok Hfail. unfold pg_kalman.
    now rewrite (precompute_Qinvs_raise la D_in Qs k Qk e).
  - intros Qinvs s1 x_last row0 P_last Hpre Hfwd Hx Hrow HP Hfail.
    unfold pg_kalman. rewrite Hpre. cbn [bind]. rewrite Hfwd. cbn [bind].
    unfold sample_backward.
    destruct (normal rng (nrows (kX s1)) (ncols (kX s1)) st) as [eps st1].
    unfold sample_last. rewrite Hx. cbn [bind]. rewrite Hrow. cbn [bind].
    rewrite HP. cbn [bind]. rewrite Hfail. reflexivity.
  - intros Qinvs s1 s2 t l1 l2 s_t mu_n Pn Hpre Hfwd eps Hlast Hsplit Hrun
      Hmom Hfail.
    unfold pg_kalman. rewrite Hpre. cbn [bind]. rewrite Hfwd. cbn [bind].
    unfold sample_backward. subst eps.
    destruct (normal rng (nrows (kX s1)) (ncols (kX s1)) st) as [eps st1].
    cbn [fst] in *. rewrite Hlast. cbn [bind]. rewrite Hsplit.
    rewrite (for_each_raise l1 l2 t _ s2 s_t e); [reflexivity | exact Hrun |].
    unfold backward_step. rewrite Hmom. cbn [bind]. now rewrite Hfail.
Qed.

(** ** Arrays as tables of their entries *)

Lemma sum_upto_ext (n : nat) (f g : nat -> R) :
  (forall k, (k < n)%nat -> f k = g k) -> sum_upto n f = sum_upto n g.
Proof.
  intros H. unfold sum_upto. f_equal. apply map_seq_ext. intros k Hk.
  apply H. lia.
Qed.

Lemma sum_upto_S (n : nat) (f : nat -> R) :
  sum_upto (S n) f = sum_upto n f + f n.
Proof.
  unfold sum_upto. rewrite seq_S, map_app. simpl.
  induction (map f (seq 0 n)) as [|a l IH]; simpl; [lra|].
  rewrite IH. lra.
Qed.

Lemma sum_upto_plus (n : nat) (f g : nat -> R) :
  sum_upto n (fun k => f k + g k) = sum_upto n f + sum_upto n g.
Proof.
  induction n as [|n IH]; [unfold sum_upto; simpl; lra|].
  rewrite !sum_upto_S, IH. lra.
Qed.

Lemma sum_upto_scal (n : nat) (c : R) (f : nat -> R) :
  sum_upto n (fun k => c * f k) = c * sum_upto n f.
Proof.
  induction n as [|n IH]; [unfold sum_upto; simpl; lra|].
  rewrite !sum_upto_S, IH. lra.
Qed.

Lemma sum_upto_zero (n : nat) : sum_upto n (fun _ => 0) = 0.
Proof.
  induction n as [|n IH]; [reflexivity|]. rewrite sum_upto_S, IH. lra.
Qed.

Lemma sum_upto_swap (n m : nat) (f : nat -> nat -> R) :
  sum_upto n (fun i => sum_upto m (fun j => f i j))
  = sum_upto m (fun j => sum_upto n (fun i => f i j)).
Proof.
  induction n as [|n IH].
  - rewrite (sum_upto_ext m _ (fun _ => 0)) by reflexivity.
    now rewrite sum_upto_zero.
  - rewrite sum_upto_S, IH, <- sum_upto_plus.
    apply sum_upto_ext. intros j _. now rewrite sum_upto_S.
Qed.

Lemma sum_upto_delta (n j : nat) (f : nat -> R) :
  (j < n)%nat ->
  sum_upto n (fun k => if (k =? j)%nat then f k else 0) = f j.
Proof.
  induction n as [|n IH]; intros Hj; [lia|].
  rewrite sum_upto_S. destruct (Nat.eq_dec j n) as [->|Hne].
  - rewrite Nat.eqb_refl.
    rewrite (sum_upto_ext n _ (fun _ => 0)), sum_upto_zero; [lra|].
    intros k Hk. destruct (Nat.eqb_spec k n); [lia|reflexivity].
  - rewrite IH by lia. destruct (Nat.eqb_spec n j); [lia|lra].
Qed.

Lemma sum_upto_nonneg (n : nat) (f : nat -> R) :
  (forall k, (k < n)%nat -> 0 <= f k) -> 0 <= sum_upto n f.
Proof.
  induction n as [|n IH]; intros H; [unfold sum_upto; simpl; lra|].
  rewrite sum_upto_S. specialize (H n (Nat.lt_succ_diag_r n)) as Hn.
  assert (0 <= sum_upto n f) by (apply IH; intros; apply H; lia). lra.
Qed.

Lemma sum_upto_pos (n j : nat) (f : nat -> R) :
  (forall k, (k < n)%nat -> 0 <= f k) -> (j < n)%nat -> 0 < f j ->
  0 < sum_upto n f.
Proof.
  induction n as [|n IH]; intros H Hj Hpos; [lia|].
  rewrite sum_upto_S.
  assert (Hn : 0 <= f n) by (apply H; lia).
  assert (Hs : 0 <= sum_upto n f) by (apply sum_upto_nonneg; intros; apply H; lia).
  destruct (Nat.eq_dec j n) as [->|Hne]; [lra|].
  assert (0 < sum_upto n f).
  { apply IH; [intros; apply H; lia | lia | exact Hpos]. }
  lra.
Qed.

Lemma tabulate_ext (m n : nat) (f g : nat -> nat -> R) :
  (forall i j, (i < m)%nat -> (j < n)%nat -> f i j = g i j) ->
  tabulate m n f = tabulate m n g.
Proof.
  intros H. unfold tabulate. apply map_seq_ext. intros i Hi.
  apply map_seq_ext. intros j Hj. apply H; lia.
Qed.

Lemma shape_tabulate (m n : nat) (f : nat -> nat -> R) :
  shape m n (tabulate m n f).
Proof.
  unfold shape, tabulate. split.
  - now rewrite length_map, length_seq.
  - apply Forall_map, Forall_forall. intros i _.
    now rewrite length_map, length_seq.
Qed.

Lemma entry_tabulate (m n i j : nat) (f : nat -> nat -> R) :
  (i < m)%nat -> (j < n)%nat -> entry (tabulate m n f) i j = f i j.
Proof.
  intros Hi Hj. unfold entry, tabulate.
  rewrite (nth_map_seq _ m i []) by exact Hi.
  now rewrite nth_map_seq.
Qed.

(** A rectangular array is the table of its entries. *)
Lemma shape_as_tabulate (m n : nat) (M : matrix) :
  shape m n M -> M = tabulate m n (entry M).
Proof.
  intros [Hm Hrows]. unfold tabulate, entry.
  rewrite <- (map_nth_seq M []) at 1. rewrite Hm.
  apply map_seq_ext. intros i Hi.
  assert (Hr : length (nth i M []) = n).
  { rewrite Forall_forall in Hrows. apply Hrows, nth_In. lia. }
  rewrite <- (map_nth_seq (nth i M []) 0) at 1. now rewrite Hr.
Qed.

Lemma ncols_tabulate (m n : nat) (f : nat -> nat -> R) :
  (0 < m)%nat -> ncols (tabulate m n f) = n.
Proof.
  intros Hm. destruct m as [|m]; [lia|].
  unfold ncols, width, tabulate. simpl. now rewrite length_map, length_seq.
Qed.

Lemma column_tabulate (m n j : nat) (f : nat -> nat -> R) :
  (j < n)%nat -> column (tabulate m n f) j = map (fun i => f i j) (seq 0 m).
Proof.
  intros Hj. unfold column, tabulate. rewrite map_map.
  apply map_ext. intros i. now rewrite nth_map_seq.
Qed.

Lemma transpose_tabulate (m n : nat) (f : nat -> nat -> R) :
  (0 < m)%nat ->
  transpose (tabulate m n f) = tabulate n m (fun i j => f j i).
Proof.
  intros Hm. unfold transpose. rewrite ncols_tabulate by exact Hm.
  unfold tabulate at 2. apply map_seq_ext. intros j Hj.
  apply (column_tabulate m n j f). lia.
Qed.

Lemma mat_add_tabulate (m n m' n' : nat) (f g : nat -> nat -> R) :
  mat_add (tabulate m n f) (tabulate m' n' g)
  = tabulate (Nat.min m m') (Nat.min n n') (fun i j => f i j + g i j).
Proof.
  unfold mat_add, vadd, tabulate. rewrite zip_with_map_seq.
  apply map_ext. intros i. now rewrite zip_with_map_seq.
Qed.

Lemma mat_sub_tabulate (m n m' n' : nat) (f g : nat -> nat -> R) :
  mat_sub (tabulate m n f) (tabulate m' n' g)
  = tabulate (Nat.min m m') (Nat.min n n') (fun i j => f i j - g i j).
Proof.
  unfold mat_sub, vsub, tabulate. rewrite zip_with_map_seq.
  apply map_ext. intros i. now rewrite zip_with_map_seq.
Qed.

Lemma mat_scale_tabulate (c : R) (m n : nat) (f : nat -> nat -> R) :
  mat_scale c (tabulate m n f) = tabulate m n (fun i j => c * f i j).
Proof.
  unfold mat_scale, vscale, tabulate. rewrite map_map.
  apply map_ext. intros i. now rewrite map_map.
Qed.

Lemma dot_map_seq (a b : nat -> R) (n m : nat) :
  dot (map a (seq 0 n)) (map b (seq 0 m))
  = sum_upto (Nat.min n m) (fun k => a k * b k).
Proof.
  unfold dot, sum_upto. now rewrite zip_with_map_seq.
Qed.

Lemma mat_mul_tabulate (m n m' n' : nat) (f g : nat -> nat -> R) :
  (0 < m')%nat \/ n' = 0%nat ->
  mat_mul (tabulate m n f) (tabulate m' n' g)
  = tabulate m n' (fun i j => sum_upto (Nat.min n m') (fun k => f i k * g k j)).
Proof.
  intros H. unfold mat_mul.
  assert (Ht : transpose (tabulate m' n' g) = tabulate n' m' (fun i j => g j i)).
  { destruct H as [H| ->]; [now apply transpose_tabulate|].
    unfold transpose, tabulate at 2. simpl.
    destruct m' as [|m']; [reflexivity|]. reflexivity. }
  rewrite Ht. unfold tabulate. rewrite map_map. apply map_ext. intros i.
  rewrite map_map. apply map_ext. intros j. apply dot_map_seq.
Qed.

Lemma mat_vec_tabulate (m n n' : nat) (f : nat -> nat -> R) (x : nat -> R) :
  mat_vec (tabulate m n f) (map x (seq 0 n'))
  = map (fun i => sum_upto (Nat.min n n') (fun k => f i k * x k)) (seq 0 m).
Proof.
  unfold mat_vec, tabulate. rewrite map_map. apply map_ext. intros i.
  apply dot_map_seq.
Qed.

Lemma eye_tabulate (n : nat) :
  eye n = tabulate n n (fun i j => if (i =? j)%nat then 1 else 0).
Proof. reflexivity. Qed.


(** ** Column normalisation of the emission matrix *)

Lemma removelast_as_map (r : vec) (n : nat) :
  length r = S n -> removelast r = map (fun j => nth j r 0) (seq 0 n).
Proof.
  intros Hr.
  assert (Hl : length (removelast r) = n).
  { rewrite length_removelast_R. lia. }
  rewrite <- (map_nth_seq (removelast r) 0) at 1. rewrite Hl.
  apply map_seq_ext. intros j Hj. apply nth_removelast. lia.
Qed.

Lemma drop_last_col_tabulate (m n : nat) (C : matrix) :
  shape m (S n) C -> drop_last_col C = tabulate m n (entry C).
Proof.
  intros [Hm Hrows]. unfold drop_last_col, tabulate, entry.
  rewrite <- (map_nth_seq C []) at 1. rewrite Hm, map_map.
  apply map_seq_ext. intros i Hi. apply removelast_as_map.
  rewrite Forall_forall in Hrows. apply Hrows, nth_In. lia.
Qed.






Lemma column_shape (m n j : nat) (C : matrix) :
  shape m n C -> column C j = map (fun i => entry C i j) (seq 0 m).
Proof.
  intros [Hm _]. unfold column, entry.
  rewrite <- (map_nth_seq C []) at 1. now rewrite Hm, map_map.
Qed.





(** ** Symmetrised, jittered covariances *)

Lemma rectangular_cases (M : matrix) :
  rectangular M -> M = [] \/ exists m n, (0 < m)%nat /\ shape m n M.
Proof.
  intros (m & n & Hsh). destruct m as [|m].
  - left. destruct Hsh as [Hl _]. now destruct M.
  - right. exists (S m), n. split; [lia | exact Hsh].
Qed.

Lemma sym_jitter_tabulate (n m c : nat) (M : matrix) :
  (0 < m)%nat -> shape m c M ->
  sym_jitter n M
  = tabulate (Nat.min (Nat.min m c) n) (Nat.min (Nat.min m c) n)
      (fun i j => / 2 * (entry M i j + entry M j i)
                  + jitter * (if (i =? j)%nat then 1 else 0)).
Proof.
  intros Hm Hsh. unfold sym_jitter.
  rewrite (shape_as_tabulate m c M Hsh) at 1 2.
  rewrite transpose_tabulate by exact Hm.
  rewrite mat_add_tabulate, mat_scale_tabulate, eye_tabulate,
    mat_scale_tabulate, mat_add_tabulate.
  now rewrite (Nat.min_comm c m).
Qed.

Lemma sym_jitter_symmetric (n : nat) (M : matrix) :
  rectangular M -> symmetric (sym_jitter n M).
Proof.
  intros Hr. unfold symmetric.
  destruct (rectangular_cases M Hr) as [->|(m & c & Hm & Hsh)];
    [reflexivity|].
  rewrite (sym_jitter_tabulate n m c M Hm Hsh).
  destruct (Nat.min (Nat.min m c) n) as [|k]; [reflexivity|].
  rewrite transpose_tabulate by lia.
  apply tabulate_ext. intros i j Hi Hj.
  rewrite (Nat.eqb_sym j i). lra.
Qed.

Lemma ensure_psd_sym_jitter (n : nat) (M : matrix) :
  ensure_psd n M = sym_jitter n M.
Proof.
  unfold ensure_psd, sym_jitter. now replace 0.5 with (/ 2) by lra.
Qed.

Lemma vec_as_map (x : vec) : x = map (fun i => nth i x 0) (seq 0 (length x)).
Proof. now rewrite map_nth_seq. Qed.

Lemma quad_form_tabulate (n : nat) (f : nat -> nat -> R) (x : vec) :
  length x = n ->
  quad_form (tabulate n n f) x
  = sum_upto n (fun i => sum_upto n (fun j => nth i x 0 * f i j * nth j x 0)).
Proof.
  intros Hx. unfold quad_form. rewrite (vec_as_map x) at 1 2. rewrite Hx.
  rewrite mat_vec_tabulate, dot_map_seq, !Nat.min_id.
  apply sum_upto_ext. intros i _. rewrite <- sum_upto_scal.
  apply sum_upto_ext. intros j _. lra.
Qed.

Lemma quad_form_shape (n : nat) (M : matrix) (x : vec) :
  shape n n M -> length x = n ->
  quad_form M x
  = sum_upto n (fun i =>
      sum_upto n (fun j => nth i x 0 * entry M i j * nth j x 0)).
Proof.
  intros Hsh Hx.
  transitivity (quad_form (tabulate n n (entry M)) x).
  - now rewrite <- (shape_as_tabulate n n M Hsh).
  - now apply quad_form_tabulate.
Qed.

Lemma dot_self_sum (x : vec) :
  dot x x = sum_upto (length x) (fun i => nth i x 0 * nth i x 0).
Proof.
  rewrite (vec_as_map x) at 1 2. now rewrite dot_map_seq, Nat.min_id.
Qed.

Lemma dot_self_pos (x : vec) : nonzero x -> 0 < dot x x.
Proof.
  intros (i & Hi). rewrite dot_self_sum.
  assert (Hlt : (i < length x)%nat).
  { destruct (Nat.lt_ge_cases i (length x)) as [H|H]; [exact H|].
    exfalso. apply Hi. now apply nth_overflow. }
  apply (sum_upto_pos _ i); [intros; nra | exact Hlt | nra].
Qed.

(** The quadratic form of [(M + M^T) / 2 + 1e-8 I] is that of [M] plus
    [1e-8 |x|^2]. *)
Lemma quad_form_sym_jitter (n : nat) (M : matrix) (x : vec) :
  shape n n M -> length x = n ->
  quad_form (sym_jitter n M) x = quad_form M x + jitter * dot x x.
Proof.
  intros Hsh Hx. destruct n as [|n].
  { destruct Hsh as [Hl _]. destruct M; [|discriminate].
    destruct x; [|discriminate]. unfold quad_form, dot. simpl. lra. }
  rewrite (sym_jitter_tabulate (S n) (S n) (S n) M) by (auto; lia).
  rewrite !Nat.min_id.
  rewrite (quad_form_shape (S n) M x Hsh Hx).
  rewrite quad_form_tabulate by exact Hx.
  rewrite dot_self_sum, Hx.
  set (q := fun i j => nth i x 0 * entry M i j * nth j x 0).
  rewrite (sum_upto_ext (S n) _
             (fun i => / 2 * sum_upto (S n) (fun j => q i j)
                       + / 2 * sum_upto (S n) (fun j => q j i)
                       + jitter * (nth i x 0 * nth i x 0))).
  - rewrite !sum_upto_plus, !sum_upto_scal.
    rewrite (sum_upto_swap (S n) (S n) (fun i j => q j i)).
    unfold q. lra.
  - intros i Hi.
    rewrite <- !sum_upto_scal, <- sum_upto_plus.
    rewrite <- (sum_upto_delta (S n) i
                  (fun j => jitter * (nth i x 0 * nth j x 0))) by exact Hi.
    rewrite <- sum_upto_plus. apply sum_upto_ext. intros j _. unfold q.
    rewrite (Nat.eqb_sym j i). destruct (i =? j)%nat; lra.
Qed.

Lemma jitter_pos : 0 < jitter.
Proof. unfold jitter. lra. Qed.

Lemma sym_jitter_pos_def (n : nat) (M : matrix) :
  shape n n M -> pos_semidef n M -> pos_def n (sym_jitter n M).
Proof.
  intros Hsh Hpsd x Hx Hnz.
  rewrite (quad_form_sym_jitter n M x Hsh Hx).
  specialize (Hpsd x Hx). pose proof (dot_self_pos x Hnz).
  pose proof jitter_pos. nra.
Qed.

Lemma dot_vscale_r (lam : R) (x y : vec) :
  dot x (vscale lam y) = lam * dot x y.
Proof.
  unfold dot, vscale. revert y; induction x as [|a x IH]; intros [|b y];
    simpl; try lra.
  unfold rsum in *. rewrite IH. lra.
Qed.

Lemma pos_def_positive_eigenvalues (n : nat) (M : matrix) :
  pos_def n M -> positive_eigenvalues n M.
Proof.
  intros Hpd lam x Hx Hnz Heig.
  specialize (Hpd x Hx Hnz). unfold quad_form in Hpd.
  rewrite Heig, dot_vscale_r in Hpd.
  pose proof (dot_self_pos x Hnz). nra.
Qed.

Lemma mat_mul_rectangular (A B : matrix) : rectangular (mat_mul A B).
Proof.
  exists (length A), (length (transpose B)). unfold mat_mul. split.
  - now rewrite length_map.
  - apply Forall_map, Forall_forall. intros r _. now rewrite length_map.
Qed.

Lemma mat_sub_rectangular (A B : matrix) :
  rectangular A -> rectangular B -> rectangular (mat_sub A B).
Proof.
  intros (m & n & Hm & HA) (m' & n' & Hm' & HB).
  exists (Nat.min m m'), (Nat.min n n'). unfold mat_sub. split.
  - rewrite length_zip_with. lia.
  - clear Hm Hm'. revert B HB; induction A as [|r A IH]; intros [|r' B] HB;
      simpl; constructor.
    + inversion HA; inversion HB; subst. unfold vsub.
      rewrite length_zip_with. lia.
    + inversion HA; inversion HB; subst. apply IH; auto.
Qed.

(** What a successful forward step has computed and stored. *)
Lemma forward_step_inv (la : LinAlg) (D_in D_bias : nat) (U : result matrix)
    (As Qs : list matrix) (C : matrix) (Y : result matrix)
    (paths : result pathmat) (Zs : result (list Z)) (omega : result matrix)
    (Rs : list matrix) (depth : nat) (omegay : result matrix) (bern : bool)
    (N : R) (t : nat) (s s' : kstate) :
  forward_step la D_in D_bias U As Qs C Y paths Zs omega Rs depth omegay bern
    N t s = Ok s' ->
  exists alpha Lambda Zi Zt Q Ak Ui ut Sy yt x_new P_temp,
    tree_prior la (kX s) (kP s) paths omega Rs depth t = Ok (alpha, Lambda)
    /\ Zs = Ok Zi /\ get Zi t = Ok Zt
    /\ np_index Qs Zt = Ok Q /\ np_index As Zt = Ok Ak
    /\ U = Ok Ui /\ col Ui t = Ok ut
    /\ observation Y omegay bern N t (kS s) = Ok (Sy, yt)
    /\ correct la D_in C Sy yt (fst (predict D_bias Ak Q alpha Lambda ut))
         (snd (predict D_bias Ak Q alpha Lambda ut)) = Ok (x_new, P_temp)
    /\ set_col (kX s) (t + 1) x_new = Ok (kX s')
    /\ (t + 1 < length (kP s))%nat
    /\ kP s' = upd (kP s) (t + 1) (sym_jitter D_in P_temp)
    /\ set_col (kalphas s) t alpha = Ok (kalphas s')
    /\ (t < length (kLambdas s))%nat
    /\ kLambdas s' = upd (kLambdas s) t Lambda
    /\ kS s' = Sy.
Proof.
  intros H. unfold forward_step in H.
  apply bind_ok in H as ([alpha Lambda] & Hprior & H).
  apply bind_ok in H as (alphas & Halphas & H).
  apply bind_ok in H as (Lambdas & HLambdas & H).
  apply bind_ok in H as (Zi & HZi & H).
  apply bind_ok in H as (Zt & HZt & H).
  apply bind_ok in H as (Q & HQ & H).
  apply bind_ok in H as (Ak & HAk & H).
  apply bind_ok in H as (Ui & HUi & H).
  apply bind_ok in H as (ut & Hut & H).
  destruct (predict D_bias Ak Q alpha Lambda ut) as [x_prior P_prior] eqn:Hpred.
  apply bind_ok in H as ([Sy yt] & Hobs & H).
  apply bind_ok in H as ([x_new P_temp] & Hcorr & H).
  apply bind_ok in H as (X' & HX & H).
  apply bind_ok in H as (P' & HP & H).
  inversion H; subst s'; clear H. cbn [kX kP kalphas kLambdas kS].
  apply set_item_ok in HP as (HPlt & ->).
  apply set_item_ok in HLambdas as (HLlt & ->).
  exists alpha, Lambda, Zi, Zt, Q, Ak, Ui, ut, Sy, yt, x_new, P_temp.
  rewrite Hpred. cbn [fst snd]. repeat split; auto.
Qed.

Lemma correct_inv (la : LinAlg) (D_in : nat) (C Sy : matrix) (yt x_prior : vec)
    (P_prior : matrix) (x_new : vec) (P_temp : matrix) :
  correct la D_in C Sy yt x_prior P_prior = Ok (x_new, P_temp) ->
  exists W bias,
    solve la (mat_add (mat_mul (mat_mul (drop_last_col C) P_prior)
                         (transpose (drop_last_col C))) Sy)
          (drop_last_col C) = Ok W
    /\ last_col C = Ok bias
    /\ x_new = vadd x_prior
                 (mat_vec (mat_mul P_prior (transpose W))
                    (vsub (vsub yt (mat_vec (drop_last_col C) x_prior)) bias))
    /\ P_temp = mat_mul (mat_sub (eye D_in)
                           (mat_mul (mat_mul P_prior (transpose W))
                              (drop_last_col C)))
                        P_prior.
Proof.
  intros H. unfold correct in H.
  apply bind_ok in H as (W & HW & H).
  apply bind_ok in H as (bias & Hb & H).
  inversion H; subst. exists W, bias. auto.
Qed.

Lemma backward_moments_inv (la : LinAlg) (D_in D_bias : nat)
    (U : result matrix) (As Qs Qinvs : list matrix) (Zs : result (list Z))
    (t : nat) (s : kstate) (mu_n : vec) (Pn' : matrix) :
  backward_moments la D_in D_bias U As Qs Qinvs Zs t s = Ok (mu_n, Pn') ->
  exists Lambda Zi Zt Ak Q Pn,
    get (kLambdas s) t = Ok Lambda
    /\ Zs = Ok Zi /\ get Zi t = Ok Zt
    /\ np_index As Zt = Ok Ak /\ np_index Qs Zt = Ok Q
    /\ smoothing_cov la Lambda (cols_to_neg D_bias Ak) Q = Ok Pn
    /\ Pn' = ensure_psd D_in Pn.
Proof.
  intros H. unfold backward_moments in H.
  apply bind_ok in H as (alpha & Halpha & H).
  apply bind_ok in H as (Lambda & HLambda & H).
  apply bind_ok in H as (Zi & HZi & H).
  apply bind_ok in H as (Zt & HZt & H).
  apply bind_ok in H as (Ak & HAk & H).
  apply bind_ok in H as (Q & HQ & H).
  apply bind_ok in H as (Qinv & HQinv & H).
  apply bind_ok in H as (Pn & HPn & H).
  apply bind_ok in H as (sa & Hsa & H).
  apply bind_ok in H as (x_next & Hx & H).
  apply bind_ok in H as (Ui & HUi & H).
  apply bind_ok in H as (ut & Hut & H).
  inversion H; subst.
  exists Lambda, Zi, Zt, Ak, Q, Pn. repeat split; auto.
Qed.

Lemma smoothing_cov_rectangular (la : LinAlg) (Lambda A_tot Q Pn : matrix) :
  rectangular Lambda -> smoothing_cov la Lambda A_tot Q = Ok Pn ->
  rectangular Pn.
Proof.
  intros HL H. unfold smoothing_cov in H.
  apply bind_ok in H as (W & _ & H). inversion H; subst.
  apply mat_sub_rectangular; [exact HL | apply mat_mul_rectangular].
Qed.

(** C2 (as amended): a forward step stores [Lambda] as computed, without
    symmetrising or jittering it, and stores [P[:, :, t + 1]] as
    [(P_temp + P_temp^T) / 2 + 1e-8 I]; a backward step, on a rectangular
    stored [Lambda], factors [(Pn + Pn^T) / 2 + 1e-8 I].  These two are
    symmetric, and they are positive definite, with strictly positive
    eigenvalues, whenever [P_temp], respectively [Pn], is a positive
    semi-definite [D_in x D_in] array. *)
Theorem C2_filtered_and_smoothing_covariances_symmetric :
  forall (la : LinAlg) (D_in D_bias : nat) (U : result matrix)
         (As Qs : list matrix) (Zs : result (list Z)) (t : nat) (s : kstate),
    (forall C Y paths omega Rs depth omegay bern N s',
        forward_step la D_in D_bias U As Qs C Y paths Zs omega Rs depth omegay
          bern N t s = Ok s' ->
        exists alpha Lambda Sy yt x_prior P_prior x_new P_temp,
          tree_prior la (kX s) (kP s) paths omega Rs depth t
          = Ok (alpha, Lambda)
          /\ get (kLambdas s') t = Ok Lambda
          /\ correct la D_in C Sy yt x_prior P_prior = Ok (x_new, P_temp)
          /\ get (kP s') (t + 1) = Ok (sym_jitter D_in P_temp)
          /\ symmetric (sym_jitter D_in P_temp)
          /\ (shape D_in D_in P_temp -> pos_semidef D_in P_temp ->
              pos_def D_in (sym_jitter D_in P_temp)
              /\ positive_eigenvalues D_in (sym_jitter D_in P_temp)))
    /\ (forall Qinvs mu_n Pn' Lambda,
          backward_moments la D_in D_bias U As Qs Qinvs Zs t s
          = Ok (mu_n, Pn') ->
          get (kLambdas s) t = Ok Lambda -> rectangular Lambda ->
          exists A_tot Q Pn,
            smoothing_cov la Lambda A_tot Q = Ok Pn
            /\ Pn' = sym_jitter D_in Pn
            /\ symmetric Pn'
            /\ (shape D_in D_in Pn -> pos_semidef D_in Pn ->
                pos_def D_in Pn' /\ positive_eigenvalues D_in Pn')).
Proof.
  intros la D_in D_bias U As Qs Zs t s. split.
  - intros C Y paths omega Rs depth omegay bern N s' H.
    apply forward_step_inv in H
      as (alpha & Lambda & Zi & Zt & Q & Ak & Ui & ut & Sy & yt & x_new
          & P_temp & Hprior & _ & _ & _ & _ & _ & _ & _ & Hcorr & _ & HPlt
          & HP & _ & HLlt & HL & _).
    exists alpha, Lambda, Sy, yt,
      (fst (predict D_bias Ak Q alpha Lambda ut)),
      (snd (predict D_bias Ak Q alpha Lambda ut)), x_new, P_temp.
    split; [exact Hprior|].
    split; [rewrite HL; now apply get_upd_same|].
    split; [exact Hcorr|].
    split; [rewrite HP; now apply get_upd_same|].
    split.
    + apply sym_jitter_symmetric.
      apply correct_inv in Hcorr as (W & bias & _ & _ & _ & ->).
      apply mat_mul_rectangular.
    + intros Hsh Hpsd.
      pose proof (sym_jitter_pos_def D_in P_temp Hsh Hpsd) as Hpd.
      split; [exact Hpd | now apply pos_def_positive_eigenvalues].
  - intros Qinvs mu_n Pn' Lambda H HLam Hrect.
    apply backward_moments_inv in H
      as (Lambda' & Zi & Zt & Ak & Q & Pn & HLam' & _ & _ & _ & _ & HPn & ->).
    rewrite HLam in HLam'. inversion HLam'; subst Lambda'.
    exists (cols_to_neg D_bias Ak), Q, Pn.
    rewrite ensure_psd_sym_jitter.
    split; [exact HPn|]. split; [reflexivity|]. split.
    + apply sym_jitter_symmetric.
      now apply (smoothing_cov_rectangular la Lambda (cols_to_neg D_bias Ak) Q).
    + intros Hsh Hpsd.
      pose proof (sym_jitter_pos_def D_in Pn Hsh Hpsd) as Hpd.
      split; [exact Hpd | now apply pos_def_positive_eigenvalues].
Qed.

(** ** The scalar filter, evaluated *)

Lemma exact_inv_scalar (a : R) : a <> 0 -> exact_inv [[a]] = Ok [[/ a]].
Proof.
  intros Ha. unfold exact_inv.
  assert (Hd : exact_det [[a]] = a).
  { unfold exact_det. simpl. unfold sign; simpl. lra. }
  rewrite Hd. destruct (Req_dec_T a 0) as [e|ne]; [contradiction|].
  f_equal. unfold tabulate, cofactor, mat_scale, vscale, exact_det.
  simpl. unfold sign; simpl. repeat f_equal. field. exact Ha.
Qed.

Lemma exact_solve_scalar (a : R) (B : matrix) :
  a <> 0 -> exact_solve [[a]] B = Ok (mat_mul [[/ a]] B).
Proof.
  intros Ha. unfold exact_solve. now rewrite exact_inv_scalar.
Qed.

Lemma exact_cholesky_scalar (a : R) :
  0 < a -> exact_cholesky [[a]] = Ok [[sqrt a]].
Proof.
  intros Ha. unfold exact_cholesky. simpl. unfold dot; simpl.
  destruct (Rlt_dec 0 (a - 0)) as [h|h]; [|exfalso; lra].
  simpl. now replace (a - 0) with a by lra.
Qed.

Lemma exact_cholesky_scalar_fail (a : R) :
  a <= 0 -> exact_cholesky [[a]] = Raise LinAlgError.
Proof.
  intros Ha. unfold exact_cholesky. simpl. unfold dot; simpl.
  destruct (Rlt_dec 0 (a - 0)) as [h|h]; [exfalso; lra | reflexivity].
Qed.

(** Splits an equation between arrays or states into the equations
    between their real entries. *)
Ltac struct_eq :=
  repeat match goal with
         | |- @eq ?T _ _ =>
             lazymatch T with
             | R => fail
             | _ => progress f_equal
             end
         end.

(** A forward step of the scalar filter in closed form, from the prior
    mean [al] and variance [lam] that [tree_prior] returns. *)
Lemma forward_step_scalar
    (x0 x1 p p1 al0 al1 l0 l1 s a b q c d y0 y1 u0 u1 N al lam : R)
    (As Qs : list matrix) (Zi : list Z) (Zt : Z)
    (paths : result pathmat) (omega : result matrix) (Rs : list matrix)
    (depth : nat) (omegay : result matrix) :
  tree_prior exact_la [[x0; x1]] [[[p]]; [[p1]]] paths omega Rs depth 0
  = Ok ([al], [[lam]]) ->
  get Zi 0 = Ok Zt -> np_index Qs Zt = Ok [[q]] ->
  np_index As Zt = Ok [[a; b]] ->
  c * (a * lam * a + q) * c + s <> 0 ->
  forward_step exact_la 1 1 (Ok [[u0; u1]]) As Qs [[c; d]]
    (Ok [[y0; y1]]) paths (Ok Zi) omega Rs depth omegay false N 0
    {| kX := [[x0; x1]]; kP := [[[p]]; [[p1]]]; kalphas := [[al0; al1]];
       kLambdas := [[[l0]]; [[l1]]]; kS := [[s]] |}
  = Ok {| kX := [[x0; (a * al + b * u0)
                      + (a * lam * a + q) * c / (c * (a * lam * a + q) * c + s)
                        * (y0 - c * (a * al + b * u0) - d)]];
          kP := [[[p]];
                 [[(1 - (a * lam * a + q) * c / (c * (a * lam * a + q) * c + s)
                        * c) * (a * lam * a + q) + jitter]]];
          kalphas := [[al; al1]];
          kLambdas := [[[lam]]; [[l1]]];
          kS := [[s]] |}.
Proof.
  intros Hprior HZt HQ HA Hm. unfold forward_step.
  cbn [kX kP kalphas kLambdas kS]. rewrite Hprior.
  cbn -[exact_solve exact_inv exact_cholesky sym_jitter np_index get].
  rewrite HZt. cbn [bind]. rewrite HQ. cbn [bind]. rewrite HA.
  cbn -[exact_solve exact_inv exact_cholesky sym_jitter].
  unfold correct.
  cbn -[exact_solve exact_inv exact_cholesky sym_jitter].
  match goal with
  | |- context [exact_solve [[?e]] _] =>
      replace e with (c * (a * lam * a + q) * c + s) by ring
  end.
  rewrite exact_solve_scalar by exact Hm.
  cbn -[exact_solve exact_inv exact_cholesky sym_jitter].
  unfold sym_jitter, mat_add, mat_scale, vadd, vscale.
  cbn -[exact_solve exact_inv exact_cholesky jitter].
  struct_eq; unfold jitter; field; exact Hm.
Qed.

(** The prior of the scalar model under the tree of depth 2. *)
Lemma tree_prior_depth2 :
  tree_prior exact_la (kX s0) (kP s0) (Ok paths2) (Ok omega1) Rs1 2 0
  = Ok ([- / 4], [[/ 2]]).
Proof.
  unfold tree_prior, tree_potentials.
  cbn -[exact_solve exact_inv exact_cholesky sym_jitter].
  rewrite exact_inv_1.
  cbn -[exact_solve exact_inv exact_cholesky sym_jitter].
  replace (1 + 1 * (1 * 1)) with 2 by lra.
  rewrite exact_inv_scalar by lra.
  cbn -[exact_solve exact_inv exact_cholesky sym_jitter].
  unfold branch_sign. simpl. struct_eq; lra.
Qed.

(** The first forward step of the scalar model, without and with the
    tree. *)
Lemma forward_step_depth1 :
  forward_step exact_la 1 1 (Ok U0) As1 Qs1 C1 (Ok Y1) (Ok []) (Ok [0; 0]%Z)
    (Ok []) [] 1 (Raise TypeError) false 1 0 s0
  = Ok s1_plain.
Proof.
  unfold s0, s1_plain, U0, Y1, C1.
  rewrite (forward_step_scalar 0 0 1 1 0 0 1 1 2 1 0 1 1 0 1 1 0 0 1 0 1
             As1 Qs1 [0; 0]%Z 0%Z);
    try reflexivity; [|lra].
  struct_eq; unfold jitter; field.
Qed.

Lemma forward_step_depth2 :
  forward_step exact_la 1 1 (Ok U0) A2 Q2 C1 (Ok Y1) (Ok paths2)
    (Ok [1; 1]%Z) (Ok omega1) Rs1 2 (Raise TypeError) false 1 0 s0
  = Ok s1_tree.
Proof.
  pose proof tree_prior_depth2 as Hp. unfold s0, s1_tree, U0, Y1, C1 in *.
  cbn [kX kP] in Hp.
  rewrite (forward_step_scalar 0 0 1 1 0 0 1 1 2 1 0 1 1 0 1 1 0 0 1
             (- / 4) (/ 2) A2 Q2 [1; 1]%Z 1%Z _ _ _ _ _ Hp);
    try reflexivity; [|lra].
  struct_eq; unfold jitter; field.
Qed.


(** C2, as stated, fails: on the scalar model under the tree of depth 2
    the forward step computes the prior covariance [Lambda = 1/2] and
    stores exactly that in [Lambdas[:, :, 0]]; the symmetrised and
    jittered matrix would be [1/2 + 1e-8]. *)
Lemma C2_stored_Lambda_not_jittered :
  exists s1 alpha Lambda,
    forward_step exact_la 1 1 (Ok U0) A2 Q2 C1 (Ok Y1) (Ok paths2)
      (Ok [1; 1]%Z) (Ok omega1) Rs1 2 (Raise TypeError) false 1 0 s0 = Ok s1
    /\ tree_prior exact_la (kX s0) (kP s0) (Ok paths2) (Ok omega1) Rs1 2 0
       = Ok (alpha, Lambda)
    /\ get (kLambdas s1) 0 = Ok Lambda
    /\ Lambda <> sym_jitter 1 Lambda.
Proof.
  eexists; exists [- / 4], [[/ 2]].
  split; [exact forward_step_depth2|].
  split; [exact tree_prior_depth2|].
  split; [reflexivity|].
  unfold sym_jitter, mat_add, mat_scale, vadd, vscale. simpl.
  intros H. inversion H as [H1]. unfold jitter in H1. lra.
Qed.


(** ** The depth-1 filter and the plain Kalman filter *)







Lemma tree_prior_depth_one (la : LinAlg) (X : matrix) (P : list matrix)
    (paths : result pathmat) (omega : result matrix) (Rs : list matrix)
    (t : nat) :
  tree_prior la X P paths omega Rs 1 t
  = bind (col X t) (fun x => bind (get P t) (fun Pt => Ok (x, Pt))).
Proof. reflexivity. Qed.


Lemma precompute_Qinvs_two :
  precompute_Qinvs exact_la 1 Qs_two
  = Ok [mat_mul (transpose [[/ sqrt 2]]) [[/ sqrt 2]]].
Proof.
  unfold precompute_Qinvs, Qs_two.
  cbn -[exact_solve exact_inv exact_cholesky mat_mul transpose].
  rewrite exact_cholesky_scalar by lra.
  cbn -[exact_solve exact_inv exact_cholesky mat_mul transpose].
  rewrite exact_inv_scalar by (apply Rgt_not_eq, sqrt_lt_R0; lra).
  reflexivity.
Qed.

(** Three runs of the scalar model in which a factorisation fails: a
    negative leaf noise variance; a negative initial variance with a
    single time step, so that the final filtered covariance is not
    positive; the same initial variance with two time steps, where the
    forward pass succeeds and the smoothing variance is negative. *)
Lemma C8_cholesky_failure_witness :
  pg_kalman exact_la stream_rng 1 1 [[0; 0]] U0 [[[1]]; [[1]]] As1 [[[-1]]]
    C1 [[2]] Y1 [] [0; 0]%Z [] [[0; 0]] [[[1]]; [[1]]] [] 1 (Raise TypeError)
    false 1 1%Z noise11 = Raise LinAlgError
  /\ pg_kalman exact_la stream_rng 1 1 [[0]] [[0]] [[[-1]]] As1 Qs_two C1
       [[1]] [[1]] [] [0]%Z [] [[0]] [[[1]]] [] 1 (Raise TypeError) false 1
       1%Z noise11 = Raise LinAlgError
  /\ pg_kalman exact_la stream_rng 1 1 [[0; 0]] U0 [[[-1]]; [[1]]] As1 Qs_two
       C1 [[1]] Y1 [] [0; 0]%Z [] [[0; 0]] [[[1]]; [[1]]] [] 1
       (Raise TypeError) false 1 1%Z noise11 = Raise LinAlgError.
Proof.
  split; [|split].
  - destruct (C8_cholesky_failure_propagates exact_la tape stream_rng 1 1
                [[0; 0]] U0 [[[1]]; [[1]]] As1 [[[-1]]] C1 [[2]] Y1 []
                [0; 0]%Z [] [[0; 0]] [[[1]]; [[1]]] [] 1 (Raise TypeError)
                false 1 1%Z noise11 LinAlgError) as (HA & _ & _).
    apply (HA 0%nat [[-1]]).
    + reflexivity.
    + intros j Hj. lia.
    + apply exact_cholesky_scalar_fail. lra.
  - destruct (C8_cholesky_failure_propagates exact_la tape stream_rng 1 1
                [[0]] [[0]] [[[-1]]] As1 Qs_two C1 [[1]] [[1]] [] [0]%Z []
                [[0]] [[[1]]] [] 1 (Raise TypeError) false 1 1%Z noise11
                LinAlgError) as (_ & HB & _).
    eapply HB.
    + exact precompute_Qinvs_two.
    + reflexivity.
    + reflexivity.
    + reflexivity.
    + reflexivity.
    + apply exact_cholesky_scalar_fail. lra.
  - destruct (C8_cholesky_failure_propagates exact_la tape stream_rng 1 1
                [[0; 0]] U0 [[[-1]]; [[1]]] As1 Qs_two C1 [[1]] Y1 []
                [0; 0]%Z [] [[0; 0]] [[[1]]; [[1]]] [] 1 (Raise TypeError)
                false 1 1%Z noise11 LinAlgError) as (_ & _ & HC).
    eapply HC.
    + exact precompute_Qinvs_two.
    + unfold filter_forward, U0, Y1, C1.
      cbn -[forward_step].
      rewrite (forward_step_scalar 0 0 (-1) 1 0 0 1 1 1 1 0 2 1 0 1 1 0 0 1 0
                 (-1) As1 Qs_two [0; 0]%Z 0%Z);
        [ | reflexivity | reflexivity | reflexivity | reflexivity | lra ].
      cbn [bind for_each]. reflexivity.
    + unfold sample_last.
      cbn -[exact_solve exact_inv exact_cholesky jitter].
      rewrite exact_cholesky_scalar by (unfold jitter; lra).
      cbn -[exact_solve exact_inv exact_cholesky jitter].
      reflexivity.
    + cbn. instantiate (3 := []). reflexivity.
    + reflexivity.
    + unfold backward_moments, smoothing_cov, U0.
      cbn -[exact_solve exact_inv exact_cholesky jitter ensure_psd].
      rewrite exact_solve_scalar by lra.
      cbn -[exact_solve exact_inv exact_cholesky jitter ensure_psd].
      rewrite exact_solve_scalar by lra.
      cbn -[exact_solve exact_inv exact_cholesky jitter ensure_psd].
      reflexivity.
    + unfold ensure_psd, mat_add, mat_scale, vadd, vscale.
      cbn -[exact_solve exact_inv exact_cholesky jitter].
      apply exact_cholesky_scalar_fail. unfold jitter. lra.
Defined.

Lemma C2_filtered_and_smoothing_covariances_witness :
  (exists alpha Lambda Sy yt x_prior P_prior x_new P_temp,
      tree_prior exact_la (kX s0) (kP s0) (Ok paths2) (Ok omega1) Rs1 2 0
      = Ok (alpha, Lambda)
      /\ get (kLambdas s1_tree) 0 = Ok Lambda
      /\ correct exact_la 1 C1 Sy yt x_prior P_prior = Ok (x_new, P_temp)
      /\ get (kP s1_tree) (0 + 1) = Ok (sym_jitter 1 P_temp)
      /\ symmetric (sym_jitter 1 P_temp)
      /\ (shape 1 1 P_temp -> pos_semidef 1 P_temp ->
          pos_def 1 (sym_jitter 1 P_temp)
          /\ positive_eigenvalues 1 (sym_jitter 1 P_temp)))
  /\ (exists mu_n Pn' A_tot Q Pn,
        backward_moments exact_la 1 1 (Ok U0) As1 Qs1 [[[1]]] (Ok [0; 0]%Z) 0
          s1_plain = Ok (mu_n, Pn')
        /\ smoothing_cov exact_la [[1]] A_tot Q = Ok Pn
        /\ Pn' = sym_jitter 1 Pn
        /\ symmetric Pn'
        /\ (shape 1 1 Pn -> pos_semidef 1 Pn ->
            pos_def 1 Pn' /\ positive_eigenvalues 1 Pn')).
Proof.
  destruct (C2_filtered_and_smoothing_covariances_symmetric exact_la 1 1
              (Ok U0) A2 Q2 (Ok [1; 1]%Z) 0 s0) as (HF & _).
  destruct (C2_filtered_and_smoothing_covariances_symmetric exact_la 1 1
              (Ok U0) As1 Qs1 (Ok [0; 0]%Z) 0 s1_plain) as (_ & HB).
  split.
  - apply (HF C1 (Ok Y1) (Ok paths2) (Ok omega1) Rs1 2%nat (Raise TypeError)
             false 1 s1_tree).
    exact forward_step_depth2.
  - assert (Hm : exists mu_n Pn',
               backward_moments exact_la 1 1 (Ok U0) As1 Qs1 [[[1]]]
                 (Ok [0; 0]%Z) 0 s1_plain = Ok (mu_n, Pn')).
    { unfold backward_moments, smoothing_cov, U0, s1_plain.
      cbn -[exact_solve exact_inv exact_cholesky jitter ensure_psd].
      rewrite exact_solve_scalar by lra.
      cbn -[exact_solve exact_inv exact_cholesky jitter ensure_psd].
      rewrite exact_solve_scalar by lra.
      cbn -[exact_solve exact_inv exact_cholesky jitter ensure_psd].
      eexists; eexists; reflexivity. }
    destruct Hm as (mu_n & Pn' & Hm).
    destruct (HB [[[1]]] mu_n Pn' [[1]] Hm) as (A_tot & Q & Pn & H1 & H2 & H3).
    + reflexivity.
    + exists 1%nat, 1%nat. split; [reflexivity | repeat constructor].
    + exists mu_n, Pn', A_tot, Q, Pn. auto.
Defined.


(** ** The batched filter, trajectory by trajectory *)

Lemma for_each_map {A B S : Type} (f : A -> B) (xs : list A)
    (body : B -> S -> result S) (s : S) :
  for_each (map f xs) body s = for_each xs (fun x => body (f x)) s.
Proof.
  revert s; induction xs as [|x xs IH]; intros s; simpl; [reflexivity|].
  destruct (body (f x) s); simpl; [apply IH | reflexivity].
Qed.

Lemma set_item_cons {A : Type} (x : A) (l : list A) (i : nat) (a : A) :
  set_item (x :: l) (S i) a = bind (set_item l i a) (fun l' => Ok (x :: l')).
Proof.
  unfold set_item. cbn [length].
  change (S i <? S (length l))%nat with (i <? length l)%nat.
  now destruct (i <? length l)%nat.
Qed.

(** The loop of [pg_kalman_batch] over the trajectories after the first
    is the loop over the list without its first trajectory. *)
Lemma batch_loop_shift (la : LinAlg) (St : Type) (rng : Rng St)
    (D_in D_bias : nat) (As Qs Qinvs : list matrix) (C : matrix)
    (Rs : list matrix) (depth : nat) (bern : bool) (N : R)
    (Xf Uf Yf omf oyf : matrix) (pf : pathmat) (Zf : list Z)
    (U Y : list matrix) (paths : list pathmat) (Zs : list (list Z))
    (omega omegay : list matrix) (l : list nat) :
  forall (X : list matrix) (sa sb : kstate) (st : St),
    kP sa = kP sb -> kalphas sa = kalphas sb -> kLambdas sa = kLambdas sb ->
    kS sa = kS sb ->
    for_each (map S l)
      (fun idx '(X, s, st) =>
         Xi <- get X idx ;;
         s1 <- filter_forward la D_in D_bias (get (Uf :: U) idx) As Qs C
                 (get (Yf :: Y) idx) (get (pf :: paths) idx)
                 (get (Zf :: Zs) idx) (get (omf :: omega) idx) Rs depth
                 (get (oyf :: omegay) idx) bern N
                 {| kX := Xi; kP := kP s; kalphas := kalphas s;
                    kLambdas := kLambdas s; kS := kS s |} ;;
         '(s2, st') <- sample_backward la rng D_in D_bias (get (Uf :: U) idx)
                         As Qs Qinvs (get (Zf :: Zs) idx) s1 st ;;
         X' <- set_item X idx (kX s2) ;;
         Ok (X', s2, st'))
      (Xf :: X, sa, st)
    = bind
        (for_each l
           (fun idx '(X, s, st) =>
              Xi <- get X idx ;;
              s1 <- filter_forward la D_in D_bias (get U idx) As Qs C
                      (get Y idx) (get paths idx) (get Zs idx) (get omega idx)
                      Rs depth (get omegay idx) bern N
                      {| kX := Xi; kP := kP s; kalphas := kalphas s;
                         kLambdas := kLambdas s; kS := kS s |} ;;
              '(s2, st') <- sample_backward la rng D_in D_bias (get U idx) As
                              Qs Qinvs (get Zs idx) s1 st ;;
              X' <- set_item X idx (kX s2) ;;
              Ok (X', s2, st'))
           (X, sb, st))
        (fun '(X', s', st') =>
           Ok (Xf :: X', match l with [] => sa | _ => s' end, st')).
Proof.
  induction l as [|i l IH]; intros X sa sb st HP Ha HL HS; [reflexivity|].
  cbn [map for_each].
  change (get (Xf :: X) (S i)) with (get X i).
  change (get (Uf :: U) (S i)) with (get U i).
  change (get (Yf :: Y) (S i)) with (get Y i).
  change (get (pf :: paths) (S i)) with (get paths i).
  change (get (Zf :: Zs) (S i)) with (get Zs i).
  change (get (omf :: omega) (S i)) with (get omega i).
  change (get (oyf :: omegay) (S i)) with (get omegay i).
  rewrite HP, Ha, HL, HS.
  destruct (get X i) as [Xi|e]; [cbn [bind]|reflexivity].
  destruct (filter_forward _ _ _ _ _ _ _ _ _ _ _ _ _ _ _ _ _) as [s1|e];
    [cbn [bind]|reflexivity].
  destruct (sample_backward _ _ _ _ _ _ _ _ _ _ _) as [[s2 st']|e];
    [cbn [bind]|reflexivity].
  rewrite set_item_cons.
  destruct (set_item X i (kX s2)) as [X1|e]; [cbn [bind]|reflexivity].
  rewrite (IH X1 s2 s2 st') by reflexivity.
  destruct l as [|j l]; [reflexivity|].
  destruct (for_each (j :: l) _ _) as [[[X' s'] st'']|e]; reflexivity.
Qed.

(** X1: [pg_kalman_batch] on a list of trajectories does to the first
    trajectory what [pg_kalman] does to it, then handles the remaining
    trajectories with the buffers [P], [alphas], [Lambdas] (and the local
    [S]) as that first run left them: the buffers are shared, not reset
    between trajectories.  On a single trajectory the batched variant
    computes what [pg_kalman] computes. *)
Theorem pg_kalman_batch_runs_pg_kalman_in_turn :
  forall (la : LinAlg) (St : Type) (rng : Rng St) (D_in D_bias : nat)
         (Xf : matrix) (X : list matrix) (Uf : matrix) (U : list matrix)
         (P As Qs : list matrix) (C Sy Yf : matrix) (Y : list matrix)
         (pf : pathmat) (paths : list pathmat) (Zf : list Z)
         (Zs : list (list Z)) (omf : matrix) (omega : list matrix)
         (alphas : matrix) (Lambdas Rs : list matrix) (depth : nat)
         (oyf : matrix) (omegay : list matrix) (bern : bool) (N : R)
         (marker : Z) (st : St),
    pg_kalman_batch la rng D_in D_bias (Xf :: X) (Uf :: U) P As Qs C Sy
      (Yf :: Y) (pf :: paths) (Zf :: Zs) (omf :: omega) alphas Lambdas Rs
      depth (oyf :: omegay) bern N st
    = bind
        (pg_kalman la rng D_in D_bias Xf Uf P As Qs C Sy Yf pf Zf omf alphas
           Lambdas Rs depth (Ok oyf) bern N marker st)
        (fun '(s, _, st1) =>
           bind
             (pg_kalman_batch la rng D_in D_bias X U (kP s) As Qs C (kS s) Y
                paths Zs omega (kalphas s) (kLambdas s) Rs depth omegay bern
                N st1)
             (fun '(X', s', st2) =>
                Ok (kX s :: X', match X with [] => s | _ => s' end, st2))).
Proof.
  intros la St rng D_in D_bias Xf X Uf U P As Qs C Sy Yf Y pf paths Zf Zs omf
    omega alphas Lambdas Rs depth oyf omegay bern N marker st.
  unfold pg_kalman_batch, pg_kalman.
  destruct (precompute_Qinvs la D_in Qs) as [Qinvs|e]; [|reflexivity].
  cbn [bind]. unfold range. cbn [length]. rewrite <- cons_seq, <- seq_shift.
  cbn [for_each].
  change (get (Xf :: X) 0) with (Ok Xf).
  change (get (Uf :: U) 0) with (Ok Uf).
  change (get (Yf :: Y) 0) with (Ok Yf).
  change (get (pf :: paths) 0) with (Ok pf).
  change (get (Zf :: Zs) 0) with (Ok Zf).
  change (get (omf :: omega) 0) with (Ok omf).
  change (get (oyf :: omegay) 0) with (@Ok matrix oyf).
  cbn [bind kP kalphas kLambdas kS].
  destruct (filter_forward _ _ _ _ _ _ _ _ _ _ _ _ _ _ _ _ _) as [s1|e];
    [cbn [bind]|reflexivity].
  destruct (sample_backward _ _ _ _ _ _ _ _ _ _ _) as [[s2 st']|e];
    [cbn [bind]|reflexivity].
  change (set_item (Xf :: X) 0 (kX s2)) with (Ok (kX s2 :: X)). cbn [bind].
  rewrite (batch_loop_shift la St rng D_in D_bias As Qs Qinvs C Rs depth bern
             N (kX s2) Uf Yf omf oyf pf Zf U Y paths Zs omega omegay
             (seq 0 (length X)) X s2
             {| kX := []; kP := kP s2; kalphas := kalphas s2;
                kLambdas := kLambdas s2; kS := kS s2 |} st')
    by reflexivity.
  destruct X as [|X1 X]; reflexivity.
Qed.

(** ** The emission mode of the filter *)

Lemma same_outcome_refl {A B : Type} (f : A -> B) (r : result A) :
  same_outcome f r r.
Proof. destruct r; reflexivity. Qed.

(** Two loops whose bodies end alike on related states end alike. *)
Lemma for_each_same_outcome {A S B : Type} (f : S -> B) (xs : list A)
    (body body' : A -> S -> result S) (s s' : S) :
  (forall x a a', In x xs -> f a = f a' ->
                  same_outcome f (body x a) (body' x a')) ->
  f s = f s' ->
  same_outcome f (for_each xs body s) (for_each xs body' s').
Proof.
  revert s s'; induction xs as [|x xs IH]; intros s s' Hstep Hs;
    [exact Hs|].
  cbn [for_each].
  pose proof (Hstep x s s' (or_introl eq_refl) Hs) as H.
  destruct (body x s) as [a|e], (body' x s') as [a'|e']; cbn in H |- *;
    try contradiction; [|exact H].
  apply IH; [|exact H]. intros y u v Hy. apply Hstep. now right.
Qed.

Ltac step_binds :=
  repeat match goal with
         | |- same_outcome _ (bind ?c _) (bind ?c _) =>
             destruct c; cbn [bind]; [|reflexivity]
         end.

(** A forward step with Bernoulli emission does not read the local [S]. *)
Lemma forward_step_bern_ignores_S (la : LinAlg) (D_in D_bias : nat)
    (U : result matrix) (As Qs : list matrix) (C : matrix) (Y : result matrix)
    (paths : result pathmat) (Zs : result (list Z)) (omega : result matrix)
    (Rs : list matrix) (depth : nat) (omegay : result matrix) (N : R)
    (t : nat) (s s' : kstate) :
  buffers s = buffers s' ->
  forward_step la D_in D_bias U As Qs C Y paths Zs omega Rs depth omegay true
    N t s
  = forward_step la D_in D_bias U As Qs C Y paths Zs omega Rs depth omegay
      true N t s'.
Proof.
  destruct s as [X P al La Sy], s' as [X' P' al' La' Sy'].
  unfold buffers. cbn. intros H. inversion H; subst.
  reflexivity.
Qed.

Lemma sample_last_buffers (la : LinAlg) (eps : matrix) (s s' : kstate) :
  buffers s = buffers s' ->
  same_outcome buffers (sample_last la eps s) (sample_last la eps s').
Proof.
  destruct s as [X P al La Sy], s' as [X' P' al' La' Sy'].
  unfold buffers. cbn. intros H. inversion H; subst.
  unfold sample_last. cbn [kX kP kalphas kLambdas kS].
  step_binds. reflexivity.
Qed.

Lemma backward_step_buffers (la : LinAlg) (D_in D_bias : nat)
    (U : result matrix) (As Qs Qinvs : list matrix) (Zs : result (list Z))
    (eps : matrix) (t : nat) (s s' : kstate) :
  buffers s = buffers s' ->
  same_outcome buffers
    (backward_step la D_in D_bias U As Qs Qinvs Zs eps t s)
    (backward_step la D_in D_bias U As Qs Qinvs Zs eps t s').
Proof.
  destruct s as [X P al La Sy], s' as [X' P' al' La' Sy'].
  unfold buffers. cbn. intros H. inversion H; subst.
  unfold backward_step, backward_moments. cbn [kX kP kalphas kLambdas kS].
  step_binds. destruct a. step_binds. reflexivity.
Qed.

Lemma filter_forward_bern_ignores_S (la : LinAlg) (D_in D_bias : nat)
    (U : result matrix) (As Qs : list matrix) (C : matrix) (Y : result matrix)
    (paths : result pathmat) (Zs : result (list Z)) (omega : result matrix)
    (Rs : list matrix) (depth : nat) (omegay : result matrix) (N : R)
    (s s' : kstate) :
  buffers s = buffers s' ->
  same_outcome buffers
    (filter_forward la D_in D_bias U As Qs C Y paths Zs omega Rs depth omegay
       true N s)
    (filter_forward la D_in D_bias U As Qs C Y paths Zs omega Rs depth omegay
       true N s').
Proof.
  intros H. unfold filter_forward.
  assert (HX : kX s = kX s') by (unfold buffers in H; congruence).
  rewrite <- HX. destruct (get (kX s) 0) as [row0|e]; [cbn [bind]|reflexivity].
  apply for_each_same_outcome; [|exact H].
  intros t a a' _ Ha.
  rewrite (forward_step_bern_ignores_S la D_in D_bias U As Qs C Y paths Zs
             omega Rs depth omegay N t a a' Ha).
  apply same_outcome_refl.
Qed.

Lemma sample_backward_buffers (la : LinAlg) (St : Type) (rng : Rng St)
    (D_in D_bias : nat) (U : result matrix) (As Qs Qinvs : list matrix)
    (Zs : result (list Z)) (s s' : kstate) (st : St) :
  buffers s = buffers s' ->
  same_outcome (fun r : kstate * St => (buffers (fst r), snd r))
    (sample_backward la rng D_in D_bias U As Qs Qinvs Zs s st)
    (sample_backward la rng D_in D_bias U As Qs Qinvs Zs s' st).
Proof.
  intros H. unfold sample_backward.
  assert (HX : kX s = kX s') by (unfold buffers in H; congruence).
  rewrite <- HX.
  destruct (normal rng (nrows (kX s)) (ncols (kX s)) st) as [eps st'].
  pose proof (sample_last_buffers la eps s s' H) as H1.
  destruct (sample_last la eps s) as [a|e], (sample_last la eps s') as [a'|e'];
    cbn in H1 |- *; try contradiction; [|exact H1].
  pose proof (for_each_same_outcome buffers (range_down (ncols (kX s) - 1))
                (backward_step la D_in D_bias U As Qs Qinvs Zs eps)
                (backward_step la D_in D_bias U As Qs Qinvs Zs eps) a a'
                (fun t u v _ Huv =>
                   backward_step_buffers la D_in D_bias U As Qs Qinvs Zs eps
                     t u v Huv) H1) as H2.
  destruct (for_each _ _ a) as [b|e], (for_each _ _ a') as [b'|e'];
    cbn in H2 |- *; try contradiction; [|exact H2].
  now rewrite H2.
Qed.

(** X2: with Gaussian emission ([bern=False]) [pg_kalman] and
    [pg_kalman_batch] never read [omegay] or [N]; with Bernoulli emission
    ([bern=True]) [pg_kalman] never reads its argument [S], the noise
    covariance of every step being [diag(1 / omegay[:, t])]: the arrays
    left in [X], [P], [alphas], [Lambdas], the marker, the generator state
    and the exception raised, if any, are the same for every [S]. *)
Theorem pg_kalman_reads_only_its_emission_mode :
  forall (la : LinAlg) (St : Type) (rng : Rng St) (D_in D_bias : nat)
         (P As Qs : list matrix) (C : matrix) (alphas : matrix)
         (Lambdas Rs : list matrix) (depth : nat),
    (forall X U Sy Y paths Zs omega omegay omegay' N N' marker st,
        pg_kalman la rng D_in D_bias X U P As Qs C Sy Y paths Zs omega alphas
          Lambdas Rs depth omegay false N marker st
        = pg_kalman la rng D_in D_bias X U P As Qs C Sy Y paths Zs omega
            alphas Lambdas Rs depth omegay' false N' marker st)
    /\ (forall X U Sy Y paths Zs omega omegay omegay' N N' st,
          pg_kalman_batch la rng D_in D_bias X U P As Qs C Sy Y paths Zs omega
            alphas Lambdas Rs depth omegay false N st
          = pg_kalman_batch la rng D_in D_bias X U P As Qs C Sy Y paths Zs
              omega alphas Lambdas Rs depth omegay' false N' st)
    /\ (forall X U Sy Sy' Y paths Zs omega omegay N marker st,
          same_outcome
            (fun r : kstate * Z * St =>
               (buffers (fst (fst r)), snd (fst r), snd r))
            (pg_kalman la rng D_in D_bias X U P As Qs C Sy Y paths Zs omega
               alphas Lambdas Rs depth omegay true N marker st)
            (pg_kalman la rng D_in D_bias X U P As Qs C Sy' Y paths Zs omega
               alphas Lambdas Rs depth omegay true N marker st)).
Proof.
  intros la St rng D_in D_bias P As Qs C alphas Lambdas Rs depth.
  split; [|split].
  - intros. reflexivity.
  - intros. reflexivity.
  - intros X U Sy Sy' Y paths Zs omega omegay N marker st.
    unfold pg_kalman.
    destruct (precompute_Qinvs la D_in Qs) as [Qinvs|e]; [|reflexivity].
    cbn [bind].
    pose proof (filter_forward_bern_ignores_S la D_in D_bias (Ok U) As Qs C
                  (Ok Y) (Ok paths) (Ok Zs) (Ok omega) Rs depth omegay N
                  {| kX := X; kP := P; kalphas := alphas; kLambdas := Lambdas;
                     kS := Sy |}
                  {| kX := X; kP := P; kalphas := alphas; kLambdas := Lambdas;
                     kS := Sy' |} eq_refl) as H1.
    destruct (filter_forward _ _ _ _ _ _ _ _ _ _ _ _ _ _ _ _
                {| kX := X; kP := P; kalphas := alphas; kLambdas := Lambdas;
                   kS := Sy |}) as [a|e],
             (filter_forward _ _ _ _ _ _ _ _ _ _ _ _ _ _ _ _
                {| kX := X; kP := P; kalphas := alphas; kLambdas := Lambdas;
                   kS := Sy' |}) as [a'|e'];
      cbn in H1 |- *; try contradiction; [|exact H1].
    pose proof (sample_backward_buffers la St rng D_in D_bias (Ok U) As Qs
                  Qinvs (Ok Zs) a a' st H1) as H2.
    destruct (sample_backward _ _ _ _ _ _ _ _ _ a st) as [[b st1]|e],
             (sample_backward _ _ _ _ _ _ _ _ _ a' st) as [[b' st1']|e'];
      cbn in H2 |- *; try contradiction; [|exact H2].
    inversion H2 as [[HX HP Ha HL Hst]]. unfold buffers.
    now rewrite HX, HP, Ha, HL.
Qed.

(** ** Paths that stop at the root, and trajectories of one time step *)

Lemma tree_prior_root_only (la : LinAlg) (X : matrix) (P : list matrix)
    (ps : pathmat) (omega : result matrix) (Rs : list matrix)
    (depth t : nat) (root : option Z) (Pt Pinv Lam : matrix) (x : vec) :
  (2 <= depth)%nat ->
  get2 ps 0 t = Ok root ->
  (forall d, (1 <= d < depth)%nat -> get2 ps d t = Ok None) ->
  get P t = Ok Pt -> inv la Pt = Ok Pinv -> inv la Pinv = Ok Lam ->
  col X t = Ok x ->
  tree_prior la X P (Ok ps) omega Rs depth t = Raise AttributeError.
Proof.
  intros Hd Hroot Hnan HP HPinv HLam Hx. unfold tree_prior.
  destruct (Nat.eqb_spec depth 1) as [->|_]; [lia|].
  assert (Hpot : tree_potentials (Ok ps) omega Rs depth t = Ok (None, None)).
  { unfold tree_potentials, range. apply for_each_skip.
    intros d acc Hin. apply in_seq in Hin.
    destruct d as [|d].
    - apply (tree_level_below_leaf ps omega Rs t 0 root); [exact Hroot|].
      apply Hnan. lia.
    - apply (tree_level_below_leaf ps omega Rs t (S d) None);
        apply Hnan; lia. }
  rewrite Hpot. cbn [bind]. rewrite HP. cbn [bind]. rewrite HPinv.
  cbn [bind]. rewrite HLam. cbn [bind]. rewrite Hx. reflexivity.
Qed.

(** X3: under a tree of depth at least 2, a time step whose path holds
    NaN at every level below the root leaves both accumulators at the
    integer 0; once [P[:, :, t]] and its inverse have been inverted, the
    forward step raises [AttributeError] at [temp_mu.T].  When this
    happens at the first time step of a trajectory of at least two time
    steps, [pg_kalman] raises it. *)
Theorem pg_kalman_root_only_path_raises :
  forall (la : LinAlg) (D_in D_bias : nat) (As Qs : list matrix) (C : matrix)
         (ps : pathmat) (Rs : list matrix) (depth : nat) (bern : bool) (N : R),
    (2 <= depth)%nat ->
    (forall U Y Zs omega omegay t s root Pt Pinv Lam x,
        get2 ps 0 t = Ok root ->
        (forall d, (1 <= d < depth)%nat -> get2 ps d t = Ok None) ->
        get (kP s) t = Ok Pt -> inv la Pt = Ok Pinv -> inv la Pinv = Ok Lam ->
        col (kX s) t = Ok x ->
        tree_potentials (Ok ps) omega Rs depth t = Ok (None, None)
        /\ forward_step la D_in D_bias U As Qs C Y (Ok ps) Zs omega Rs depth
             omegay bern N t s = Raise AttributeError)
    /\ (forall (St : Type) (rng : Rng St) X U P Sy Y Zs omega alphas Lambdas
               omegay marker st Qinvs row0 root Pt Pinv Lam,
          precompute_Qinvs la D_in Qs = Ok Qinvs ->
          get X 0 = Ok row0 -> (2 <= length row0)%nat ->
          get2 ps 0 0 = Ok root ->
          (forall d, (1 <= d < depth)%nat -> get2 ps d 0 = Ok None) ->
          get P 0 = Ok Pt -> inv la Pt = Ok Pinv -> inv la Pinv = Ok Lam ->
          pg_kalman la rng D_in D_bias X U P As Qs C Sy Y ps Zs omega alphas
            Lambdas Rs depth omegay bern N marker st = Raise AttributeError).
Proof.
  intros la D_in D_bias As Qs C ps Rs depth bern N Hd. split.
  - intros U Y Zs omega omegay t s root Pt Pinv Lam x Hroot Hnan HP HPinv HLam
      Hx.
    split.
    + unfold tree_potentials, range. apply for_each_skip.
      intros d acc Hin. apply in_seq in Hin. destruct d as [|d].
      * apply (tree_level_below_leaf ps omega Rs t 0 root); [exact Hroot|].
        apply Hnan. lia.
      * apply (tree_level_below_leaf ps omega Rs t (S d) None);
          apply Hnan; lia.
    + unfold forward_step.
      now rewrite (tree_prior_root_only la (kX s) (kP s) ps omega Rs depth t
                     root Pt Pinv Lam x).
  - intros St rng X U P Sy Y Zs omega alphas Lambdas omegay marker st Qinvs
      row0 root Pt Pinv Lam HQ Hrow Hlen Hroot Hnan HP HPinv HLam.
    unfold pg_kalman. rewrite HQ. cbn [bind]. unfold filter_forward.
    cbn [kX]. rewrite Hrow. cbn [bind]. unfold range.
    destruct (length row0 - 1)%nat as [|n] eqn:En; [lia|].
    cbn [seq for_each]. unfold forward_step at 1. cbn [kX kP].
    assert (Hx : exists x, col X 0 = Ok x).
    { unfold col, col_of, width. destruct X as [|r X]; [discriminate|].
      inversion Hrow; subst r. cbn [hd].
      destruct (Nat.ltb_spec 0 (length row0)); [eauto | lia]. }
    destruct Hx as (x & Hx).
    now rewrite (tree_prior_root_only la X P ps (Ok omega) Rs depth 0 root Pt
                   Pinv Lam x).
Qed.

Lemma pg_kalman_root_only_path_witness :
  pg_kalman exact_la stream_rng 1 1 [[0; 0]] [[0; 0]] [[[1]]; [[1]]] As1 Qs_two
    [[1; 0]] [[2]] [[1; 1]] [[Some 1%Z; Some 1%Z]; [None; None]] [0; 0]%Z
    [[1; 1]] [[0; 0]] [[[1]]; [[1]]] Rs1 2 (Raise TypeError) false 1 1%Z
    noise11 = Raise AttributeError.
Proof.
  destruct (pg_kalman_root_only_path_raises exact_la 1 1 As1 Qs_two [[1; 0]]
              [[Some 1%Z; Some 1%Z]; [None; None]] Rs1 2 false 1)
    as (_ & H); [lia|].
  eapply H.
  - exact precompute_Qinvs_two.
  - reflexivity.
  - cbn. lia.
  - reflexivity.
  - intros d Hd. replace d with 1%nat by lia. reflexivity.
  - reflexivity.
  - apply exact_inv_1.
  - apply exact_inv_1.
Defined.

(** X4: on a trajectory of a single time step [pg_kalman] runs neither
    loop: once the leaf noise covariances are factored it adds
    [cholesky(P[:, :, 0]) @ eps[:, 0]] to the only column of [X] and
    leaves [P], [alphas] and [Lambdas] as they were, whatever the
    dynamics, the emission, the observations, the path and the depth. *)
Theorem pg_kalman_single_time_step :
  forall (la : LinAlg) (St : Type) (rng : Rng St) (D_in D_bias : nat)
         (X U : matrix) (P As Qs : list matrix) (C Sy Y : matrix)
         (paths : pathmat) (Zs : list Z) (omega alphas : matrix)
         (Lambdas Rs : list matrix) (depth : nat) (omegay : result matrix)
         (bern : bool) (N : R) (marker : Z) (st st' : St)
         (Qinvs : list matrix) (row0 e : vec) (eps P0 L : matrix),
    precompute_Qinvs la D_in Qs = Ok Qinvs ->
    get X 0 = Ok row0 -> length row0 = 1%nat ->
    normal rng (nrows X) (ncols X) st = (eps, st') ->
    last_col eps = Ok e ->
    get P 0 = Ok P0 -> cholesky la P0 = Ok L ->
    pg_kalman la rng D_in D_bias X U P As Qs C Sy Y paths Zs omega alphas
      Lambdas Rs depth omegay bern N marker st
    = bind (set_col X 0 (vadd (column X 0) (mat_vec L e)))
        (fun X' =>
           Ok ({| kX := X'; kP := P; kalphas := alphas; kLambdas := Lambdas;
                  kS := Sy |}, marker, st')).
Proof.
  intros la St rng D_in D_bias X U P As Qs C Sy Y paths Zs omega alphas
    Lambdas Rs depth omegay bern N marker st st' Qinvs row0 e eps P0 L
    HQ Hrow Hlen Hnorm He HP HL.
  assert (Hw : ncols X = 1%nat).
  { unfold ncols, width. destruct X as [|r X]; [discriminate|].
    inversion Hrow; subst r. exact Hlen. }
  unfold pg_kalman. rewrite HQ. cbn [bind]. unfold filter_forward.
  cbn [kX]. rewrite Hrow. cbn [bind]. rewrite Hlen. cbn [Nat.sub range seq for_each bind].
  unfold sample_backward. cbn [kX]. rewrite Hnorm.
  unfold sample_last. cbn [kX kP kalphas kLambdas kS].
  unfold last_col at 1. rewrite Hw. unfold col, col_of. fold (ncols X).
  rewrite Hw. cbn [Nat.ltb Nat.leb bind]. rewrite Hrow. cbn [bind].
  rewrite Hlen. cbn [Nat.sub]. rewrite HP. cbn [bind]. rewrite HL.
  cbn [bind]. rewrite He. cbn [bind]. fold (column X 0).
  unfold set_col.
  destruct (set_col_of X 0 _) as [X'|err]; [|reflexivity].
  cbn [bind kX]. unfold range_down. cbn [Nat.sub seq rev for_each bind].
  reflexivity.
Qed.

Lemma pg_kalman_single_time_step_witness :
  pg_kalman exact_la stream_rng 1 1 [[3]] [[0]] [[[4]]] As1 Qs_two [[1; 0]]
    [[2]] [] [] [0]%Z [] [[0]] [[[1]]] [] 1 (Raise TypeError) false 1 1%Z
    noise11
  = Ok ({| kX := [[5]]; kP := [[[4]]]; kalphas := [[0]]; kLambdas := [[[1]]];
           kS := [[2]] |}, 1%Z, {| normals := [1]; picks := [] |}).
Proof.
  rewrite (pg_kalman_single_time_step exact_la tape stream_rng 1 1 [[3]] [[0]]
             [[[4]]] As1 Qs_two [[1; 0]] [[2]] [] [] [0]%Z [] [[0]] [[[1]]]
             [] 1 (Raise TypeError) false 1 1%Z noise11
             {| normals := [1]; picks := [] |}
             [mat_mul (transpose [[/ sqrt 2]]) [[/ sqrt 2]]] [3] [1] [[1]]
             [[4]] [[2]]).
  - cbn. replace (3 + (2 * 1 + 0)) with 5 by lra. reflexivity.
  - exact precompute_Qinvs_two.
  - reflexivity.
  - reflexivity.
  - reflexivity.
  - reflexivity.
  - reflexivity.
  - rewrite <- sqrt_4. apply (exact_cholesky_scalar 4). lra.
Defined.
(** ** What the filter leaves untouched *)

Lemma map_length_set_col (M M' : matrix) (t : nat) (v : vec) :
  set_col M t v = Ok M' -> map (@length R) M' = map (@length R) M.
Proof.
  intros H. apply set_col_of_ok in H as (_ & Hl & ->).
  revert v Hl; induction M as [|r M IH]; intros [|x v] Hl; simpl in *;
    try discriminate; auto.
  f_equal; [apply length_upd | apply IH; lia].
Qed.

Lemma column_set_col_frame (M M' : matrix) (t k : nat) (v : vec) :
  set_col M t v = Ok M' -> k <> t -> column M' k = column M k.
Proof.
  intros H Hk. apply set_col_of_ok in H as (_ & Hl & ->).
  unfold column. apply column_set_col_other; auto.
Qed.

(** A forward step writes column [t + 1] of [X], slice [t + 1] of [P],
    column [t] of [alphas] and slice [t] of [Lambdas], and nothing else. *)
Lemma forward_step_frame (la : LinAlg) (D_in D_bias : nat) (U : result matrix)
    (As Qs : list matrix) (C : matrix) (Y : result matrix)
    (paths : result pathmat) (Zs : result (list Z)) (omega : result matrix)
    (Rs : list matrix) (depth : nat) (omegay : result matrix) (bern : bool)
    (N : R) (t : nat) (s s' : kstate) :
  forward_step la D_in D_bias U As Qs C Y paths Zs omega Rs depth omegay bern
    N t s = Ok s' ->
  map (@length R) (kX s') = map (@length R) (kX s)
  /\ map (@length R) (kalphas s') = map (@length R) (kalphas s)
  /\ length (kP s') = length (kP s)
  /\ length (kLambdas s') = length (kLambdas s)
  /\ (forall k, k <> (t + 1)%nat ->
        nth k (kP s') [] = nth k (kP s) []
        /\ column (kX s') k = column (kX s) k)
  /\ (forall k, k <> t ->
        nth k (kLambdas s') [] = nth k (kLambdas s) []
        /\ column (kalphas s') k = column (kalphas s) k).
Proof.
  intros H. apply forward_step_inv in H
    as (alpha & Lambda & Zi & Zt & Q & Ak & Ui & ut & Sy & yt & x_new
        & P_temp & _ & _ & _ & _ & _ & _ & _ & _ & _ & HX & _ & HP & Hal & _
        & HL & _).
  rewrite HP, HL, !length_upd.
  split; [now apply (map_length_set_col _ _ (t + 1) x_new)|].
  split; [now apply (map_length_set_col _ _ t alpha)|].
  split; [reflexivity|]. split; [reflexivity|]. split.
  - intros k Hk. split; [apply nth_upd_other; auto|].
    now apply (column_set_col_frame _ _ (t + 1) k x_new).
  - intros k Hk. split; [apply nth_upd_other; auto|].
    now apply (column_set_col_frame _ _ t k alpha).
Qed.

(** The backward pass writes [X] only. *)
Lemma sample_backward_frame (la : LinAlg) (St : Type) (rng : Rng St)
    (D_in D_bias : nat) (U : result matrix) (As Qs Qinvs : list matrix)
    (Zs : result (list Z)) (s s' : kstate) (st st' : St) :
  sample_backward la rng D_in D_bias U As Qs Qinvs Zs s st = Ok (s', st') ->
  map (@length R) (kX s') = map (@length R) (kX s)
  /\ kP s' = kP s /\ kalphas s' = kalphas s /\ kLambdas s' = kLambdas s
  /\ kS s' = kS s.
Proof.
  unfold sample_backward.
  destruct (normal rng (nrows (kX s)) (ncols (kX s)) st) as [eps st1].
  intros H. apply bind_ok in H as (s1 & H1 & H).
  apply bind_ok in H as (s2 & H2 & H). inversion H; subst s2 st1; clear H.
  set (I := fun a : kstate =>
              map (@length R) (kX a) = map (@length R) (kX s)
              /\ kP a = kP s /\ kalphas a = kalphas s
              /\ kLambdas a = kLambdas s /\ kS a = kS s).
  assert (I1 : I s1).
  { unfold sample_last in H1.
    apply bind_ok in H1 as (x_last & _ & H1).
    apply bind_ok in H1 as (row0 & _ & H1).
    apply bind_ok in H1 as (P_last & _ & H1).
    apply bind_ok in H1 as (L & _ & H1).
    apply bind_ok in H1 as (e & _ & H1).
    apply bind_ok in H1 as (X' & HX & H1). inversion H1; subst s1.
    unfold I. cbn. repeat split.
    now apply (map_length_set_col _ _ _ _ HX). }
  refine (for_each_invariant I _ _ s1 s' _ I1 H2).
  intros t a b _ (Ia & IP & Ial & IL & IS) Hb. unfold backward_step in Hb.
  apply bind_ok in Hb as ([mu_n Pn] & _ & Hb).
  apply bind_ok in Hb as (L & _ & Hb).
  apply bind_ok in Hb as (e & _ & Hb).
  apply bind_ok in Hb as (X' & HX & Hb). inversion Hb; subst b.
  unfold I. cbn. repeat split; auto.
  rewrite <- Ia. now apply (map_length_set_col _ _ _ _ HX).
Qed.

Lemma filter_forward_frame (la : LinAlg) (D_in D_bias : nat) (U : result matrix)
    (As Qs : list matrix) (C : matrix) (Y : result matrix)
    (paths : result pathmat) (Zs : result (list Z)) (omega : result matrix)
    (Rs : list matrix) (depth : nat) (omegay : result matrix) (bern : bool)
    (N : R) (s s' : kstate) :
  filter_forward la D_in D_bias U As Qs C Y paths Zs omega Rs depth omegay
    bern N s = Ok s' ->
  map (@length R) (kX s') = map (@length R) (kX s)
  /\ map (@length R) (kalphas s') = map (@length R) (kalphas s)
  /\ length (kP s') = length (kP s)
  /\ length (kLambdas s') = length (kLambdas s)
  /\ column (kX s') 0 = column (kX s) 0
  /\ (forall k, k = 0%nat \/ (ncols (kX s) <= k)%nat ->
        nth k (kP s') [] = nth k (kP s) [])
  /\ (forall k, (ncols (kX s) - 1 <= k)%nat ->
        nth k (kLambdas s') [] = nth k (kLambdas s) []
        /\ column (kalphas s') k = column (kalphas s) k).
Proof.
  unfold filter_forward. intros H. apply bind_ok in H as (row0 & Hrow & H).
  assert (Hw : ncols (kX s) = length row0).
  { unfold ncols, width. destruct (kX s) as [|r X]; [discriminate|].
    now inversion Hrow. }
  rewrite Hw.
  set (I := fun a : kstate =>
    map (@length R) (kX a) = map (@length R) (kX s)
    /\ map (@length R) (kalphas a) = map (@length R) (kalphas s)
    /\ length (kP a) = length (kP s)
    /\ length (kLambdas a) = length (kLambdas s)
    /\ column (kX a) 0 = column (kX s) 0
    /\ (forall k, k = 0%nat \/ (length row0 <= k)%nat ->
          nth k (kP a) [] = nth k (kP s) [])
    /\ (forall k, (length row0 - 1 <= k)%nat ->
          nth k (kLambdas a) [] = nth k (kLambdas s) []
          /\ column (kalphas a) k = column (kalphas s) k)).
  refine (for_each_invariant I _ _ s s' _ _ H).
  - intros t a b Ht (I1 & I2 & I3 & I4 & I5 & I6 & I7) Hb.
    apply in_seq in Ht.
    apply forward_step_frame in Hb as (F1 & F2 & F3 & F4 & F5 & F6).
    unfold I. rewrite F1, F2, F3, F4.
    split; [exact I1|]. split; [exact I2|]. split; [exact I3|].
    split; [exact I4|]. split; [rewrite <- I5; apply F5; lia|]. split.
    + intros k Hk. rewrite <- I6 by exact Hk. apply F5. lia.
    + intros k Hk. destruct (I7 k Hk) as [<- <-]. apply F6. lia.
  - unfold I. repeat split; auto.
Qed.




(** ** The precision accumulated along the path *)

Lemma outer_tabulate (u v : vec) :
  outer u v
  = tabulate (length u) (length v) (fun i j => nth i u 0 * nth j v 0).
Proof.
  unfold outer, tabulate.
  rewrite (vec_as_map u) at 1. rewrite map_map.
  apply map_ext. intros i.
  rewrite (vec_as_map v) at 1. rewrite map_map. reflexivity.
Qed.

Lemma symmetric_entry (n : nat) (M : matrix) (i j : nat) :
  shape n n M -> symmetric M -> (i < n)%nat -> (j < n)%nat ->
  entry M i j = entry M j i.
Proof.
  intros Hsh Hsym Hi Hj. unfold symmetric in Hsym.
  rewrite <- Hsym at 1.
  rewrite (shape_as_tabulate n n M Hsh).
  rewrite transpose_tabulate by lia.
  now rewrite !entry_tabulate.
Qed.

Lemma symmetric_tabulate (n : nat) (f : nat -> nat -> R) :
  (forall i j, (i < n)%nat -> (j < n)%nat -> f i j = f j i) ->
  symmetric (tabulate n n f).
Proof.
  intros H. unfold symmetric. destruct n as [|n]; [reflexivity|].
  rewrite transpose_tabulate by lia.
  apply tabulate_ext. intros i j Hi Hj. now apply H.
Qed.

(** [w r r^T] is symmetric, and positive semi-definite for [w >= 0]. *)
Lemma rank_one_psd (D : nat) (w : R) (r : vec) :
  length r = D -> 0 <= w ->
  shape D D (mat_scale w (outer r r))
  /\ symmetric (mat_scale w (outer r r))
  /\ pos_semidef D (mat_scale w (outer r r)).
Proof.
  intros Hr Hw. rewrite outer_tabulate, Hr, mat_scale_tabulate.
  split; [apply shape_tabulate|]. split.
  - apply symmetric_tabulate. intros i j _ _. lra.
  - intros x Hx. rewrite quad_form_tabulate by exact Hx.
    set (S1 := sum_upto D (fun j => nth j r 0 * nth j x 0)).
    rewrite (sum_upto_ext D _ (fun i => (w * S1) * (nth i r 0 * nth i x 0))).
    + rewrite sum_upto_scal. fold S1. nra.
    + intros i _. unfold S1. rewrite <- sum_upto_scal.
      rewrite Rmult_comm. rewrite <- sum_upto_scal.
      apply sum_upto_ext. intros j _. lra.
Qed.

Lemma psd_mat_add (D : nat) (A B : matrix) :
  shape D D A -> symmetric A -> pos_semidef D A ->
  shape D D B -> symmetric B -> pos_semidef D B ->
  shape D D (mat_add A B) /\ symmetric (mat_add A B)
  /\ pos_semidef D (mat_add A B).
Proof.
  intros HA SA PA HB SB PB.
  assert (E : mat_add A B
              = tabulate D D (fun i j => entry A i j + entry B i j)).
  { rewrite (shape_as_tabulate D D A HA) at 1.
    rewrite (shape_as_tabulate D D B HB) at 1.
    now rewrite mat_add_tabulate, !Nat.min_id. }
  rewrite E. split; [apply shape_tabulate|]. split.
  - apply symmetric_tabulate. intros i j Hi Hj.
    now rewrite (symmetric_entry D A i j), (symmetric_entry D B i j).
  - intros x Hx. rewrite quad_form_tabulate by exact Hx.
    specialize (PA x Hx). specialize (PB x Hx).
    rewrite (quad_form_shape D A x HA Hx) in PA.
    rewrite (quad_form_shape D B x HB Hx) in PB.
    rewrite (sum_upto_ext D _
               (fun i => sum_upto D
                           (fun j => nth i x 0 * entry A i j * nth j x 0)
                         + sum_upto D
                             (fun j => nth i x 0 * entry B i j * nth j x 0))).
    + rewrite sum_upto_plus. lra.
    + intros i _. rewrite <- sum_upto_plus. apply sum_upto_ext.
      intros j _. lra.
Qed.

Lemma length_col_at (Rd : matrix) (j : Z) (c : vec) :
  col_at 0 Rd j = Ok c -> length c = nrows Rd.
Proof.
  unfold col_at, col_of. intros H.
  repeat match type of H with
         | (if ?b then _ else _) = _ => destruct b
         end; inversion H; apply length_map.
Qed.

(** What a level that returns has done to the accumulators. *)
Lemma tree_level_inv (ps : pathmat) (omega : result matrix) (Rs : list matrix)
    (t d : nat) (J J' : option matrix) (mu mu' : option vec) :
  tree_level (Ok ps) omega Rs t d (J, mu) = Ok (J', mu') ->
  (J' = J /\ mu' = mu /\ get2 ps (d + 1) t = Ok None)
  \/ exists Rd Rcol w loc fin,
       get2 ps d t = Ok (Some loc) /\ get2 ps (d + 1) t = Ok (Some fin)
       /\ get Rs d = Ok Rd /\ col_at 0 Rd (loc - 1) = Ok Rcol
       /\ bind omega (fun om => get2 om d t) = Ok w
       /\ J' = acc_add mat_add J
                 (mat_scale w (outer (removelast Rcol) (removelast Rcol)))
       /\ mu' = acc_add vadd mu
                  (vscale (branch_sign fin - w * last Rcol 0)
                     (removelast Rcol)).
Proof.
  unfold tree_level. cbn [bind]. intros H.
  apply bind_ok in H as (loc & Hloc & H).
  apply bind_ok in H as (fin & Hfin & H).
  destruct fin as [fin|].
  - right. apply bind_ok in H as (Rd & HRd & H).
    destruct loc as [loc|]; [|discriminate].
    apply bind_ok in H as (Rcol & HRcol & H).
    apply bind_ok in H as (om & Hom & H).
    apply bind_ok in H as (w & Hw & H). inversion H; subst.
    exists Rd, Rcol, w, loc, fin. cbn [bind]. auto 10.
  - left. inversion H. auto.
Qed.

(** X6: the accumulators [J] and [temp_mu] of a time step are both still
    the integer 0 or both arrays; when every hyperplane array of the
    levels traversed has [D + 1] rows and the Polya-Gamma variates read
    are non-negative, [J] is a symmetric, positive semi-definite
    [D x D] array and [temp_mu] has [D] entries. *)
Theorem tree_potentials_symmetric_psd :
  forall (ps : pathmat) (omega : result matrix) (Rs : list matrix)
         (depth t D : nat) (J : option matrix) (temp_mu : option vec),
    (forall d Rd, (d < depth - 1)%nat -> get Rs d = Ok Rd ->
                  nrows Rd = S D) ->
    (forall d w, (d < depth - 1)%nat ->
                 bind omega (fun om => get2 om d t) = Ok w -> 0 <= w) ->
    tree_potentials (Ok ps) omega Rs depth t = Ok (J, temp_mu) ->
    match J, temp_mu with
    | None, None => True
    | Some J, Some temp_mu =>
        shape D D J /\ symmetric J /\ pos_semidef D J /\ length temp_mu = D
    | _, _ => False
    end.
Proof.
  intros ps omega Rs depth t D J temp_mu HR Hw H.
  unfold tree_potentials in H.
  set (I := fun acc : option matrix * option vec =>
              match fst acc, snd acc with
              | None, None => True
              | Some J, Some temp_mu =>
                  shape D D J /\ symmetric J /\ pos_semidef D J
                  /\ length temp_mu = D
              | _, _ => False
              end).
  change (I (J, temp_mu)).
  refine (for_each_invariant I _ _ _ _ _ _ H); [|exact Logic.I].
  intros d [Ja ma] [Jb mb] Hd Ha Hb. apply in_seq in Hd.
  apply tree_level_inv in Hb
    as [(-> & -> & _)
       |(Rd & Rcol & w & loc & fin & _ & _ & HRd & HRcol & Hom & -> & ->)];
    [exact Ha|].
  assert (Hlen : length (removelast Rcol) = D).
  { rewrite length_removelast_R, (length_col_at Rd (loc - 1) Rcol HRcol).
    rewrite (HR d Rd) by (auto; lia). lia. }
  destruct (rank_one_psd D w (removelast Rcol) Hlen) as (R1 & R2 & R3);
    [apply (Hw d); auto; lia|].
  unfold I in *. cbn [fst snd] in *.
  destruct Ja as [Ja|], ma as [ma|]; cbn [acc_add]; try contradiction.
  - destruct Ha as (A1 & A2 & A3 & A4).
    destruct (psd_mat_add D Ja _ A1 A2 A3 R1 R2 R3) as (B1 & B2 & B3).
    repeat split; auto; try apply B1.
    unfold vadd, vscale. rewrite length_zip_with, length_map. lia.
  - repeat split; auto; try apply R1.
    unfold vscale. now rewrite length_map.
Qed.

Lemma tree_potentials_symmetric_psd_witness :
  match tree_potentials (Ok short_path) (Ok omega3) Rs3 3 0 with
  | Ok (Some J, Some temp_mu) =>
      shape 1 1 J /\ symmetric J /\ pos_semidef 1 J /\ length temp_mu = 1%nat
  | _ => False
  end.
Proof.
  pose proof (tree_potentials_symmetric_psd short_path (Ok omega3) Rs3 3 0 1)
    as H.
  destruct (tree_potentials (Ok short_path) (Ok omega3) Rs3 3 0)
    as [[[J|] [m|]]|e] eqn:E; try discriminate E.
  apply (H (Some J) (Some m)).
  - intros d Rd Hd HRd. destruct d as [|[|d]]; [| |lia];
      inversion HRd; reflexivity.
  - intros d w Hd Hw. destruct d as [|[|d]]; [| |lia];
      inversion Hw; lra.
  - reflexivity.
Defined.

(** ** Normalising twice *)





(** ** Masked time steps *)

Lemma select_agree {A : Type} (d : A) (bm : list bool) (l l' : list A) :
  length l = length l' ->
  (forall t, nth t bm false = true -> nth t l d = nth t l' d) ->
  select bm l = select bm l'.
Proof.
  revert l l'; induction bm as [|b bm IH]; intros [|a l] [|a' l'] Hl H;
    try discriminate; try reflexivity.
  cbn [select]. simpl in Hl.
  rewrite (IH l l') by (auto; intros t Ht; apply (H (S t) Ht)).
  destruct b; [|reflexivity].
  f_equal. exact (H 0%nat eq_refl).
Qed.

Lemma transpose_columns (m n : nat) (M : matrix) :
  (0 < m)%nat -> shape m n M -> transpose M = map (column M) (seq 0 n).
Proof.
  intros Hm [Hl Hrows]. unfold transpose, ncols, width, column.
  destruct M as [|r M]; [simpl in Hl; lia|]. cbn [hd].
  inversion Hrows; subst. reflexivity.
Qed.

(** Rows of the transposes selected by a mask agree when the arrays
    agree on the columns the mask keeps. *)
Lemma select_transpose_agree (m n : nat) (bm : list bool) (A B : matrix) :
  (0 < m)%nat -> shape m n A -> shape m n B ->
  (forall t, nth t bm false = true -> column A t = column B t) ->
  select bm (transpose A) = select bm (transpose B).
Proof.
  intros Hm HA HB H.
  rewrite (transpose_columns m n A Hm HA), (transpose_columns m n B Hm HB).
  apply (select_agree []); [now rewrite !length_map|].
  intros t Ht. destruct (Nat.lt_ge_cases t n) as [Hlt|Hge].
  - rewrite !(nth_map_in _ _ _ _ 0%nat) by (rewrite length_seq; lia).
    rewrite seq_nth by lia. now apply H.
  - now rewrite !nth_overflow by (rewrite length_map, length_seq; lia).
Qed.

Lemma select_rows_agree (m n : nat) (bm : list bool) (A B : matrix) :
  shape m n A -> shape m n B ->
  (forall t, nth t bm false = true -> column A t = column B t) ->
  map (select bm) A = map (select bm) B.
Proof.
  intros [HlA HrA] [HlB HrB] H.
  apply (nth_ext _ _ [] []); [now rewrite !length_map, HlA, HlB|].
  intros i Hi. rewrite length_map, HlA in Hi.
  rewrite !(nth_map_in _ _ _ _ []) by lia.
  apply (select_agree 0).
  - rewrite Forall_forall in HrA, HrB.
    rewrite (HrA (nth i A [])), (HrB (nth i B [])); auto; apply nth_In; lia.
  - intros t Ht. specialize (H t Ht). unfold column in H.
    apply (f_equal (fun c => nth i c 0)) in H.
    now rewrite !(nth_map_in _ _ _ _ []) in H by lia.
Qed.

Lemma column_vstack_ones (M : matrix) (n t : nat) :
  column (vstack_ones M n) t = column M t ++ [nth t (repeat 1 n) 0].
Proof.
  unfold column, vstack_ones. now rewrite map_app.
Qed.

Lemma shape_vstack_ones (m n : nat) (M : matrix) :
  shape m n M -> shape (S m) n (vstack_ones M n).
Proof.
  intros [Hl Hr]. unfold vstack_ones. split.
  - rewrite length_app, Hl. simpl. lia.
  - apply Forall_app. split; [exact Hr|].
    constructor; [apply repeat_length | constructor].
Qed.

Lemma get_row0_shape (m n : nat) (M : matrix) :
  (0 < m)%nat -> shape m n M -> exists r, get M 0 = Ok r /\ length r = n.
Proof.
  intros Hm [Hl Hr]. destruct M as [|r M]; [simpl in Hl; lia|].
  exists r. split; [reflexivity | now inversion Hr].
Qed.

(** X8: the emission samplers see the masked time steps of neither the
    observations nor the states (nor, for spike trains, the Polya-Gamma
    variates): two data sets of the same shape that agree on every time
    step the mask keeps give the same result. *)
Theorem emission_samplers_ignore_masked_steps :
  forall (mask : list (list bool)) (bm : list bool) (D T : nat)
         (states states' : list matrix) (Xs Xs' : matrix),
    hstack1 mask = Ok bm ->
    hstack (map drop_first_col states) = Ok Xs ->
    hstack (map drop_first_col states') = Ok Xs' ->
    (0 < D)%nat -> shape D T Xs -> shape D T Xs' ->
    (forall t, nth t bm false = true -> column Xs t = column Xs' t) ->
    (forall (St : Type) (utils : Utils St) obsv obsv' Ys Ys' p nu Lambda M V
            normalize st,
        hstack obsv = Ok Ys -> hstack obsv' = Ok Ys' ->
        (0 < p)%nat -> shape p T Ys -> shape p T Ys' ->
        (forall t, nth t bm false = true -> column Ys t = column Ys' t) ->
        emission_parameters utils obsv states mask nu Lambda M V normalize st
        = emission_parameters utils obsv' states' mask nu Lambda M V normalize
            st)
    /\ (forall (la : LinAlg) (St : Type) (rng : Rng St) spikes spikes' Omega
               Omega' Ys Ys' Ws Ws' p q mu Sigma normalize N st,
          hstack spikes = Ok Ys -> hstack spikes' = Ok Ys' ->
          hstack Omega = Ok Ws -> hstack Omega' = Ok Ws' ->
          (0 < p)%nat -> shape p T Ys -> shape p T Ys' ->
          (0 < q)%nat -> shape q T Ws -> shape q T Ws' ->
          (forall t, nth t bm false = true ->
                     column Ys t = column Ys' t /\ column Ws t = column Ws' t) ->
          emission_parameters_spike_train la rng spikes states Omega mask mu
            Sigma normalize N st
          = emission_parameters_spike_train la rng spikes' states' Omega' mask
              mu Sigma normalize N st).
Proof.
  intros mask bm D T states states' Xs Xs' Hbm HXs HXs' HD HsX HsX' HcX.
  destruct (get_row0_shape D T Xs HD HsX) as (r & Hr & Hlr).
  destruct (get_row0_shape D T Xs' HD HsX') as (r' & Hr' & Hlr').
  pose proof (shape_vstack_ones D T Xs HsX) as HvX.
  pose proof (shape_vstack_ones D T Xs' HsX') as HvX'.
  assert (HcV : forall t, nth t bm false = true ->
            column (vstack_ones Xs T) t = column (vstack_ones Xs' T) t).
  { intros t Ht. rewrite !column_vstack_ones. now rewrite (HcX t Ht). }
  split.
  - intros St utils obsv obsv' Ys Ys' p nu Lambda M V normalize st HY HY' Hp
      HsY HsY' HcY.
    unfold emission_parameters.
    rewrite HY, HY', HXs, HXs'. cbn [bind]. rewrite Hr, Hr'. cbn [bind].
    rewrite Hlr, Hlr', Hbm. cbn [bind]. unfold mask_rows, nrows.
    rewrite (transpose_columns p T Ys Hp HsY),
      (transpose_columns p T Ys' Hp HsY'),
      (transpose_columns (S D) T _ (Nat.lt_0_succ D) HvX),
      (transpose_columns (S D) T _ (Nat.lt_0_succ D) HvX').
    rewrite !length_map, length_seq.
    rewrite <- (transpose_columns p T Ys Hp HsY),
      <- (transpose_columns p T Ys' Hp HsY'),
      <- (transpose_columns (S D) T _ (Nat.lt_0_succ D) HvX),
      <- (transpose_columns (S D) T _ (Nat.lt_0_succ D) HvX').
    rewrite (select_transpose_agree p T bm Ys Ys' Hp HsY HsY' HcY).
    rewrite (select_transpose_agree (S D) T bm _ _ (Nat.lt_0_succ D) HvX HvX'
               HcV).
    reflexivity.
  - intros la St rng spikes spikes' Omega Omega' Ys Ys' Ws Ws' p q mu Sigma
      normalize N st HY HY' HW HW' Hp HsY HsY' Hq HsW HsW' Hc.
    unfold emission_parameters_spike_train.
    rewrite HY, HY', HW, HW', HXs, HXs'. cbn [bind]. rewrite Hr, Hr'.
    cbn [bind]. rewrite Hlr, Hlr', Hbm. cbn [bind]. unfold mask_cols.
    assert (Hw : forall m (A : matrix), (0 < m)%nat -> shape m T A ->
                                        ncols A = T).
    { intros m A Hm [Hl Hrows]. unfold ncols, width.
      destruct A as [|a A]; [simpl in Hl; lia|]. now inversion Hrows. }
    rewrite (Hw (S D) _ (Nat.lt_0_succ D) HvX),
      (Hw (S D) _ (Nat.lt_0_succ D) HvX'), (Hw p Ys Hp HsY),
      (Hw p Ys' Hp HsY'), (Hw q Ws Hq HsW), (Hw q Ws' Hq HsW').
    rewrite (select_rows_agree (S D) T bm _ _ HvX HvX' HcV).
    rewrite (select_rows_agree p T bm Ys Ys' HsY HsY'
               (fun t Ht => proj1 (Hc t Ht))).
    rewrite (select_rows_agree q T bm Ws Ws' HsW HsW'
               (fun t Ht => proj2 (Hc t Ht))).
    reflexivity.
Qed.

Lemma emission_samplers_ignore_masked_steps_witness :
  emission_parameters demo_utils [[[5; 6]; [7; 8]]] [[[1; 2; 3]]]
    [[true; false]] 1 [[1]] [[0; 0]; [0; 0]] [[1]] false noise11
  = emission_parameters demo_utils [[[5; 0]; [7; 1]]] [[[4; 2; 9]]]
      [[true; false]] 1 [[1]] [[0; 0]; [0; 0]] [[1]] false noise11.
Proof.
  destruct (emission_samplers_ignore_masked_steps [[true; false]]
              [true; false] 1 2 [[[1; 2; 3]]] [[[4; 2; 9]]] [[2; 3]] [[2; 9]])
    as (H & _).
  - reflexivity.
  - reflexivity.
  - reflexivity.
  - lia.
  - split; [reflexivity | repeat constructor].
  - split; [reflexivity | repeat constructor].
  - intros [|[|t]] Ht; try discriminate Ht; reflexivity.
  - apply (H tape demo_utils [[[5; 6]; [7; 8]]] [[[5; 0]; [7; 1]]]
             [[5; 6]; [7; 8]] [[5; 0]; [7; 1]] 2%nat).
    + reflexivity.
    + reflexivity.
    + lia.
    + split; [reflexivity | repeat constructor].
    + split; [reflexivity | repeat constructor].
    + intros [|[|t]] Ht; try discriminate Ht; reflexivity.
Defined.

(** ** The posterior of a hyperplane *)

Lemma branch_sign_parity (z : Z) : IZR (z mod 2) - 0.5 = branch_sign z.
Proof.
  unfold branch_sign. rewrite Zmod_odd.
  destruct (Z.odd z); simpl; lra.
Qed.

Lemma scale_cols_tabulate (D T : nat) (x : matrix) (s : vec) :
  shape D T x -> length s = T ->
  scale_cols x s = tabulate D T (fun i t => entry x i t * nth t s 0).
Proof.
  intros Hx Hs. rewrite (shape_as_tabulate D T x Hx) at 1.
  unfold scale_cols, tabulate. rewrite map_map.
  apply map_ext. intros i. rewrite (vec_as_map s) at 1. rewrite Hs.
  now rewrite zip_with_map_seq, Nat.min_id.
Qed.

Lemma gram_tabulate (D T : nat) (f : nat -> nat -> R) :
  gram (tabulate D T f)
  = tabulate D D (fun i j => sum_upto T (fun t => f i t * f j t)).
Proof.
  unfold gram, tabulate. rewrite map_map. apply map_ext. intros i.
  rewrite map_map. apply map_ext. intros j.
  now rewrite dot_map_seq, Nat.min_id.
Qed.

Lemma row_sums_tabulate (D T : nat) (f : nat -> nat -> R) :
  row_sums (tabulate D T f) = map (fun i => sum_upto T (f i)) (seq 0 D).
Proof.
  unfold row_sums, tabulate. rewrite map_map. reflexivity.
Qed.

Lemma mat_vec_shape (m n : nat) (M : matrix) (v : vec) :
  shape m n M -> length v = n ->
  mat_vec M v
  = map (fun i => sum_upto n (fun j => entry M i j * nth j v 0)) (seq 0 m).
Proof.
  intros HM Hv. rewrite (shape_as_tabulate m n M HM) at 1.
  rewrite (vec_as_map v) at 1. rewrite Hv.
  now rewrite mat_vec_tabulate, Nat.min_id.
Qed.

Lemma mat_add_tabulate_shape (m n : nat) (f : nat -> nat -> R) (B : matrix) :
  shape m n B ->
  mat_add (tabulate m n f) B = tabulate m n (fun i j => f i j + entry B i j).
Proof.
  intros HB. rewrite (shape_as_tabulate m n B HB) at 1.
  now rewrite mat_add_tabulate, !Nat.min_id.
Qed.

(** X9: without [draw_prior], for [T] observations of dimension [D] with
    non-negative Polya-Gamma variates, [hyper_planes] draws from the
    normal distribution of precision
    [prior_precision + sum_t w_t x_t x_t^T] and mean that precision's
    inverse applied to
    [prior_precision prior_mu + sum_t k_t x_t], where [k_t] is [+1/2] for
    an odd [z_t] and [-1/2] for an even one, the sign the filter uses for
    the same node; only the parity of [z] is read.  With no observation
    the draw has the prior's precision [prior_precision]. *)
Theorem hyper_planes_posterior :
  forall (la : LinAlg) (St : Type) (rng : Rng St) (D T : nat) (w : vec)
         (x : matrix) (z : list Z) (prior_mu : vec)
         (prior_precision : matrix) (st : St),
    (forall z', map Z.odd z' = map Z.odd z ->
       hyper_planes la rng w x z' prior_mu prior_precision false st
       = hyper_planes la rng w x z prior_mu prior_precision false st)
    /\ (shape D T x -> length w = T -> length z = T ->
        (forall t, (t < T)%nat -> 0 <= nth t w 0) ->
        shape D D prior_precision -> length prior_mu = D ->
        hyper_planes la rng w x z prior_mu prior_precision false st
        = bind
            (inv la
               (tabulate D D
                  (fun i j =>
                     sum_upto T
                       (fun t => nth t w 0 * entry x i t * entry x j t)
                     + entry prior_precision i j)))
            (fun posterior_cov =>
               multivariate_normal rng
                 (mat_vec posterior_cov
                    (map (fun i =>
                            sum_upto D
                              (fun j => entry prior_precision i j
                                        * nth j prior_mu 0)
                            + sum_upto T
                                (fun t => entry x i t
                                          * branch_sign (nth t z 0%Z)))
                         (seq 0 D)))
                 posterior_cov st)).
Proof.
  intros la St rng D T w x z prior_mu prior_precision st. split.
  - intros z' Hz. unfold hyper_planes.
    assert (E : forall l, map (fun zt => IZR (zt mod 2) - 0.5) l
                          = map (fun b : bool => if b then 0.5 else - 0.5)
                                (map Z.odd l)).
    { intros l. rewrite map_map. apply map_ext. intros a.
      rewrite Zmod_odd. destruct (Z.odd a); simpl; lra. }
    now rewrite (E z'), (E z), Hz.
  - intros Hx Hw Hz Hpos Hp Hmu. unfold hyper_planes.
    assert (Hk : length (map (fun zt => IZR (zt mod 2) - 0.5) z) = T)
      by now rewrite length_map.
    rewrite (scale_cols_tabulate D T x _ Hx Hk).
    rewrite (scale_cols_tabulate D T x (map sqrt w) Hx)
      by now rewrite length_map.
    rewrite gram_tabulate, row_sums_tabulate.
    rewrite (mat_add_tabulate_shape D D _ prior_precision Hp).
    rewrite (mat_vec_shape D D prior_precision prior_mu Hp Hmu).
    unfold vadd. rewrite zip_with_map_seq, Nat.min_id.
    assert (E1 : tabulate D D
              (fun i j =>
                 sum_upto T
                   (fun t => entry x i t * nth t (map sqrt w) 0
                             * (entry x j t * nth t (map sqrt w) 0))
                 + entry prior_precision i j)
            = tabulate D D
                (fun i j =>
                   sum_upto T
                     (fun t => nth t w 0 * entry x i t * entry x j t)
                   + entry prior_precision i j)).
    { apply tabulate_ext. intros i j _ _. f_equal.
      apply sum_upto_ext. intros t Ht.
      rewrite (nth_map_in sqrt w t 0 0) by lia.
      pose proof (sqrt_sqrt (nth t w 0) (Hpos t Ht)) as Hsq. nra. }
    rewrite E1.
    assert (E2 : map (fun k =>
                   sum_upto D (fun k0 => entry prior_precision k k0
                                         * nth k0 prior_mu 0)
                   + sum_upto T
                       (fun t => entry x k t
                                 * nth t (map (fun zt => IZR (zt mod 2) - 0.5)
                                            z) 0)) (seq 0 D)
                 = map (fun i =>
                     sum_upto D (fun j => entry prior_precision i j
                                          * nth j prior_mu 0)
                     + sum_upto T
                         (fun t => entry x i t * branch_sign (nth t z 0%Z)))
                     (seq 0 D)).
    { apply map_ext. intros i. f_equal. apply sum_upto_ext. intros t Ht.
      rewrite (nth_map_in _ z t 0 0%Z) by lia.
      now rewrite branch_sign_parity. }
    rewrite E2. reflexivity.
Qed.

Lemma hyper_planes_posterior_witness :
  hyper_planes exact_la stream_rng [1; 4] [[1; 2]] [3; 4]%Z [0] [[1]] false
    noise11
  = bind
      (inv exact_la
         (tabulate 1 1
            (fun i j =>
               sum_upto 2
                 (fun t => nth t [1; 4] 0 * entry [[1; 2]] i t
                           * entry [[1; 2]] j t)
               + entry [[1]] i j)))
      (fun posterior_cov =>
         multivariate_normal stream_rng
           (mat_vec posterior_cov
              (map (fun i =>
                      sum_upto 1 (fun j => entry [[1]] i j * nth j [0] 0)
                      + sum_upto 2
                          (fun t => entry [[1; 2]] i t
                                    * branch_sign (nth t [3; 4]%Z 0%Z)))
                   (seq 0 1)))
           posterior_cov noise11).
Proof.
  apply (proj2 (hyper_planes_posterior exact_la tape stream_rng 1 2 [1; 4]
                  [[1; 2]] [3; 4]%Z [0] [[1]] noise11)).
  - split; [reflexivity | repeat constructor].
  - reflexivity.
  - reflexivity.
  - intros [|[|t]] Ht; simpl; try lra. lia.
  - split; [reflexivity | repeat constructor].
  - reflexivity.
Defined.

(** ** The leaf probabilities as a distribution *)











(** ** The noise covariances of the discrete sampler *)

(** The first [k] iterations of the loop of lines 265-267, when the
    first [k] noise covariances are invertible. *)
Lemma invert_Q_prefix (la : LinAlg) (Q : list matrix) (K k : nat) :
  (k <= K)%nat -> (k <= length Q)%nat ->
  (forall j, (j < k)%nat -> exists Qi, inv la (nth j Q []) = Ok Qi) ->
  exists Qinv Qlogdet,
    for_each (seq 0 k)
      (fun k '(Qinv, Qlogdet) =>
         Qk <- get Q k ;;
         Qk_inv <- inv la Qk ;;
         Qinv' <- set_item Qinv k Qk_inv ;;
         Qk <- get Q k ;;
         Qlogdet' <- set_item Qlogdet k (ln (det la Qk)) ;;
         Ok (Qinv', Qlogdet'))
      (Q, repeat 1 K) = Ok (Qinv, Qlogdet)
    /\ length Qinv = length Q /\ length Qlogdet = K.
Proof.
  induction k as [|k IH]; intros HK HQ Hinv.
  - exists Q, (repeat 1 K). split; [reflexivity|].
    split; [reflexivity | apply repeat_length].
  - destruct IH as (Qinv & Qlogdet & Hrun & Hl1 & Hl2); [lia | lia | |].
    { intros j Hj. apply Hinv. lia. }
    destruct (Hinv k) as (Qi & HQi); [lia|].
    rewrite seq_S, for_each_app, Hrun. cbn [bind for_each Nat.add].
    rewrite (get_lt Q k []) by lia. cbn [bind]. rewrite HQi. cbn [bind].
    rewrite set_item_lt by lia. cbn [bind].
    rewrite set_item_lt by lia. cbn [bind].
    eexists; eexists. split; [reflexivity|]. now rewrite !length_upd.
Qed.

(** X11: [discrete_latent_recurrent_only] inverts the noise covariances
    of the [K] leaves before it looks at any trajectory: the first
    [Q[:, :, k]] whose inversion raises stops the call with that
    exception, and a [Q] with fewer than [K] slices stops it with
    [IndexError], whatever the trajectories are; with no trajectory and
    [K] invertible slices, [Z] and [paths] come back as they were and no
    variate is drawn. *)
Theorem discrete_latent_inverts_noise_first :
  forall (la : LinAlg) (St : Type) (rng : Rng St) (utils : Utils St)
         (Zs : list (list Z)) (paths : list pathmat) (leaf_path : pathmat)
         (K : nat) (U A Q Rs : list matrix) (depth D_input : nat) (st : St),
    (forall X k Qk e,
        (k < K)%nat -> nth_error Q k = Some Qk ->
        (forall j, (j < k)%nat -> exists Qi, inv la (nth j Q []) = Ok Qi) ->
        inv la Qk = Raise e ->
        discrete_latent_recurrent_only la rng utils Zs paths leaf_path K X U A
          Q Rs depth D_input st = Raise e)
    /\ (forall X,
          (length Q < K)%nat ->
          (forall j, (j < length Q)%nat ->
                     exists Qi, inv la (nth j Q []) = Ok Qi) ->
          discrete_latent_recurrent_only la rng utils Zs paths leaf_path K X U
            A Q Rs depth D_input st = Raise IndexError)
    /\ ((K <= length Q)%nat ->
        (forall j, (j < K)%nat -> exists Qi, inv la (nth j Q []) = Ok Qi) ->
        discrete_latent_recurrent_only la rng utils Zs paths leaf_path K [] U
          A Q Rs depth D_input st = Ok (Zs, paths, st)).
Proof.
  intros la St rng utils Zs paths leaf_path K U A Q Rs depth D_input st.
  split; [|split].
  - intros X k Qk e Hk HQk Hinv Hfail.
    assert (Hlt : (k < length Q)%nat) by (apply nth_error_Some; congruence).
    destruct (invert_Q_prefix la Q K k) as (Qinv & Qlogdet & Hrun & _);
      [lia | lia | exact Hinv |].
    unfold discrete_latent_recurrent_only, range.
    replace K with (k + S (K - k - 1))%nat at 1 by lia.
    rewrite seq_app. cbn [seq Nat.add].
    rewrite (for_each_raise _ _ _ _ _ (Qinv, Qlogdet) e); [reflexivity| |].
    + exact Hrun.
    + unfold get. rewrite HQk. cbn [bind]. now rewrite Hfail.
  - intros X HK Hinv.
    destruct (invert_Q_prefix la Q K (length Q)) as (Qinv & Qlogdet & Hrun & _);
      [lia | lia | exact Hinv |].
    unfold discrete_latent_recurrent_only, range.
    replace K with (length Q + S (K - length Q - 1))%nat at 1 by lia.
    rewrite seq_app. cbn [seq Nat.add].
    rewrite (for_each_raise _ _ _ _ _ (Qinv, Qlogdet) IndexError);
      [reflexivity| |].
    + exact Hrun.
    + unfold get.
      now rewrite (proj2 (nth_error_None Q (length Q)) (le_n _)).
  - intros HK Hinv.
    destruct (invert_Q_prefix la Q K K) as (Qinv & Qlogdet & Hrun & _);
      [lia | lia | exact Hinv |].
    unfold discrete_latent_recurrent_only, range. rewrite Hrun. reflexivity.
Qed.

Lemma discrete_latent_inverts_noise_first_witness :
  discrete_latent_recurrent_only exact_la stream_rng demo_utils [[0; 0]%Z]
    no_paths leaf_path2 2 [[[1; 2]]] [[[0; 0]]] A2 [[[1]]; [[0]]] [] 2 1 picks10
  = Raise LinAlgError
  /\ discrete_latent_recurrent_only exact_la stream_rng demo_utils [[0; 0]%Z]
       no_paths leaf_path2 2 [] [[[0; 0]]] A2 Q2 [] 2 1 picks10
     = Ok ([[0; 0]%Z], no_paths, picks10).
Proof.
  destruct (discrete_latent_inverts_noise_first exact_la tape stream_rng
              demo_utils [[0; 0]%Z] no_paths leaf_path2 2 [[[0; 0]]] A2
              [[[1]]; [[0]]] [] 2 1 picks10) as (H1 & _ & _).
  destruct (discrete_latent_inverts_noise_first exact_la tape stream_rng
              demo_utils [[0; 0]%Z] no_paths leaf_path2 2 [[[0; 0]]] A2
              Q2 [] 2 1 picks10) as (_ & _ & H3).
  split.
  - apply (H1 [[[1; 2]]] 1%nat [[0]] LinAlgError).
    + lia.
    + reflexivity.
    + intros j Hj. replace j with 0%nat by lia. exists [[1]].
      apply exact_inv_1.
    + unfold exact_la, inv, exact_inv.
      destruct (Req_dec_T (exact_det [[0]]) 0) as [_|Hne]; [reflexivity|].
      exfalso. apply Hne. unfold exact_det. simpl. unfold sign. simpl. lra.
  - apply H3; [simpl; lia|].
    intros j Hj. exists [[1]].
    destruct j as [|[|j]]; [apply exact_inv_1 | apply exact_inv_1 | lia].
Defined.

(** ** The Polya-Gamma variates and the entries they are stored in *)

(** A loop over [range(n)] whose iteration [i] stores at position [i] of
    a list an element satisfying [F i]. *)
Lemma for_each_fill {A St : Type} (F : nat -> A -> Prop) (d : A) (n : nat)
    (body : nat -> list A * St -> result (list A * St)) :
  (forall i l st l1 st1,
     (i < n)%nat -> body i (l, st) = Ok (l1, st1) ->
     (i < length l)%nat /\ exists a, l1 = upd l i a /\ F i a) ->
  forall l0 st0 l' st',
    for_each (seq 0 n) body (l0, st0) = Ok (l', st') ->
    (n <= length l0)%nat /\ length l' = length l0
    /\ (forall i, (i < n)%nat -> F i (nth i l' d))
    /\ (forall i, (n <= i)%nat -> nth i l' d = nth i l0 d).
Proof.
  induction n as [|n IH]; intros Hbody l0 st0 l' st' Hrun.
  - simpl in Hrun. inversion Hrun; subst.
    repeat split; auto; [lia | intros i Hi; lia].
  - rewrite seq_S, for_each_app in Hrun. cbn [Nat.add] in Hrun.
    apply bind_ok in Hrun as ([l1 st1] & Hrun1 & Hlast).
    cbn [for_each] in Hlast.
    apply bind_ok in Hlast as ([l2 st2] & Hstep & Hret).
    inversion Hret; subst l2 st2; clear Hret.
    destruct (IH (fun i l st l1 st1 Hi => Hbody i l st l1 st1 (Nat.lt_lt_succ_r _ _ Hi))
                 l0 st0 l1 st1 Hrun1) as (I1 & I2 & I3 & I4).
    destruct (Hbody n l1 st1 l' st' (Nat.lt_succ_diag_r n) Hstep)
      as (Hlt & a & -> & Ha).
    rewrite length_upd. split; [lia|]. split; [exact I2|]. split.
    + intros i Hi. destruct (Nat.eq_dec i n) as [->|Hne].
      * now rewrite nth_upd_same.
      * rewrite nth_upd_other by auto. apply I3. lia.
    + intros i Hi. rewrite nth_upd_other by lia. apply I4. lia.
Qed.

Lemma nth_concat_uniform {A : Type} (d : A) (m : nat) (L : list (list A))
    (t n : nat) :
  Forall (fun r => length r = m) L -> (n < m)%nat ->
  nth (t * m + n) (concat L) d = nth n (nth t L []) d.
Proof.
  revert t; induction L as [|r L IH]; intros t HL Hn.
  - cbn [concat]. rewrite nth_overflow by (simpl; lia).
    destruct t, n; reflexivity.
  - inversion HL; subst. destruct t as [|t]; cbn [concat nth].
    + rewrite app_nth1 by (simpl; lia). reflexivity.
    + rewrite app_nth2 by (simpl; lia).
      replace (S t * length r + n - length r)%nat
        with (t * length r + n)%nat by lia.
      now apply IH.
Qed.

(** Entry [(i, j)] of an array sits at position [j * m + i] of its
    column-major flattening, and [reshape] in column-major order reads
    it back from there. *)
Lemma nth_flatten_F (m n : nat) (M : matrix) (i j : nat) :
  shape m n M -> (i < m)%nat -> (j < n)%nat ->
  nth (j * m + i) (flatten_F M) 0 = entry M i j.
Proof.
  intros Hsh Hi Hj. unfold flatten_F.
  rewrite (transpose_columns m n M) by (auto; lia).
  rewrite (nth_concat_uniform 0 m).
  - rewrite (nth_map_in _ _ _ _ 0%nat) by (rewrite length_seq; lia).
    rewrite seq_nth by lia. unfold column, entry.
    now rewrite (nth_map_in _ _ _ _ []) by (destruct Hsh; lia).
  - apply Forall_map, Forall_forall. intros k _. unfold column.
    rewrite length_map. now destruct Hsh.
  - exact Hi.
Qed.

Lemma entry_reshape_F (m n : nat) (v : vec) (i j : nat) :
  (i < m)%nat -> (j < n)%nat ->
  entry (reshape_F m n v) i j = nth (j * m + i) v 0.
Proof.
  intros Hi Hj. unfold reshape_F. fold (tabulate m n (fun i j => nth (j * m + i) v 0)).
  now rewrite entry_tabulate.
Qed.

Lemma drop_first_col_tabulate (m n : nat) (M : matrix) :
  shape m (S n) M ->
  drop_first_col M = tabulate m n (fun i j => entry M i (S j)).
Proof.
  intros [Hm Hrows]. unfold drop_first_col, tabulate, entry.
  rewrite <- (map_nth_seq M []) at 1. rewrite Hm, map_map.
  apply map_seq_ext. intros i Hi.
  assert (Hr : length (nth i M []) = S n).
  { rewrite Forall_forall in Hrows. apply Hrows, nth_In. lia. }
  destruct (nth i M []) as [|a r]; [discriminate|]. cbn [skipn].
  simpl in Hr. rewrite <- (map_nth_seq r 0) at 1.
  replace (length r) with n by lia. reflexivity.
Qed.

Lemma add_to_rows_tabulate (m n : nat) (f : nat -> nat -> R) (c : vec) :
  length c = m ->
  add_to_rows (tabulate m n f) c = tabulate m n (fun i j => f i j + nth i c 0).
Proof.
  intros Hc. unfold add_to_rows, tabulate.
  rewrite (vec_as_map c) at 1. rewrite Hc, zip_with_map_seq, Nat.min_id.
  apply map_ext. intros i. now rewrite map_map.
Qed.

Lemma last_col_shape (m n : nat) (C : matrix) :
  (0 < m)%nat -> shape m (S n) C ->
  last_col C = Ok (map (fun i => entry C i n) (seq 0 m)).
Proof.
  intros Hm Hsh. unfold last_col, col, col_of.
  assert (Hw : ncols C = S n).
  { destruct Hsh as [Hl Hr]. unfold ncols, width.
    destruct C as [|r C]; [simpl in Hl; lia|]. now inversion Hr. }
  rewrite Hw. unfold ncols in Hw. rewrite Hw.
  destruct (Nat.ltb_spec n (S n)); [|lia]. f_equal.
  fold (column C n). now apply (column_shape m (S n)).
Qed.

Lemma length_concat_uniform {A : Type} (m : nat) (L : list (list A)) :
  Forall (fun r => length r = m) L -> length (concat L) = (length L * m)%nat.
Proof.
  induction L as [|r L IH]; intros HL; [reflexivity|].
  inversion HL; subst. cbn [concat length]. rewrite length_app, IH by auto.
  lia.
Qed.

Lemma length_flatten_F (m n : nat) (M : matrix) :
  (0 < m)%nat -> shape m n M -> length (flatten_F M) = (n * m)%nat.
Proof.
  intros Hm Hsh. unfold flatten_F.
  rewrite (transpose_columns m n M Hm Hsh).
  rewrite (length_concat_uniform m).
  - now rewrite length_map, length_seq.
  - apply Forall_map, Forall_forall. intros k _. unfold column.
    rewrite length_map. now destruct Hsh.
Qed.

(** X12: when [pg_spike_train] returns, [Omega] has kept its length and
    its entries beyond the trajectories; for a trajectory of [T + 1]
    states of dimension [D] and an emission matrix for [D_out] neurons,
    [Omega[idx]] is the batch of [T * D_out] variates reshaped, and the
    variate stored at [Omega[idx][n, t]] is the one drawn with shape
    parameter [N] and tilt [C[n, :-1] . X[idx][:, t + 1] + C[n, -1]]:
    time step [t] of the variates belongs to state [t + 1]. *)
Theorem pg_spike_train_stores_each_variate_in_place :
  forall (St : Type) (rng : Rng St) (X : list matrix) (C : matrix)
         (Omega : list matrix) (D_out nthreads : nat) (N : R) (st : St)
         (Omega' : list matrix) (st' : St),
    pg_spike_train rng X C Omega D_out nthreads N st = Ok (Omega', st') ->
    (length X <= length Omega)%nat
    /\ length Omega' = length Omega
    /\ (forall idx, (length X <= idx)%nat ->
          nth idx Omega' [] = nth idx Omega [])
    /\ forall idx D T,
         (idx < length X)%nat -> (0 < D)%nat -> (0 < D_out)%nat ->
         shape D (S T) (nth idx X []) -> shape D_out (S D) C ->
         exists seeds b z,
           nth idx Omega' [] = reshape_F D_out T (pgdrawvpar rng seeds b z)
           /\ length b = (T * D_out)%nat /\ length z = (T * D_out)%nat
           /\ forall n t, (n < D_out)%nat -> (t < T)%nat ->
                entry (nth idx Omega' []) n t
                = nth (t * D_out + n) (pgdrawvpar rng seeds b z) 0
                /\ nth (t * D_out + n) b 0 = N * 1
                /\ nth (t * D_out + n) z 0
                   = sum_upto D
                       (fun k => entry C n k * entry (nth idx X []) k (S t))
                     + entry C n D.
Proof.
  intros St rng X C Omega D_out nthreads N st Omega' st' Hrun.
  unfold pg_spike_train, range in Hrun.
  set (F := fun (idx : nat) (a : matrix) =>
    exists Xi row0 bias seeds,
      get X idx = Ok Xi /\ get Xi 0 = Ok row0 /\ last_col C = Ok bias
      /\ a = reshape_F D_out (length (skipn 1 row0))
               (pgdrawvpar rng seeds
                  (map (Rmult N) (repeat 1 (length (skipn 1 row0) * D_out)))
                  (flatten_F
                     (add_to_rows
                        (mat_mul (drop_last_col C) (drop_first_col Xi))
                        bias)))).
  match type of Hrun with
  | for_each _ ?body _ = _ =>
      assert (Hstep : forall i l s l1 s1,
                (i < length X)%nat -> body i (l, s) = Ok (l1, s1) ->
                (i < length l)%nat /\ exists a, l1 = upd l i a /\ F i a)
  end.
  { intros i l s l1 s1 Hi Hb. cbn beta iota in Hb.
    apply bind_ok in Hb as (Xi & HXi & Hb).
    apply bind_ok in Hb as (row0 & Hrow & Hb).
    apply bind_ok in Hb as (bias & Hbias & Hb).
    destruct (randint rng (2 ^ 16) nthreads s) as [seeds s2].
    apply bind_ok in Hb as (O1 & HO & Hb). inversion Hb; subst; clear Hb.
    apply set_item_ok in HO as (Hlt & ->).
    split; [exact Hlt|]. eexists. split; [reflexivity|].
    exists Xi, row0, bias, seeds. auto. }
  destruct (for_each_fill F [] (length X) _ Hstep Omega st Omega' st' Hrun)
    as (H1 & H2 & H3 & H4).
  split; [exact H1|]. split; [exact H2|]. split; [exact H4|].
  intros idx D T Hidx HD HDo HsX HsC.
  destruct (H3 idx Hidx) as (Xi & row0 & bias & seeds & HXi & Hrow & Hbias & E).
  apply get_ok in HXi as (_ & HXi). specialize (HXi []). subst Xi.
  destruct (get_row0_shape D (S T) _ HD HsX) as (r & Hr & Hlr).
  rewrite Hr in Hrow. inversion Hrow; subst r; clear Hrow.
  assert (HT : length (skipn 1 row0) = T) by (rewrite length_skipn; lia).
  rewrite HT in E.
  rewrite (last_col_shape D_out D C HDo HsC) in Hbias.
  inversion Hbias; subst bias; clear Hbias.
  rewrite (drop_last_col_tabulate D_out D C HsC) in E.
  rewrite (drop_first_col_tabulate D T _ HsX) in E.
  rewrite mat_mul_tabulate in E by (left; exact HD).
  rewrite Nat.min_id in E.
  rewrite add_to_rows_tabulate in E by now rewrite length_map, length_seq.
  set (V := tabulate D_out T _) in E.
  exists seeds, (map (Rmult N) (repeat 1 (T * D_out))), (flatten_F V).
  split; [exact E|].
  split; [now rewrite length_map, repeat_length|].
  split; [apply (length_flatten_F D_out T V HDo), shape_tabulate|].
  intros n t Hn Ht. rewrite E. split; [|split].
  - now apply entry_reshape_F.
  - rewrite (nth_map_in (Rmult N) _ _ 0 0) by (rewrite repeat_length; nia).
    f_equal. rewrite (nth_indep _ 0 1) by (rewrite repeat_length; nia).
    apply nth_repeat.
  - rewrite (nth_flatten_F D_out T V n t) by (auto; apply shape_tabulate).
    unfold V. rewrite entry_tabulate by assumption.
    now rewrite nth_map_seq by exact Hn.
Qed.

Lemma pg_spike_train_run :
  pg_spike_train stream_rng states_a C34 [[]] 2 1 1 noise11
  = Ok ([[[1 * 1 / 4; 1 * 1 / 4]; [1 * 1 / 4; 1 * 1 / 4]]], noise11).
Proof. reflexivity. Qed.

Lemma pg_spike_train_stores_each_variate_witness :
  exists seeds b z,
    [[1 * 1 / 4; 1 * 1 / 4]; [1 * 1 / 4; 1 * 1 / 4]]
    = reshape_F 2 2 (pgdrawvpar stream_rng seeds b z)
    /\ length b = (2 * 2)%nat /\ length z = (2 * 2)%nat
    /\ forall n t, (n < 2)%nat -> (t < 2)%nat ->
         entry [[1 * 1 / 4; 1 * 1 / 4]; [1 * 1 / 4; 1 * 1 / 4]] n t
         = nth (t * 2 + n) (pgdrawvpar stream_rng seeds b z) 0
         /\ nth (t * 2 + n) b 0 = 1 * 1
         /\ nth (t * 2 + n) z 0
            = sum_upto 1 (fun k => entry C34 n k * entry [[1; 2; 3]] k (S t))
              + entry C34 n 1.
Proof.
  destruct (pg_spike_train_stores_each_variate_in_place tape stream_rng
              states_a C34 [[]] 2 1 1 noise11 _ _ pg_spike_train_run)
    as (_ & _ & _ & H).
  apply (H 0%nat 1%nat 2%nat).
  - simpl. lia.
  - lia.
  - lia.
  - split; [reflexivity | repeat constructor].
  - split; [reflexivity | repeat constructor].
Defined.

(** ** The tree Polya-Gamma sampler *)

Lemma shape_upd_row {A : Type} (m n : nat) (M : list (list A)) (d : nat)
    (r : list A) :
  shape m n M -> length r = n -> shape m n (upd M d r).
Proof.
  intros [Hl Hr] Hlen. split; [now rewrite length_upd|].
  now apply Forall_upd.
Qed.

Lemma entry_upd_cell (M : matrix) (d t d' t' : nat) (x : R) :
  (d < length M)%nat -> (t < length (nth d M []))%nat ->
  entry (upd M d (upd (nth d M []) t x)) d' t'
  = if ((d' =? d) && (t' =? t))%nat then x else entry M d' t'.
Proof.
  intros Hd Ht. unfold entry.
  destruct (Nat.eqb_spec d' d) as [->|Hne]; cbn [andb].
  - rewrite nth_upd_same by exact Hd.
    destruct (Nat.eqb_spec t' t) as [->|Hne].
    + now rewrite nth_upd_same.
    + now rewrite nth_upd_other by auto.
  - now rewrite nth_upd_other by auto.
Qed.

(** One assignment [v[d, t] = x] of the inner loop. *)
Lemma tree_logits_cell (path_i : result pathmat) (Xi : matrix)
    (Rs : list matrix) (m T d t : nat) (v v' : matrix) :
  shape m T v -> (d < m)%nat -> (t < T)%nat ->
  (x <- tree_logit path_i Xi Rs d t ;;
   row <- get v d ;;
   row' <- set_item row t x ;;
   set_item v d row') = Ok v' ->
  exists x, tree_logit path_i Xi Rs d t = Ok x
            /\ v' = upd v d (upd (nth d v []) t x).
Proof.
  intros [Hl Hr] Hd Ht H.
  apply bind_ok in H as (x & Hx & H).
  apply bind_ok in H as (row & Hrow & H).
  apply bind_ok in H as (row' & Hrow' & H).
  apply get_ok in Hrow as (_ & Hrow). specialize (Hrow []). subst row.
  apply set_item_ok in Hrow' as (_ & ->).
  apply set_item_ok in H as (_ & ->).
  exists x. auto.
Qed.

(** The array [v] holds at [(d, t)] the value computed for level [d] and
    time [t]. *)
Lemma tree_logits_ok (path_i : result pathmat) (Xi : matrix)
    (Rs : list matrix) (depth T : nat) (v : matrix) :
  tree_logits path_i Xi Rs depth T = Ok v ->
  shape (depth - 1) T v
  /\ forall d t, (d < depth - 1)%nat -> (t < T)%nat ->
       tree_logit path_i Xi Rs d t = Ok (entry v d t).
Proof.
  unfold tree_logits, range. set (m := (depth - 1)%nat). intros H.
  set (J := fun s : matrix => shape m T s).
  set (Q := fun (d : nat) (s : matrix) =>
              forall t, (t < T)%nat ->
                        tree_logit path_i Xi Rs d t = Ok (entry s d t)).
  assert (HH := fun Hs HJ0 =>
            for_each_establish J Q (seq 0 m) _ _ v (seq_NoDup m 0) Hs HJ0 H).
  destruct HH as (HJ & HQ & _).
  - intros d a b Hd Ja Hb. apply in_seq in Hd.
    set (J' := fun s : matrix =>
                 shape m T s /\ forall d', d' <> d -> nth d' s [] = nth d' a []).
    set (Q' := fun (t : nat) (s : matrix) =>
                 tree_logit path_i Xi Rs d t = Ok (entry s d t)).
    assert (HH := fun Hs HJ0 =>
              for_each_establish J' Q' (seq 0 T) _ a b (seq_NoDup T 0) Hs HJ0
                Hb).
    destruct HH as ((Jb & Hrows) & HQ' & _).
    + intros t u w Ht (Ju & Hu) Hw. apply in_seq in Ht.
      apply (tree_logits_cell path_i Xi Rs m T d t u w Ju) in Hw
        as (x & Hx & ->); [|lia|lia].
      assert (Hdl : (d < length u)%nat) by (destruct Ju; lia).
      assert (Htl : (t < length (nth d u []))%nat).
      { destruct Ju as [Hl Hr]. rewrite Forall_forall in Hr.
        rewrite (Hr (nth d u [])) by (apply nth_In; lia). lia. }
      split; [split|split].
      * apply shape_upd_row; [exact Ju|]. rewrite length_upd.
        destruct Ju as [Hl Hr]. rewrite Forall_forall in Hr.
        apply Hr, nth_In. lia.
      * intros d' Hd'. rewrite nth_upd_other by auto. now apply Hu.
      * unfold Q'. rewrite entry_upd_cell by assumption.
        now rewrite !Nat.eqb_refl.
      * intros y Hy Hq. unfold Q' in *. rewrite entry_upd_cell by assumption.
        rewrite Nat.eqb_refl. cbn [andb].
        destruct (Nat.eqb_spec y t); [contradiction | exact Hq].
    + split; [exact Ja | reflexivity].
    + split; [exact Jb|]. split.
      * intros t Ht. apply HQ'. apply in_seq. lia.
      * intros y Hy Hq t Ht. unfold entry. rewrite Hrows by exact Hy.
        now apply Hq.
  - unfold J, m. split; [apply repeat_length|].
    apply Forall_forall. intros r Hr. apply repeat_spec in Hr. subst r.
    apply repeat_length.
  - split; [exact HJ|]. intros d t Hd Ht. apply HQ; [|exact Ht].
    apply in_seq. lia.
Qed.

Lemma tree_logit_inv (path_i : result pathmat) (Xi : matrix) (Rs : list matrix)
    (d t : nat) (x : R) :
  tree_logit path_i Xi Rs d t = Ok x ->
  exists n Rd Rcol,
    bind path_i (fun p => get2 p d t) = Ok (Some n)
    /\ get Rs d = Ok Rd /\ col_at 0 Rd (n - 1) = Ok Rcol
    /\ (t < ncols Xi)%nat
    /\ x = dot (removelast Rcol) (column Xi t) + last Rcol 0.
Proof.
  unfold tree_logit. intros H.
  apply bind_ok in H as (p & -> & H).
  apply bind_ok in H as (node & Hnode & H).
  destruct node as [n|]; [|discriminate].
  apply bind_ok in H as (Rd & HRd & H).
  apply bind_ok in H as (Rcol & HRcol & H).
  apply bind_ok in H as (xc & Hxc & H). inversion H; subst x.
  exists n, Rd, Rcol. cbn [bind]. rewrite Hnode.
  unfold col, col_of in Hxc. fold (ncols Xi) in Hxc.
  destruct (Nat.ltb_spec t (ncols Xi)) as [Hlt|]; [|discriminate].
  inversion Hxc. auto.
Qed.

(** X13: when [pg_tree_posterior] returns, [omega] has kept its length
    and its entries beyond the trajectories; for every trajectory, every
    path entry of the levels [0 .. depth - 2] is a node number [n], and
    the variate stored at [omega[idx][d, t]] is the one drawn with shape
    parameter 1 and tilt
    [R[d][:-1, n - 1] . states[idx][:, t] + R[d][-1, n - 1]], the
    hyperplane of the node [n = path[idx][d, t]] at the state of time
    [t]. *)
Theorem pg_tree_posterior_stores_each_variate_in_place :
  forall (St : Type) (rng : Rng St) (states omega Rs : list matrix)
         (path : list pathmat) (depth nthreads : nat) (st : St)
         (omega' : list matrix) (st' : St),
    pg_tree_posterior rng states omega Rs path depth nthreads st
    = Ok (omega', st') ->
    (length states <= length omega)%nat
    /\ length omega' = length omega
    /\ (forall idx, (length states <= idx)%nat ->
          nth idx omega' [] = nth idx omega [])
    /\ forall idx,
         (idx < length states)%nat ->
         exists v seeds b,
           shape (depth - 1) (ncols (nth idx states [])) v
           /\ nth idx omega' []
              = reshape_F (depth - 1) (ncols (nth idx states []))
                  (pgdrawvpar rng seeds b (flatten_F v))
           /\ length b = (ncols (nth idx states []) * (depth - 1))%nat
           /\ forall d t,
                (d < depth - 1)%nat -> (t < ncols (nth idx states []))%nat ->
                (exists n Rd Rcol,
                    bind (get path idx) (fun p => get2 p d t) = Ok (Some n)
                    /\ get Rs d = Ok Rd /\ col_at 0 Rd (n - 1) = Ok Rcol
                    /\ entry v d t
                       = dot (removelast Rcol) (column (nth idx states []) t)
                         + last Rcol 0)
                /\ entry (nth idx omega' []) d t
                   = nth (t * (depth - 1) + d)
                       (pgdrawvpar rng seeds b (flatten_F v)) 0
                /\ nth (t * (depth - 1) + d) b 0 = 1
                /\ nth (t * (depth - 1) + d) (flatten_F v) 0 = entry v d t.
Proof.
  intros St rng states omega Rs path depth nthreads st omega' st' Hrun.
  unfold pg_tree_posterior, range in Hrun.
  set (F := fun (idx : nat) (a : matrix) =>
    exists Xi row0 v seeds,
      get states idx = Ok Xi /\ get Xi 0 = Ok row0
      /\ tree_logits (get path idx) Xi Rs depth (length row0) = Ok v
      /\ a = reshape_F (depth - 1) (length row0)
               (pgdrawvpar rng seeds (repeat 1 (length row0 * (depth - 1)))
                  (flatten_F v))).
  match type of Hrun with
  | for_each _ ?body _ = _ =>
      assert (Hstep : forall i l s l1 s1,
                (i < length states)%nat -> body i (l, s) = Ok (l1, s1) ->
                (i < length l)%nat /\ exists a, l1 = upd l i a /\ F i a)
  end.
  { intros i l s l1 s1 Hi Hb. cbn beta iota in Hb.
    apply bind_ok in Hb as (Xi & HXi & Hb).
    apply bind_ok in Hb as (row0 & Hrow & Hb).
    destruct (depth =? 0)%nat; [discriminate|].
    apply bind_ok in Hb as (v & Hv & Hb).
    destruct (randint rng (2 ^ 16) nthreads s) as [seeds s2].
    apply bind_ok in Hb as (O1 & HO & Hb). inversion Hb; subst; clear Hb.
    apply set_item_ok in HO as (Hlt & ->).
    split; [exact Hlt|]. eexists. split; [reflexivity|].
    exists Xi, row0, v, seeds. auto. }
  destruct (for_each_fill F [] (length states) _ Hstep omega st omega' st' Hrun)
    as (H1 & H2 & H3 & H4).
  split; [exact H1|]. split; [exact H2|]. split; [exact H4|].
  intros idx Hidx.
  destruct (H3 idx Hidx) as (Xi & row0 & v & seeds & HXi & Hrow & Hv & E).
  apply get_ok in HXi as (_ & HXi). specialize (HXi []). subst Xi.
  assert (HT : ncols (nth idx states []) = length row0).
  { unfold ncols, width. destruct (nth idx states []) as [|r M];
      [discriminate|]. now inversion Hrow. }
  rewrite HT.
  apply tree_logits_ok in Hv as (Hsh & Hcells).
  exists v, seeds, (repeat 1 (length row0 * (depth - 1))).
  split; [exact Hsh|]. split; [exact E|]. split; [apply repeat_length|].
  intros d t Hd Ht. split; [|split; [|split]].
  - destruct (tree_logit_inv _ _ _ _ _ _ (Hcells d t Hd Ht))
      as (n & Rd & Rcol & Hn & HRd & HRcol & _ & Hx).
    exists n, Rd, Rcol. auto.
  - rewrite E. now apply entry_reshape_F.
  - rewrite (nth_indep _ 0 1) by (rewrite repeat_length; nia).
    apply nth_repeat.
  - now apply (nth_flatten_F (depth - 1) (length row0)).
Qed.

Lemma pg_tree_posterior_run :
  pg_tree_posterior stream_rng [[[1; 2]]] [[]] Rs1 [paths2] 2 1 noise11
  = Ok ([[[1 / 4; 1 / 4]]], noise11).
Proof. reflexivity. Qed.

Lemma pg_tree_posterior_stores_each_variate_witness :
  exists v seeds b,
    shape 1 2 v
    /\ [[1 / 4; 1 / 4]]
       = reshape_F 1 2 (pgdrawvpar stream_rng seeds b (flatten_F v))
    /\ length b = 2%nat
    /\ forall d t,
         (d < 1)%nat -> (t < 2)%nat ->
         (exists n Rd Rcol,
             bind (get [paths2] 0) (fun p => get2 p d t) = Ok (Some n)
             /\ get Rs1 d = Ok Rd /\ col_at 0 Rd (n - 1) = Ok Rcol
             /\ entry v d t
                = dot (removelast Rcol) (column [[1; 2]] t) + last Rcol 0)
         /\ entry [[1 / 4; 1 / 4]] d t
            = nth (t * 1 + d)
                (pgdrawvpar stream_rng seeds b (flatten_F v)) 0
         /\ nth (t * 1 + d) b 0 = 1
         /\ nth (t * 1 + d) (flatten_F v) 0 = entry v d t.
Proof.
  destruct (pg_tree_posterior_stores_each_variate_in_place tape stream_rng
              [[[1; 2]]] [[]] Rs1 [paths2] 2 1 noise11 _ _
              pg_tree_posterior_run) as (_ & _ & _ & H).
  apply (H 0%nat). simpl. lia.
Defined.

(** X14: [pg_tree_posterior] converts every path entry of the levels
    [0 .. depth - 2] to an integer without testing it: a NaN there
    raises [ValueError] (the filter skips such a level instead), and so
    does, at the first cell, a path through a tree of depth 2 or more
    that is NaN at the root.  With [depth == 1] neither [path] nor the
    hyperplanes are read and every [omega[idx]] is replaced by an array
    without rows; with [depth == 0] a trajectory with at least one row
    raises [ValueError]. *)
Theorem pg_tree_posterior_edge_cases :
  forall (St : Type) (rng : Rng St) (omega : list matrix) (nthreads : nat)
         (st : St),
    (forall p Xi Rs d t,
        get2 p d t = Ok None ->
        tree_logit (Ok p) Xi Rs d t = Raise ValueError)
    /\ (forall Xi row0 states p path Rs depth,
          get Xi 0 = Ok row0 -> (0 < length row0)%nat -> (2 <= depth)%nat ->
          get2 p 0 0 = Ok None ->
          pg_tree_posterior rng (Xi :: states) omega Rs (p :: path) depth
            nthreads st = Raise ValueError)
    /\ (forall states Rs Rs' path path',
          pg_tree_posterior rng states omega Rs path 1 nthreads st
          = pg_tree_posterior rng states omega Rs' path' 1 nthreads st)
    /\ (forall states Rs path omega' st',
          pg_tree_posterior rng states omega Rs path 1 nthreads st
          = Ok (omega', st') ->
          forall idx, (idx < length states)%nat -> nth idx omega' [[0]] = [])
    /\ (forall Xi row0 states Rs path,
          get Xi 0 = Ok row0 ->
          pg_tree_posterior rng (Xi :: states) omega Rs path 0 nthreads st
          = Raise ValueError).
Proof.
  intros St rng omega nthreads st. split; [|split; [|split; [|split]]].
  - intros p Xi Rs d t H. unfold tree_logit. cbn [bind]. now rewrite H.
  - intros Xi row0 states p path Rs depth Hrow Hlen Hd Hnan.
    unfold pg_tree_posterior, range. cbn [length seq for_each].
    change (get (Xi :: states) 0) with (Ok Xi). cbn [bind]. rewrite Hrow.
    cbn [bind]. destruct (Nat.eqb_spec depth 0) as [->|_]; [lia|].
    assert (E : tree_logits (get (p :: path) 0) Xi Rs depth (length row0)
                = Raise ValueError).
    { unfold tree_logits, range.
      destruct (depth - 1)%nat as [|m] eqn:Em; [lia|].
      destruct (length row0) as [|T]; [lia|].
      cbn [seq for_each]. unfold tree_logit at 1.
      change (get (p :: path) 0) with (Ok p). cbn [bind].
      now rewrite Hnan. }
    now rewrite E.
  - intros states Rs Rs' path path'. reflexivity.
  - intros states Rs path omega' st' Hrun idx Hidx.
    unfold pg_tree_posterior, range in Hrun.
    set (F := fun (i : nat) (a : matrix) => a = []).
    match type of Hrun with
    | for_each _ ?body _ = _ =>
        assert (Hstep : forall i l s l1 s1,
                  (i < length states)%nat -> body i (l, s) = Ok (l1, s1) ->
                  (i < length l)%nat /\ exists a, l1 = upd l i a /\ F i a)
    end.
    { intros i l s l1 s1 Hi Hb. cbn beta iota in Hb.
      apply bind_ok in Hb as (Xi & HXi & Hb).
      apply bind_ok in Hb as (row0 & Hrow & Hb).
      cbn [Nat.eqb] in Hb.
      apply bind_ok in Hb as (v & Hv & Hb).
      destruct (randint rng (2 ^ 16) nthreads s) as [seeds s2].
      apply bind_ok in Hb as (O1 & HO & Hb). inversion Hb; subst; clear Hb.
      apply set_item_ok in HO as (Hlt & ->).
      split; [exact Hlt|]. eexists. split; reflexivity. }
    destruct (for_each_fill F [[0]] (length states) _ Hstep omega st omega' st'
                Hrun) as (_ & _ & H3 & _).
    now apply H3.
  - intros Xi row0 states Rs path Hrow.
    unfold pg_tree_posterior, range. cbn [length seq for_each].
    change (get (Xi :: states) 0) with (Ok Xi). cbn [bind]. rewrite Hrow.
    reflexivity.
Qed.

Lemma pg_tree_posterior_edge_cases_witness :
  pg_tree_posterior stream_rng [[[1; 2]]] [[]] Rs1
    [[[None; Some 1%Z]; [Some 2%Z; Some 2%Z]]] 2 1 noise11
  = Raise ValueError.
Proof.
  destruct (pg_tree_posterior_edge_cases tape stream_rng [[]] 1 noise11)
    as (_ & H & _).
  apply (H [[1; 2]] [1; 2]); [reflexivity | simpl; lia | lia | reflexivity].
Defined.

(** ** The dynamics of an internal node *)

Lemma shape_reshape_F (m n : nat) (v : vec) : shape m n (reshape_F m n v).
Proof.
  unfold reshape_F.
  fold (tabulate m n (fun i j => nth (j * m + i) v 0)). apply shape_tabulate.
Qed.

(** X15: [_internal_dynamics] raises [AssertionError], before it inverts
    or draws anything, when [Mprior] and [Achild] differ in shape; when
    it returns, the sample has the shape of [Achild].  For a single
    scalar entry, with column variances [vp > 0] of the parent and
    [vc > 0] of the children, [N >= 0] children and the standard normal
    variate [z], it returns
    [(m / vp + a / vc) / (1 / vp + N / vc) + sqrt(1 / (1 / vp + N / vc)) z]:
    the posterior precision adds [N] times the children's precision to
    the parent's, and [Achild] enters the mean as the sum over the
    children. *)
Theorem internal_dynamics_posterior :
  (forall (la : LinAlg) (St : Type) (rng : Rng St) Mprior Vparent Achild
          Vchild N st,
      same_shape Mprior Achild = false ->
      _internal_dynamics la rng Mprior Vparent Achild Vchild N st
      = AssertionError)
  /\ (forall (la : LinAlg) (St : Type) (rng : Rng St) Mprior Vparent Achild
             Vchild N st A st',
        _internal_dynamics la rng Mprior Vparent Achild Vchild N st
        = Passed (Ok (A, st')) ->
        same_shape Mprior Achild = true
        /\ shape (nrows Achild) (ncols Achild) A)
  /\ (forall (m a vp vc N z : R) (zs : list R) (ps : list nat),
        0 < vp -> 0 < vc -> 0 <= N ->
        _internal_dynamics exact_la stream_rng [[m]] [[vp]] [[a]] [[vc]] N
          {| normals := z :: zs; picks := ps |}
        = Passed
            (Ok ([[(m / vp + a / vc) / (1 / vp + N / vc)
                   + sqrt (1 / (1 / vp + N / vc)) * z]],
                 {| normals := zs; picks := ps |}))).
Proof.
  split; [|split].
  - intros la St rng Mprior Vparent Achild Vchild N st H.
    unfold _internal_dynamics. now rewrite H.
  - intros la St rng Mprior Vparent Achild Vchild N st A st' H.
    unfold _internal_dynamics in H.
    destruct (same_shape Mprior Achild); [|discriminate].
    split; [reflexivity|]. inversion H as [H']; clear H.
    apply bind_ok in H' as (c0 & _ & H').
    apply bind_ok in H' as (pp & _ & H').
    apply bind_ok in H' as (c1 & _ & H').
    apply bind_ok in H' as (pc & _ & H').
    apply bind_ok in H' as (ps & _ & H').
    apply bind_ok in H' as ([x st1] & _ & H').
    apply bind_ok in H' as (A' & HA & H'). inversion H'; subst; clear H'.
    unfold reshape_F_checked in HA.
    destruct (_ =? _)%nat; [|discriminate]. inversion HA.
    apply shape_reshape_F.
  - intros m a vp vc N z zs ps Hvp Hvc HN.
    assert (Hp : 0 < / vp) by now apply Rinv_0_lt_compat.
    assert (Hc : 0 < / vc) by now apply Rinv_0_lt_compat.
    assert (Hs : 0 < / (vp * 1) + N * / (vc * 1)).
    { rewrite !Rmult_1_r. nra. }
    unfold _internal_dynamics.
    cbn -[exact_inv exact_cholesky].
    rewrite (exact_inv_scalar (vp * 1)) by lra.
    cbn -[exact_inv exact_cholesky].
    rewrite (exact_inv_scalar (vc * 1)) by lra.
    cbn -[exact_inv exact_cholesky].
    rewrite (exact_inv_scalar (/ (vp * 1) + N * / (vc * 1))) by lra.
    cbn -[exact_inv exact_cholesky].
    rewrite exact_cholesky_scalar by now apply Rinv_0_lt_compat.
    cbn.
    assert (Hnz : vc + N * vp <> 0) by nra.
    assert (E : / (/ (vp * 1) + N * / (vc * 1)) = 1 / (1 / vp + N / vc)).
    { field. repeat split; lra. }
    rewrite E. struct_eq.
    field. repeat split; lra.
Qed.

Lemma internal_dynamics_posterior_witness :
  _internal_dynamics exact_la stream_rng [[1]] [[1]] [[2]] [[1]] 2 noise11
  = Passed
      (Ok ([[(1 / 1 + 2 / 1) / (1 / 1 + 2 / 1)
             + sqrt (1 / (1 / 1 + 2 / 1)) * 1]],
           {| normals := [1]; picks := [] |})).
Proof.
  destruct internal_dynamics_posterior as (_ & _ & H).
  apply (H 1 2 1 1 2 1 [1] []); lra.
Defined.

(** ** The last time step of the inputs *)

Lemma bind_assoc {A B C : Type} (c : result A) (f : A -> result B)
    (g : B -> result C) :
  bind (bind c f) g = bind c (fun a => bind (f a) g).
Proof. now destruct c. Qed.

Lemma tree_prior_reads_column (la : LinAlg) (X : matrix) (P : list matrix)
    (ps ps' : pathmat) (om om' : matrix) (Rs : list matrix) (depth t : nat) :
  (forall d, get2 ps d t = get2 ps' d t) ->
  (forall d, get2 om d t = get2 om' d t) ->
  tree_prior la X P (Ok ps) (Ok om) Rs depth t
  = tree_prior la X P (Ok ps') (Ok om') Rs depth t.
Proof.
  intros Hp Ho. unfold tree_prior, tree_potentials.
  rewrite (for_each_ext (range (depth - 1))
             (tree_level (Ok ps) (Ok om) Rs t)
             (tree_level (Ok ps') (Ok om') Rs t)); [reflexivity|].
  intros d [J mu] _. unfold tree_level. cbn [bind].
  rewrite (Hp d), (Hp (d + 1)%nat), (Ho d). reflexivity.
Qed.

Lemma forward_step_reads_column (la : LinAlg) (D_in D_bias : nat)
    (U U' : matrix) (As Qs : list matrix) (C Y Y' : matrix)
    (ps ps' : pathmat) (Zs Zs' : list Z) (om om' : matrix) (Rs : list matrix)
    (depth : nat) (oy oy' : result matrix) (bern : bool) (N : R) (t : nat)
    (s : kstate) :
  col U t = col U' t -> col Y t = col Y' t -> get Zs t = get Zs' t ->
  (forall d, get2 ps d t = get2 ps' d t) ->
  (forall d, get2 om d t = get2 om' d t) ->
  bind oy (fun o => col o t) = bind oy' (fun o => col o t) ->
  forward_step la D_in D_bias (Ok U) As Qs C (Ok Y) (Ok ps) (Ok Zs) (Ok om) Rs
    depth oy bern N t s
  = forward_step la D_in D_bias (Ok U') As Qs C (Ok Y') (Ok ps') (Ok Zs')
      (Ok om') Rs depth oy' bern N t s.
Proof.
  intros HU HY HZ Hp Ho Hoy. unfold forward_step.
  rewrite (tree_prior_reads_column la (kX s) (kP s) ps ps' om om' Rs depth t
             Hp Ho).
  cbn [bind]. rewrite HZ, HU.
  assert (E : forall Sy, observation (Ok Y) oy bern N t Sy
                         = observation (Ok Y') oy' bern N t Sy).
  { intros Sy. unfold observation. cbn [bind]. rewrite HY.
    destruct bern; [|reflexivity].
    destruct (col Y' t) as [y|e]; [cbn [bind]|reflexivity].
    rewrite <- (bind_assoc oy (fun o => col o t)),
      <- (bind_assoc oy' (fun o => col o t)).
    now rewrite Hoy. }
  destruct (tree_prior _ _ _ _ _ _ _ _) as [[alpha Lambda]|e]; [|reflexivity].
  cbn [bind].
  repeat match goal with
         | |- bind ?c _ = bind ?c _ => destruct c; cbn [bind]; [|reflexivity]
         end.
  destruct (predict _ _ _ _ _ _) as [x_prior P_prior].
  now rewrite E.
Qed.

Lemma backward_step_reads_column (la : LinAlg) (D_in D_bias : nat)
    (U U' : matrix) (As Qs Qinvs : list matrix) (Zs Zs' : list Z)
    (eps : matrix) (t : nat) (s : kstate) :
  col U t = col U' t -> get Zs t = get Zs' t ->
  backward_step la D_in D_bias (Ok U) As Qs Qinvs (Ok Zs) eps t s
  = backward_step la D_in D_bias (Ok U') As Qs Qinvs (Ok Zs') eps t s.
Proof.
  intros HU HZ. unfold backward_step, backward_moments. cbn [bind].
  now rewrite HZ, HU.
Qed.

Lemma ncols_of_row_lengths (M M' : matrix) :
  map (@length R) M' = map (@length R) M -> ncols M' = ncols M.
Proof.
  unfold ncols, width. destruct M, M'; simpl; intros H; try discriminate;
    [reflexivity | now inversion H].
Qed.

(** X16: [pg_kalman] on a trajectory of [T] time steps reads the columns
    [0 .. T - 2] of [U], [Y], [paths], [omega] and [omegay] and the
    entries [0 .. T - 2] of [Z] only: column [t] of [Y] is the
    observation of state [t + 1], and what the arrays hold at the last
    time step [T - 1] never matters. *)
Theorem pg_kalman_never_reads_last_time_step :
  forall (la : LinAlg) (St : Type) (rng : Rng St) (D_in D_bias : nat)
         (X U U' : matrix) (P As Qs : list matrix) (C Sy Y Y' : matrix)
         (paths paths' : pathmat) (Zs Zs' : list Z)
         (omega omega' alphas : matrix) (Lambdas Rs : list matrix)
         (depth : nat) (omegay omegay' : result matrix) (bern : bool) (N : R)
         (marker : Z) (st : St),
    (forall t, (t < ncols X - 1)%nat ->
       col U t = col U' t /\ col Y t = col Y' t /\ get Zs t = get Zs' t
       /\ (forall d, get2 paths d t = get2 paths' d t)
       /\ (forall d, get2 omega d t = get2 omega' d t)
       /\ bind omegay (fun o => col o t) = bind omegay' (fun o => col o t)) ->
    pg_kalman la rng D_in D_bias X U P As Qs C Sy Y paths Zs omega alphas
      Lambdas Rs depth omegay bern N marker st
    = pg_kalman la rng D_in D_bias X U' P As Qs C Sy Y' paths' Zs' omega'
        alphas Lambdas Rs depth omegay' bern N marker st.
Proof.
  intros la St rng D_in D_bias X U U' P As Qs C Sy Y Y' paths paths' Zs Zs'
    omega omega' alphas Lambdas Rs depth omegay omegay' bern N marker st H.
  unfold pg_kalman.
  destruct (precompute_Qinvs la D_in Qs) as [Qinvs|e]; [|reflexivity].
  cbn [bind].
  set (s0' := {| kX := X; kP := P; kalphas := alphas; kLambdas := Lambdas;
                 kS := Sy |}).
  assert (E1 : filter_forward la D_in D_bias (Ok U) As Qs C (Ok Y) (Ok paths)
                 (Ok Zs) (Ok omega) Rs depth omegay bern N s0'
               = filter_forward la D_in D_bias (Ok U') As Qs C (Ok Y')
                   (Ok paths') (Ok Zs') (Ok omega') Rs depth omegay' bern N
                   s0').
  { unfold filter_forward. cbn [kX s0'].
    destruct (get X 0) as [row0|e] eqn:Hrow; [cbn [bind]|reflexivity].
    assert (Hw : ncols X = length row0).
    { unfold ncols, width. destruct X as [|r X']; [discriminate|].
      now inversion Hrow. }
    apply for_each_ext. intros t s Ht. apply in_seq in Ht.
    destruct (H t) as (HU & HY & HZ & Hp & Ho & Hoy); [lia|].
    now apply forward_step_reads_column. }
  rewrite E1. clear E1.
  destruct (filter_forward _ _ _ _ _ _ _ _ _ _ _ _ _ _ _ _ s0') as [s1|e] eqn:Hf;
    [cbn [bind]|reflexivity].
  apply filter_forward_frame in Hf as (Hlen & _).
  apply ncols_of_row_lengths in Hlen. cbn [kX s0'] in Hlen.
  assert (E2 : sample_backward la rng D_in D_bias (Ok U) As Qs Qinvs (Ok Zs)
                 s1 st
               = sample_backward la rng D_in D_bias (Ok U') As Qs Qinvs
                   (Ok Zs') s1 st).
  { unfold sample_backward.
    destruct (normal rng (nrows (kX s1)) (ncols (kX s1)) st) as [eps st1].
    destruct (sample_last la eps s1) as [s2|e]; [cbn [bind]|reflexivity].
    rewrite (for_each_ext (range_down (ncols (kX s1) - 1))
               (backward_step la D_in D_bias (Ok U) As Qs Qinvs (Ok Zs) eps)
               (backward_step la D_in D_bias (Ok U') As Qs Qinvs (Ok Zs') eps));
      [reflexivity|].
    intros t s Ht. unfold range_down in Ht. apply in_rev, in_seq in Ht.
    destruct (H t) as (HU & _ & HZ & _); [rewrite <- Hlen; lia|].
    now apply backward_step_reads_column. }
  now rewrite E2.
Qed.

Lemma pg_kalman_never_reads_last_time_step_witness :
  pg_kalman exact_la stream_rng 1 1 [[0; 0]] [[0; 5]] [[[1]]; [[1]]] As1
    Qs_two [[1; 0]] [[2]] [[1; 1]] [] [0; 0]%Z [] [[0; 0]] [[[1]]; [[1]]] [] 1
    (Raise TypeError) false 1 1%Z noise11
  = pg_kalman exact_la stream_rng 1 1 [[0; 0]] [[0; 7]] [[[1]]; [[1]]] As1
      Qs_two [[1; 0]] [[2]] [[1; 9]] [] [0; 3]%Z [] [[0; 0]] [[[1]]; [[1]]] []
      1 (Raise TypeError) false 1 1%Z noise11.
Proof.
  apply pg_kalman_never_reads_last_time_step.
  intros t Ht. cbn in Ht. replace t with 0%nat by lia.
  repeat split; reflexivity.
Defined.

(** ** The regression the emission sampler sets up *)

Lemma vstack_ones_tabulate (m n : nat) (f : nat -> nat -> R) :
  vstack_ones (tabulate m n f) n
  = tabulate (S m) n (fun i j => if (i <? m)%nat then f i j else 1).
Proof.
  unfold vstack_ones, tabulate. rewrite seq_S, map_app. cbn [map Nat.add].
  f_equal.
  - apply map_seq_ext. intros i Hi.
    destruct (Nat.ltb_spec i m); [reflexivity | lia].
  - rewrite Nat.ltb_irrefl. f_equal.
    induction n as [|n IH]; [reflexivity|].
    rewrite seq_S, map_app, <- IH. cbn [map]. clear IH.
    induction n; simpl; [reflexivity | now f_equal].
Qed.

Lemma transpose_shape (m n : nat) (M : matrix) :
  (0 < m)%nat -> shape m n M ->
  transpose M = tabulate n m (fun i j => entry M j i).
Proof.
  intros Hm Hsh. rewrite (shape_as_tabulate m n M Hsh) at 1.
  now apply transpose_tabulate.
Qed.

(** X17: for one trajectory of [T + 1] states of dimension [D] and [T]
    observations of dimension [p], [emission_parameters] regresses the
    observation of time [t] on the state of time [t + 1] extended by a
    constant 1: the sufficient statistics are computed from the rows
    [(x_{t+1}, 1)] and [y_t] of the time steps the mask keeps, and the
    matrix sampled from them is returned, normalised if asked. *)
Theorem emission_parameters_design :
  forall (St : Type) (utils : Utils St) (D T p : nat) (states obsv : matrix)
         (bm : list bool) (nu : R) (Lambda M V : matrix) (normalize : bool)
         (st : St),
    (0 < D)%nat -> (0 < p)%nat ->
    shape D (S T) states -> shape p T obsv -> length bm = T ->
    emission_parameters utils [obsv] [states] [bm] nu Lambda M V normalize st
    = bind
        (compute_ss_mniw utils
           (select bm
              (tabulate T (S D)
                 (fun t i => if (i <? D)%nat then entry states i (S t) else 1)))
           (select bm (tabulate T p (fun t n => entry obsv n t)))
           nu Lambda M V)
        (fun '(M_posterior, V_posterior, IW_matrix, df_posterior) =>
           bind
             (sample_mniw utils df_posterior IW_matrix M_posterior V_posterior
                st)
             (fun '((C, Sy), st') =>
                if normalize then Ok ((normalize_columns C, Sy), st')
                else Ok ((C, Sy), st'))).
Proof.
  intros St utils D T p states obsv bm nu Lambda M V normalize st HD Hp HsX
    HsY Hbm.
  unfold emission_parameters. cbn [hstack map fold_left bind].
  rewrite (drop_first_col_tabulate D T states HsX).
  destruct (get_row0_shape D T (tabulate D T (fun i j => entry states i (S j)))
              HD (shape_tabulate _ _ _)) as (r & Hr & Hlr).
  rewrite Hr. cbn [bind]. rewrite Hlr.
  rewrite vstack_ones_tabulate, transpose_tabulate by lia.
  rewrite (transpose_shape p T obsv Hp HsY).
  unfold hstack1. cbn [concat bind]. rewrite app_nil_r.
  unfold mask_rows, nrows.
  destruct (shape_tabulate T p (fun i j => entry obsv j i)) as [-> _].
  destruct (shape_tabulate T (S D)
              (fun i j => if (j <? D)%nat then entry states j (S i) else 1))
    as [-> _].
  rewrite Hbm, Nat.eqb_refl. cbn [bind]. reflexivity.
Qed.

Lemma emission_parameters_design_witness :
  emission_parameters demo_utils [[[5; 6]; [7; 8]]] [[[1; 2; 3]]]
    [[true; false]] 1 [[1]] [[0; 0]; [0; 0]] [[1]] false noise11
  = bind
      (compute_ss_mniw demo_utils
         (select [true; false]
            (tabulate 2 2
               (fun t i => if (i <? 1)%nat then entry [[1; 2; 3]] i (S t)
                           else 1)))
         (select [true; false]
            (tabulate 2 2 (fun t n => entry [[5; 6]; [7; 8]] n t)))
         1 [[1]] [[0; 0]; [0; 0]] [[1]])
      (fun '(M_posterior, V_posterior, IW_matrix, df_posterior) =>
         bind
           (sample_mniw demo_utils df_posterior IW_matrix M_posterior
              V_posterior noise11)
           (fun '((C, Sy), st') => Ok ((C, Sy), st'))).
Proof.
  apply (emission_parameters_design tape demo_utils 1 2 2 [[1; 2; 3]]
           [[5; 6]; [7; 8]] [true; false] 1 [[1]] [[0; 0]; [0; 0]] [[1]]
           false noise11).
  - lia.
  - lia.
  - split; [reflexivity | repeat constructor].
  - split; [reflexivity | repeat constructor].
  - reflexivity.
Defined.

(** ** The potentials summed over the levels traversed *)

Lemma last_nth (l : vec) (n : nat) : length l = S n -> last l 0 = nth n l 0.
Proof.
  revert n; induction l as [|a l IH]; intros n H; [discriminate|].
  destruct l as [|b l]; [now inversion H|].
  destruct n as [|n]; [discriminate|].
  change (last (b :: l) 0 = nth n (b :: l) 0). apply IH. simpl in *. lia.
Qed.

Lemma tree_level_traversed (ps : pathmat) (om : matrix) (Rs : list matrix)
    (t d D : nat) (loc fin : Z) (Rd : matrix) (rc : vec) (w : R)
    (J : option matrix) (mu : option vec) :
  get2 ps d t = Ok (Some loc) -> get2 ps (d + 1) t = Ok (Some fin) ->
  get Rs d = Ok Rd -> col_at 0 Rd (loc - 1) = Ok rc -> length rc = S D ->
  get2 om d t = Ok w ->
  tree_level (Ok ps) (Ok om) Rs t d (J, mu)
  = Ok (acc_add mat_add J
          (tabulate D D (fun i j => w * (nth i rc 0 * nth j rc 0))),
        acc_add vadd mu
          (map (fun i => (branch_sign fin - w * nth D rc 0) * nth i rc 0)
               (seq 0 D))).
Proof.
  intros Hloc Hfin HRd Hrc Hlen Hw. unfold tree_level. cbn [bind].
  rewrite Hloc. cbn [bind]. rewrite Hfin. cbn [bind]. rewrite HRd.
  cbn [bind]. rewrite Hrc. cbn [bind]. rewrite Hw. cbn [bind].
  assert (Hr : removelast rc = map (fun i => nth i rc 0) (seq 0 D))
    by now apply removelast_as_map.
  rewrite (last_nth rc D Hlen).
  do 3 f_equal.
  - rewrite outer_tabulate, length_removelast_R, Hlen.
    replace (S D - 1)%nat with D by lia.
    rewrite mat_scale_tabulate. apply tabulate_ext. intros i j Hi Hj.
    rewrite !nth_removelast by lia. reflexivity.
  - rewrite Hr. unfold vscale. rewrite map_map. reflexivity.
Qed.

(** X18: at a time step whose path goes through [m >= 1] internal
    levels, the forward pass leaves in [J] the sum over those levels of
    [omega[d, t] r_d r_d^T] and in [temp_mu] the sum of
    [(k_d - omega[d, t] b_d) r_d], where [r_d] and [b_d] are the normal
    and the bias of the hyperplane of the node traversed at level [d]
    and [k_d] is [+1/2] or [-1/2] by the parity of the node reached
    from it. *)
Theorem tree_potentials_sum_over_levels :
  forall (ps : pathmat) (om : matrix) (Rs : list matrix) (t D m : nat)
         (loc fin : nat -> Z) (Rd : nat -> matrix) (rc : nat -> vec)
         (w : nat -> R),
    (0 < m)%nat ->
    (forall d, (d < m)%nat ->
       get2 ps d t = Ok (Some (loc d))
       /\ get2 ps (d + 1) t = Ok (Some (fin d))
       /\ get Rs d = Ok (Rd d)
       /\ col_at 0 (Rd d) (loc d - 1) = Ok (rc d)
       /\ length (rc d) = S D
       /\ get2 om d t = Ok (w d)) ->
    tree_potentials (Ok ps) (Ok om) Rs (S m) t
    = Ok (Some (tabulate D D
                  (fun i j =>
                     sum_upto m
                       (fun d => w d * (nth i (rc d) 0 * nth j (rc d) 0)))),
          Some (map (fun i =>
                       sum_upto m
                         (fun d => (branch_sign (fin d)
                                    - w d * nth D (rc d) 0)
                                   * nth i (rc d) 0))
                    (seq 0 D))).
Proof.
  intros ps om Rs t D m loc fin Rd rc w Hm H.
  unfold tree_potentials, range.
  replace (S m - 1)%nat with m by lia.
  destruct m as [|m]; [lia|]. clear Hm.
  induction m as [|m IH].
  - cbn [seq for_each].
    destruct (H 0%nat) as (H1 & H2 & H3 & H4 & H5 & H6); [lia|].
    rewrite (tree_level_traversed ps om Rs t 0 D _ _ _ _ _ None None
               H1 H2 H3 H4 H5 H6).
    cbn [bind acc_add]. do 3 f_equal.
    + apply tabulate_ext. intros i j _ _. unfold sum_upto. simpl. lra.
    + apply map_ext. intros i. unfold sum_upto. simpl. lra.
  - rewrite seq_S, for_each_app, IH by (intros d Hd; apply H; lia).
    cbn [bind for_each Nat.add].
    destruct (H (S m)) as (H1 & H2 & H3 & H4 & H5 & H6); [lia|].
    rewrite (tree_level_traversed ps om Rs t (S m) D _ _ _ _ _ _ _
               H1 H2 H3 H4 H5 H6).
    cbn [bind acc_add]. do 3 f_equal.
    + rewrite mat_add_tabulate, !Nat.min_id.
      apply tabulate_ext. intros i j _ _.
      now rewrite (sum_upto_S (S m)).
    + unfold vadd. rewrite zip_with_map_seq, Nat.min_id.
      apply map_ext. intros i. now rewrite (sum_upto_S (S m)).
Qed.

Lemma tree_potentials_sum_over_levels_witness :
  tree_potentials (Ok paths2) (Ok omega1) Rs1 2 0
  = Ok (Some (tabulate 1 1
                (fun i j =>
                   sum_upto 1 (fun d => 1 * (nth i [1; 0] 0 * nth j [1; 0] 0)))),
        Some (map (fun i =>
                     sum_upto 1
                       (fun d => (branch_sign 2 - 1 * nth 1 [1; 0] 0)
                                 * nth i [1; 0] 0))
                  (seq 0 1))).
Proof.
  apply (tree_potentials_sum_over_levels paths2 omega1 Rs1 0 1 1
           (fun _ => 1%Z) (fun _ => 2%Z) (fun _ => [[1]; [0]])
           (fun _ => [1; 0]) (fun _ => 1)).
  - lia.
  - intros d Hd. replace d with 0%nat by lia. repeat split; reflexivity.
Defined.

(** ** The input of the last time step *)

(** X19: [discrete_latent_recurrent_only] scores the transition from
    time [t] to [t + 1] with the input of time [t], so it reads every
    input array without its last column: two lists of inputs that agree
    up to their last columns give the same sample. *)
Theorem discrete_latent_never_reads_last_input :
  forall (la : LinAlg) (St : Type) (rng : Rng St) (utils : Utils St)
         (Zs : list (list Z)) (paths : list pathmat) (leaf_path : pathmat)
         (K : nat) (X U U' A Q Rs : list matrix) (depth D_input : nat)
         (st : St),
    Forall2 (fun Ui Ui' => drop_last_col Ui = drop_last_col Ui') U U' ->
    discrete_latent_recurrent_only la rng utils Zs paths leaf_path K X U A Q Rs
      depth D_input st
    = discrete_latent_recurrent_only la rng utils Zs paths leaf_path K X U' A
        Q Rs depth D_input st.
Proof.
  intros la St rng utils Zs paths leaf_path K X U U' A Q Rs depth D_input st
    HU.
  unfold discrete_latent_recurrent_only.
  destruct (for_each (range K) _ _) as [[Qinv Qlogdet]|e]; [|reflexivity].
  cbn [bind]. apply for_each_ext. intros idx s _.
  destruct (get X idx) as [Xi|e]; [cbn [bind]|reflexivity].
  assert (E : leaf_log_prob utils leaf_path K Xi (get U idx) A Qinv Qlogdet Rs
                depth D_input
              = leaf_log_prob utils leaf_path K Xi (get U' idx) A Qinv Qlogdet
                  Rs depth D_input).
  { unfold leaf_log_prob.
    destruct (compute_leaf_log_prob_vectorized _ _ _ _ _ _) as [log_p|e];
      [cbn [bind]|reflexivity].
    apply for_each_ext. intros k lp _.
    destruct (get A k) as [Ak|e]; [cbn [bind]|reflexivity].
    pose proof (Forall2_get _ U U' idx HU) as Hg.
    destruct (get U idx) as [Ui|e], (get U' idx) as [Ui'|e'];
      try contradiction; cbn [bind].
    - now rewrite Hg.
    - now rewrite Hg. }
  now rewrite E.
Qed.

Lemma discrete_latent_never_reads_last_input_witness :
  discrete_latent_recurrent_only exact_la stream_rng demo_utils [[0; 0]%Z]
    no_paths leaf_path2 2 [[[1; 2]]] [[[0; 0]]] A2 Q2 [] 2 1 picks10
  = discrete_latent_recurrent_only exact_la stream_rng demo_utils [[0; 0]%Z]
      no_paths leaf_path2 2 [[[1; 2]]] [[[0; 5]]] A2 Q2 [] 2 1 picks10.
Proof.
  apply discrete_latent_never_reads_last_input.
  repeat constructor.
Defined.

(** ** The priors the forward pass stores *)

(** An invariant indexed by the number of iterations done. *)
Lemma for_each_indexed_invariant {S : Type} (I : nat -> S -> Prop) (n : nat)
    (body : nat -> S -> result S) (s s' : S) :
  I 0%nat s ->
  (forall k a b, (k < n)%nat -> I k a -> body k a = Ok b -> I (Datatypes.S k) b) ->
  for_each (seq 0 n) body s = Ok s' -> I n s'.
Proof.
  intros H0. revert s'. induction n as [|n IH]; intros s' Hstep Hrun.
  - simpl in Hrun. now inversion Hrun; subst.
  - rewrite seq_S, for_each_app in Hrun. cbn [Nat.add] in Hrun.
    apply bind_ok in Hrun as (a & Ha & Hlast). cbn [for_each] in Hlast.
    apply bind_ok in Hlast as (b & Hb & Hret). inversion Hret; subst b.
    apply (Hstep n a s'); [lia | | exact Hb].
    apply IH; [|exact Ha]. intros k u v Hk. apply Hstep. lia.
Qed.

(** [tree_prior] reads column [t] of [X] and slice [t] of [P] only. *)
Lemma tree_prior_frame (la : LinAlg) (X X' : matrix) (P P' : list matrix)
    (paths : result pathmat) (omega : result matrix) (Rs : list matrix)
    (depth t : nat) :
  col X t = col X' t -> get P t = get P' t ->
  tree_prior la X P paths omega Rs depth t
  = tree_prior la X' P' paths omega Rs depth t.
Proof.
  intros HX HP. unfold tree_prior. now rewrite HX, HP.
Qed.

(** X20: when the forward pass returns, the buffers are consistent at
    every time step [t < T - 1]: [alphas[:, t]] and [Lambdas[:, :, t]]
    are the prior mean and covariance the code computes from the
    filtered [X[:, t]] and [P[:, :, t]] it has stored; with [depth == 1]
    they are [X[:, t]] and [P[:, :, t]] themselves, and [pg_kalman]
    returns with [Lambdas[:, :, t]] equal to [P[:, :, t]].  ([alphas] is
    a rectangular array.) *)
Theorem forward_pass_stores_its_priors :
  forall (la : LinAlg) (D_in D_bias : nat) (As Qs : list matrix) (C : matrix)
         (Rs : list matrix) (depth : nat) (bern : bool) (N : R),
    (forall U Y paths Zs omega omegay s s',
        rectangular (kalphas s) ->
        filter_forward la D_in D_bias U As Qs C Y paths Zs omega Rs depth
          omegay bern N s = Ok s' ->
        forall t, (t < ncols (kX s) - 1)%nat ->
          exists alpha Lambda,
            tree_prior la (kX s') (kP s') paths omega Rs depth t
            = Ok (alpha, Lambda)
            /\ col (kalphas s') t = Ok alpha
            /\ get (kLambdas s') t = Ok Lambda)
    /\ (depth = 1%nat ->
        forall (St : Type) (rng : Rng St) X U P Sy Y paths Zs omega alphas
               Lambdas omegay marker st s m st',
          rectangular alphas ->
          pg_kalman la rng D_in D_bias X U P As Qs C Sy Y paths Zs omega alphas
            Lambdas Rs depth omegay bern N marker st = Ok (s, m, st') ->
          forall t, (t < ncols X - 1)%nat ->
            exists Pt, get (kP s) t = Ok Pt /\ get (kLambdas s) t = Ok Pt).
Proof.
  intros la D_in D_bias As Qs C Rs depth bern N.
  assert (Hfwd : forall U Y paths Zs omega omegay s s',
    rectangular (kalphas s) ->
    filter_forward la D_in D_bias U As Qs C Y paths Zs omega Rs depth
      omegay bern N s = Ok s' ->
    forall t, (t < ncols (kX s) - 1)%nat ->
      exists alpha Lambda,
        tree_prior la (kX s') (kP s') paths omega Rs depth t
        = Ok (alpha, Lambda)
        /\ col (kalphas s') t = Ok alpha
        /\ get (kLambdas s') t = Ok Lambda).
  { intros U Y paths Zs omega omegay s s' Hrect H t Ht.
    unfold filter_forward in H. apply bind_ok in H as (row0 & Hrow & H).
    assert (Hw : ncols (kX s) = length row0).
    { unfold ncols, width. destruct (kX s) as [|r X]; [discriminate|].
      now inversion Hrow. }
    rewrite Hw in Ht.
    set (I := fun (k : nat) (a : kstate) =>
      rectangular (kalphas a)
      /\ forall t, (t < k)%nat ->
           exists alpha Lambda,
             tree_prior la (kX a) (kP a) paths omega Rs depth t
             = Ok (alpha, Lambda)
             /\ col (kalphas a) t = Ok alpha
             /\ get (kLambdas a) t = Ok Lambda).
    assert (HI : I (length row0 - 1)%nat s').
    { refine (for_each_indexed_invariant I _ _ s s' _ _ H).
      - split; [exact Hrect | intros u Hu; lia].
      - intros k a b Hk (Ra & Ia) Hb.
        apply forward_step_inv in Hb
          as (alpha & Lambda & Zi & Zt & Q & Ak & Ui & ut & Sy & yt & x_new
              & P_temp & Hprior & _ & _ & _ & _ & _ & _ & _ & _ & HX & HPlt
              & HP & Hal & HLlt & HL & _).
        apply set_col_of_ok in HX as (_ & HlX & HX).
        apply set_col_of_ok in Hal as (Hkw & Hlal & Hal).
        split.
        + rewrite Hal. now apply rectangular_set_col.
        + intros u Hu.
          assert (Hframe :
            tree_prior la (kX b) (kP b) paths omega Rs depth u
            = tree_prior la (kX a) (kP a) paths omega Rs depth u).
          { apply tree_prior_frame.
            - rewrite HX. unfold col.
              apply col_of_set_col_other; [exact HlX | lia].
            - rewrite HP. apply get_upd_other. lia. }
          rewrite Hframe, HL, Hal.
          destruct (Nat.eq_dec u k) as [->|Hne].
          * exists alpha, Lambda. split; [exact Hprior|]. split.
            -- unfold col, col_of. rewrite width_set_col by exact Hlal.
               apply Nat.ltb_lt in Hkw. rewrite Hkw. f_equal.
               apply (column_set_col_same _ _ _ (width (kalphas a)));
                 [exact Hlal | now apply rectangular_width |].
               now apply Nat.ltb_lt.
            -- now apply get_upd_same.
          * destruct (Ia u) as (al & La & E1 & E2 & E3); [lia|].
            exists al, La. split; [exact E1|]. split.
            -- unfold col in *. now rewrite col_of_set_col_other.
            -- now rewrite get_upd_other by auto. }
    now apply HI. }
  split; [exact Hfwd|].
  intros Hd St rng X U P Sy Y paths Zs omega alphas Lambdas omegay marker st s
    m st' Hrect H t Ht. subst depth.
  unfold pg_kalman in H.
  apply bind_ok in H as (Qinvs & _ & H).
  apply bind_ok in H as (s1 & H1 & H).
  apply bind_ok in H as ([s2 st2] & H2 & H). inversion H; subst; clear H.
  destruct (fun Hr => Hfwd _ _ _ _ _ _ _ _ Hr H1 t Ht)
    as (al & La & Hp & _ & HLa); [exact Hrect|].
  apply sample_backward_frame in H2 as (_ & B2 & _ & B4 & _).
  rewrite B2, B4. rewrite tree_prior_depth_one in Hp.
  apply bind_ok in Hp as (x & _ & Hp).
  apply bind_ok in Hp as (Pt & HPt & Hp). inversion Hp; subst.
  exists La. auto.
Qed.

Lemma filter_forward_depth1_run :
  filter_forward exact_la 1 1 (Ok U0) As1 Qs1 C1 (Ok Y1) (Ok []) (Ok [0; 0]%Z)
    (Ok []) [] 1 (Raise TypeError) false 1 s0
  = Ok s1_plain.
Proof.
  unfold filter_forward. cbn [kX s0 get nth_error bind length Nat.sub range seq
                              for_each].
  now rewrite forward_step_depth1.
Qed.

Lemma forward_pass_stores_its_priors_witness :
  exists alpha Lambda,
    tree_prior exact_la (kX s1_plain) (kP s1_plain) (Ok []) (Ok []) [] 1 0
    = Ok (alpha, Lambda)
    /\ col (kalphas s1_plain) 0 = Ok alpha
    /\ get (kLambdas s1_plain) 0 = Ok Lambda.
Proof.
  destruct (forward_pass_stores_its_priors exact_la 1 1 As1 Qs1 C1 [] 1 false
              1) as (H & _).
  apply (H (Ok U0) (Ok Y1) (Ok []) (Ok [0; 0]%Z) (Ok []) (Raise TypeError) s0
           s1_plain).
  - exists 1%nat, 2%nat. split; [reflexivity | repeat constructor].
  - exact filter_forward_depth1_run.
  - cbn. lia.
Defined.

(** ** The correction step in one dimension *)

(** X21: in one dimension, for a predicted variance [p >= 0] and an
    emission noise variance [s > 0], the correction step moves the mean
    by the gain [p c / (c^2 p + s)] times the innovation and returns the
    variance [p s / (c^2 p + s)], which lies between 0 and [p]; the
    variance stored, with the jitter added, is strictly positive, so its
    Cholesky factorisation does not fail. *)
Theorem correct_scalar :
  forall (c d s y x p : R),
    0 <= p -> 0 < s ->
    correct exact_la 1 [[c; d]] [[s]] [y] [x] [[p]]
    = Ok ([x + p * c / (c * c * p + s) * (y - c * x - d)],
          [[p * s / (c * c * p + s)]])
    /\ 0 <= p * s / (c * c * p + s) <= p
    /\ sym_jitter 1 [[p * s / (c * c * p + s)]]
       = [[p * s / (c * c * p + s) + jitter]]
    /\ cholesky exact_la (sym_jitter 1 [[p * s / (c * c * p + s)]])
       = Ok [[sqrt (p * s / (c * c * p + s) + jitter)]].
Proof.
  intros c d s y x p Hp Hs.
  assert (Hc2 : 0 <= c * c) by nra.
  assert (Hden : 0 < c * c * p + s) by nra.
  assert (Hv : 0 <= p * s / (c * c * p + s) <= p).
  { split.
    - apply Rmult_le_pos; [nra|]. left. now apply Rinv_0_lt_compat.
    - apply (Rmult_le_reg_r (c * c * p + s)); [exact Hden|].
      unfold Rdiv. rewrite Rmult_assoc, Rinv_l by lra. nra. }
  assert (Hsj : sym_jitter 1 [[p * s / (c * c * p + s)]]
                = [[p * s / (c * c * p + s) + jitter]]).
  { unfold sym_jitter, mat_add, mat_scale, vadd, vscale. cbn.
    struct_eq. lra. }
  split; [|split; [exact Hv|split; [exact Hsj|]]].
  - unfold correct.
    cbn -[exact_solve exact_inv exact_cholesky].
    match goal with
    | |- context [exact_solve [[?e]] _] =>
        replace e with (c * c * p + s) by ring
    end.
    rewrite exact_solve_scalar by lra.
    cbn -[exact_solve exact_inv exact_cholesky].
    struct_eq; field; lra.
  - rewrite Hsj. cbn [cholesky exact_la].
    apply exact_cholesky_scalar. pose proof jitter_pos. lra.
Qed.

Lemma correct_scalar_witness :
  correct exact_la 1 [[1; 0]] [[2]] [1] [0] [[2]]
  = Ok ([0 + 2 * 1 / (1 * 1 * 2 + 2) * (1 - 1 * 0 - 0)],
        [[2 * 2 / (1 * 1 * 2 + 2)]])
  /\ 0 <= 2 * 2 / (1 * 1 * 2 + 2) <= 2.
Proof.
  destruct (correct_scalar 1 0 2 1 0 2) as (H1 & H2 & _); [lra | lra |].
  split; assumption.
Defined.
